(** * PtGraph: the Patricia-tree backed sparse weighted graph of crab

    A shallow embedding of [include/crab/common/pt_graph.hpp] and the
    properties of its vertex lifecycle, edge store and copy routine. *)

From Equations Require Import Equations.
From Equations.Prop Require Import Logic.
From stdpp Require Import gmap list fin_maps fin_sets sorting.
From Stdlib Require Import ZArith Lia.

(** ** Machine integers *)

(** [unsigned int] (also [vert_id]) is 32 bits wide; arithmetic on it wraps. *)
Definition uint32 (z : Z) : Z := (z mod 2 ^ 32)%Z.

(** [int] is 32 bits wide, two's complement. *)
Definition int32 (z : Z) : Z := ((z + 2 ^ 31) mod 2 ^ 32 - 2 ^ 31)%Z.

(** ** Outcomes of a call

    A call either returns, trips an [assert], or runs into behaviour the
    language leaves undefined (a [std::vector] indexed out of range). *)
Inductive outcome (A : Type) : Type :=
| Ok (a : A)
| AssertFail
| Undefined.
Arguments Ok {A} a.
Arguments AssertFail {A}.
Arguments Undefined {A}.

(** Sequencing stops at the first call that does not return; it is written
    [x ← m; k] and [m;; k]. *)
Global Instance outcome_bind : MBind outcome := λ A B k m,
  match m with
  | Ok a => k a
  | AssertFail => AssertFail
  | Undefined => Undefined
  end.

(** [assert(b)] of a debug build. *)
Definition assert (b : bool) : outcome unit :=
  if b then Ok tt else AssertFail.

(** [for (x : l) body], threading the state [s]. *)
Fixpoint for_each {A S} (l : list A) (body : A → S → outcome S) (s : S)
  : outcome S :=
  match l with
  | [] => Ok s
  | x :: l' => s' ← body x s; for_each l' body s'
  end.

(** [vec[i]] read and written through [std::vector::operator[]]. *)
Definition vec_at {A} (l : list A) (i : nat) : outcome A :=
  match l !! i with
  | Some a => Ok a
  | None => Undefined
  end.

Definition vec_set {A} (l : list A) (i : nat) (a : A) : outcome (list A) :=
  if decide (i < length l) then Ok (<[i:=a]> l) else Undefined.

(** ** The graph *)

(** [vert_id] is [unsigned int]; it is used as an index. *)
Abbreviation vert_id := nat (only parsing).

(** Modelled from the spec: the order in which the iterator of a
    Patricia tree yields its keys, which the spec has as "ascending by
    neighbor id".  The loops of the class over [succs(v)] and [preds(v)]
    ([forget], [copy], [check_adjs]) leave the same state whatever that
    order is; the order shows in the text that [write] produces. *)
Definition ascending (X : gset vert_id) : list vert_id :=
  merge_sort (≤) (elements X).
Arguments ascending : simpl never.

Section PtGraph.

(** The weight type [Wt] of the template. *)
Context {Wt : Type}.

(** Modelled from the spec: [patricia_tree<vert_idx, Wt>] and
    [patricia_tree_set<vert_idx>] of crab/domains/patricia_trees.hpp, which
    is not part of the sources at hand.  The spec takes them as a map and a
    set "with standard membership, insertion, removal, and iteration";
    [insert] binds a key (replacing an earlier binding), [remove] and [-=]
    drop a key, [+=] adds an element, [lookup] yields the bound value if
    there is one, [size] counts the bindings and iteration visits every
    key once, the smaller key first (the views iterate "ascending by
    neighbor id": [ascending] below). *)
Abbreviation succ_t := (gmap vert_id Wt) (only parsing).
Abbreviation pred_t := (gset vert_id) (only parsing).

(** The fields of the class.  [free_id] is a [vector<int>] that is only
    pushed and popped at its back: it is kept as a stack, the back at the
    head of the list.  A [vert_id] stored there and read back goes
    unsigned -> int -> unsigned, which is the identity on 32-bit values, so
    the entries are kept as [vert_id]. *)
Record PtGraph : Type := mkPtGraph {
  edge_count : Z;
  _succs : list succ_t;
  _preds : list pred_t;
  is_free : list bool;
  free_id : list vert_id
}.

(** [PtGraph()] *)
Definition PtGraph_new : PtGraph :=
  {| edge_count := 0; _succs := []; _preds := []; is_free := [];
     free_id := [] |}.

Definition set_edge_count (g : PtGraph) (c : Z) : PtGraph :=
  {| edge_count := c; _succs := _succs g; _preds := _preds g;
     is_free := is_free g; free_id := free_id g |}.
Definition set_succs (g : PtGraph) (s : list succ_t) : PtGraph :=
  {| edge_count := edge_count g; _succs := s; _preds := _preds g;
     is_free := is_free g; free_id := free_id g |}.
Definition set_preds (g : PtGraph) (p : list pred_t) : PtGraph :=
  {| edge_count := edge_count g; _succs := _succs g; _preds := p;
     is_free := is_free g; free_id := free_id g |}.
Definition set_is_free (g : PtGraph) (f : list bool) : PtGraph :=
  {| edge_count := edge_count g; _succs := _succs g; _preds := _preds g;
     is_free := f; free_id := free_id g |}.
Definition set_free_id (g : PtGraph) (f : list vert_id) : PtGraph :=
  {| edge_count := edge_count g; _succs := _succs g; _preds := _preds g;
     is_free := is_free g; free_id := f |}.

(** [succs(v)] and [preds(v)] hand out a range over [_succs[v]] and
    [_preds[v]]; the members of the ranges are written as functions of the
    graph and the vertex. *)

(** [succs(v).size()], [preds(v).size()] *)
Definition succs_size (g : PtGraph) (v : vert_id) : outcome Z :=
  m ← vec_at (_succs g) v; Ok (Z.of_nat (size m)).
Definition preds_size (g : PtGraph) (v : vert_id) : outcome Z :=
  p ← vec_at (_preds g) v; Ok (Z.of_nat (size p)).

(** Iterating [succs(v)], [preds(v)]: every key once, in the order of the
    container. *)
Definition succs (g : PtGraph) (v : vert_id) : outcome (list vert_id) :=
  m ← vec_at (_succs g) v; Ok (ascending (dom m)).
Definition preds (g : PtGraph) (v : vert_id) : outcome (list vert_id) :=
  p ← vec_at (_preds g) v; Ok (ascending p).

(** [succs(x).mem(y)], [preds(y).mem(x)] *)
Definition succs_mem (g : PtGraph) (x y : vert_id) : outcome bool :=
  m ← vec_at (_succs g) x; Ok (bool_decide (is_Some (m !! y))).
Definition preds_mem (g : PtGraph) (y x : vert_id) : outcome bool :=
  p ← vec_at (_preds g) y; Ok (bool_decide (x ∈ p)).

(** [succs(x).add(y, w)], [preds(y).add(x)] *)
Definition succs_add (g : PtGraph) (x y : vert_id) (w : Wt)
  : outcome PtGraph :=
  m ← vec_at (_succs g) x;
  s ← vec_set (_succs g) x (<[y:=w]> m); Ok (set_succs g s).
Definition preds_add (g : PtGraph) (y x : vert_id) : outcome PtGraph :=
  p ← vec_at (_preds g) y;
  s ← vec_set (_preds g) y ({[x]} ∪ p); Ok (set_preds g s).

(** [succs(x).remove(y)], [preds(y).remove(x)] *)
Definition succs_remove (g : PtGraph) (x y : vert_id) : outcome PtGraph :=
  m ← vec_at (_succs g) x;
  s ← vec_set (_succs g) x (delete y m); Ok (set_succs g s).
Definition preds_remove (g : PtGraph) (y x : vert_id) : outcome PtGraph :=
  p ← vec_at (_preds g) y;
  s ← vec_set (_preds g) y (p ∖ {[x]}); Ok (set_preds g s).

(** [succs(x).value(y)] is [*(p.lookup(y))].

    Modelled from the spec: [lookup] belongs to the absent Patricia tree.
    It yields an optional weight, and dereferencing the empty optional is
    the fail-fast case of the spec's error handling design ("must fail
    fast (assertion/panic) in debug and test builds"). *)
Definition succs_value (g : PtGraph) (x y : vert_id) : outcome Wt :=
  m ← vec_at (_succs g) x;
  match m !! y with
  | Some w => Ok w
  | None => AssertFail
  end.

(** [bool elem(vert_id x, vert_id y)] *)
Definition elem (g : PtGraph) (x y : vert_id) : outcome bool :=
  succs_mem g x y.

(** [Wt edge_val(vert_id x, vert_id y)] *)
Definition edge_val (g : PtGraph) (x y : vert_id) : outcome Wt :=
  succs_value g x y.

(** [bool is_empty(void) const] *)
Definition is_empty (g : PtGraph) : bool := bool_decide (edge_count g = 0%Z).

(** [int size(void) const]: [is_free.size()] narrowed to [int].  (Named
    [size_] here, [size] being the cardinality of maps and sets.) *)
Definition size_ (g : PtGraph) : Z := int32 (Z.of_nat (length (is_free g))).

(** [vert_id new_vertex(void)] *)
Definition new_vertex (g : PtGraph) : outcome (vert_id * PtGraph) :=
  match free_id g with
  | v :: rest =>
      (* free_id.size() > 0: v = free_id.back() *)
      assert (bool_decide (v < length (_succs g)));;
      let g1 := set_free_id g rest in
      f ← vec_set (is_free g1) v false;
      Ok (v, set_is_free g1 f)
  | [] =>
      (* v = is_free.size(), narrowed to unsigned int *)
      let v := Z.to_nat (uint32 (Z.of_nat (length (is_free g)))) in
      let g1 := set_succs g (_succs g ++ [∅]) in
      let g2 := set_preds g1 (_preds g1 ++ [∅]) in
      Ok (v, set_is_free g2 (is_free g2 ++ [false]))
  end.

(** [_succs[v].clear()], [_preds[v].clear()] *)
Definition succs_clear (g : PtGraph) (v : vert_id) : outcome PtGraph :=
  s ← vec_set (_succs g) v ∅; Ok (set_succs g s).
Definition preds_clear (g : PtGraph) (v : vert_id) : outcome PtGraph :=
  s ← vec_set (_preds g) v ∅; Ok (set_preds g s).

(** [void forget(vert_id v)] *)
Definition forget (g : PtGraph) (v : vert_id) : outcome PtGraph :=
  assert (bool_decide (v < length (_succs g)));;
  fr ← vec_at (is_free g) v;
  if fr : bool then Ok g else
  let g := set_free_id g (v :: free_id g) in
  f ← vec_set (is_free g) v true;
  let g := set_is_free g f in
  (* Remove (s -> v) from preds. *)
  n ← succs_size g v;
  let g := set_edge_count g (uint32 (edge_count g - n)) in
  ds ← succs g v;
  g ← for_each ds (λ d g, preds_remove g d v) g;
  g ← succs_clear g v;
  (* Remove (v -> p) from succs *)
  n ← preds_size g v;
  let g := set_edge_count g (uint32 (edge_count g - n)) in
  ps ← preds g v;
  g ← for_each ps (λ p g, succs_remove g p v) g;
  preds_clear g v.

(** [void add_edge(vert_id x, Wt wt, vert_id y)] *)
Definition add_edge (g : PtGraph) (x : vert_id) (wt : Wt) (y : vert_id)
  : outcome PtGraph :=
  g ← succs_add g x y wt;
  g ← preds_add g y x;
  Ok (set_edge_count g (uint32 (edge_count g + 1))).

(** [void set_edge(vert_id s, Wt w, vert_id d)] *)
Definition set_edge (g : PtGraph) (s : vert_id) (w : Wt) (d : vert_id)
  : outcome PtGraph :=
  e ← elem g s d;
  if negb e then add_edge g s w d
  else
    (* _succs[s].insert(vert_idx(d), w) *)
    succs_add g s d w.

(** The template parameter [Op] of [update_edge]: what the code needs of
    a merge operator. *)
Record MergeOp : Type := mkMergeOp {
  apply : Wt → Wt → Wt;
  default_is_absorbing : bool
}.

(** [void update_edge(vert_id s, Wt w, vert_id d, Op& op)] *)
Definition update_edge (g : PtGraph) (s : vert_id) (w : Wt) (d : vert_id)
    (op : MergeOp) : outcome PtGraph :=
  e ← elem g s d;
  if e : bool then
    cur ← edge_val g s d;
    succs_add g s d (apply op cur w)
  else if negb (default_is_absorbing op) then add_edge g s w d
  else Ok g.

(** [void clear(void)] *)
Definition clear (g : PtGraph) : PtGraph :=
  {| edge_count := 0; _succs := []; _preds := []; is_free := [];
     free_id := [] |}.

(** One round of the loop of [growTo]: three [push_back]s. *)
Definition push_slot (g : PtGraph) : PtGraph :=
  let g := set_is_free g (is_free g ++ [false]) in
  let g := set_preds g (_preds g ++ [∅]) in
  set_succs g (_succs g ++ [∅]).

(** [void growTo(unsigned int new_sz)].  The loop [for(; sz < new_sz; sz++)]
    runs [new_sz - sz] times, none if [new_sz <= sz]; the [assert] comes
    after it. *)
Definition growTo (g : PtGraph) (new_sz : nat) : outcome PtGraph :=
  let sz := length (is_free g) in
  let g := Nat.iter (new_sz - sz) push_slot g in
  assert (bool_decide (length (free_id g) = 0));;
  Ok g.

(** *** Vertex iteration

    A [vert_iterator] is a position [v], an [unsigned int], and a
    reference to [is_free]. *)

(** [vert_iterator(vert_id _v, const vector<bool>& _is_free)]: the
    position is taken as a [vert_id], so that a [size_t] given for it is
    narrowed to 32 bits. *)
Definition vert_iterator (n : nat) : vert_id :=
  Z.to_nat (uint32 (Z.of_nat n)).

(** [operator*] reads the position and [operator++] steps it, as an
    [unsigned int]. *)
Definition vert_iterator_deref (v : vert_id) : vert_id := v.
Definition vert_iterator_incr (v : vert_id) : vert_id :=
  Z.to_nat (uint32 (Z.of_nat v + 1)).

(** The loop [while(v < o.v && is_free[v]) ++v] of [operator!=].  It runs
    on the distance [k] from [v] to [o.v]: [v < o.v] says that the
    distance is positive, and [++v] shortens it by one ([o.v] being a
    [vert_id], [++v] does not wrap below it). *)
Fixpoint skip_free (fr : list bool) (k : nat) (v : vert_id)
  : outcome vert_id :=
  match k with
  | O => Ok v
  | S k' =>
      b ← vec_at fr v;
      if b : bool then skip_free fr k' (vert_iterator_incr v) else Ok v
  end.

(** [bool operator!=(const vert_iterator& o)]: the new position of the
    iterator and the answer. *)
Definition vert_iterator_neq (fr : list bool) (v o : vert_id)
  : outcome (vert_id * bool) :=
  v' ← skip_free fr (o - v) v;
  Ok (v', bool_decide (v' < o)).

(** [vert_range::begin()] is [vert_iterator(0, is_free)] and
    [vert_range::end()] is [vert_iterator(is_free.size(), is_free)]: the
    position of [end()] is the number of slots modulo [2 ^ 32]. *)
Definition vert_range_begin (fr : list bool) : vert_id := vert_iterator 0.
Definition vert_range_end (fr : list bool) : vert_id :=
  vert_iterator (length fr).

Lemma vert_iterator_lt n : (Z.of_nat (vert_iterator n) < 2 ^ 32)%Z.
Proof.
  unfold vert_iterator, uint32.
  pose proof (Z.mod_pos_bound (Z.of_nat n) (2 ^ 32)). lia.
Qed.

Lemma vert_iterator_incr_small v :
  (Z.of_nat v + 1 < 2 ^ 32)%Z → vert_iterator_incr v = S v.
Proof.
  intros Hv. unfold vert_iterator_incr, uint32.
  rewrite Z.mod_small by lia. lia.
Qed.

Lemma skip_free_bounds fr k v v' :
  (Z.of_nat (v + k) < 2 ^ 32)%Z →
  skip_free fr k v = Ok v' → v ≤ v' ≤ v + k.
Proof.
  revert v; induction k as [|k IH]; intros v Hk; simpl.
  - intros [= ->]; lia.
  - destruct (vec_at fr v) as [[]| |]; simpl; try discriminate.
    + rewrite vert_iterator_incr_small by lia.
      intros H%IH; lia.
    + intros [= ->]; lia.
Qed.

(** [for(vert_id x : verts())], that is
    [for(it = begin(); it != end(); ++it) { x = *it; ... }], collecting the
    values of [x]; [v] is the position of [it]. *)
Equations? verts_from (fr : list bool) (v : vert_id)
  : outcome (list vert_id) by wf (vert_range_end fr - v) lt :=
  verts_from fr v
    with inspect (vert_iterator_neq fr v (vert_range_end fr)) => {
    | exist _ (Ok (v', true)) H =>
        rest ← verts_from fr (vert_iterator_incr v');
        Ok (vert_iterator_deref v' :: rest)
    | exist _ (Ok (v', false)) H => Ok []
    | exist _ AssertFail H => AssertFail
    | exist _ Undefined H => Undefined
  }.
Proof.
  unfold vert_iterator_neq in H.
  destruct (skip_free fr (vert_range_end fr - v) v) as [w| |] eqn:Hs;
    simpl in H; try discriminate.
  injection H as -> Hb. apply bool_decide_eq_true in Hb.
  pose proof (vert_iterator_lt (length fr)) as He.
  fold (vert_range_end fr) in He.
  destruct (decide (v < vert_range_end fr)) as [Hv|Hv].
  - apply skip_free_bounds in Hs; [|lia].
    rewrite vert_iterator_incr_small by lia. lia.
  - replace (vert_range_end fr - v) with 0 in Hs by lia.
    simpl in Hs. injection Hs as <-. lia.
Qed.

(** [vert_range verts(void) const], iterated from [begin()] to [end()]. *)
Definition verts (g : PtGraph) : outcome (list vert_id) :=
  verts_from (is_free g) (vert_range_begin (is_free g)).

(** [void clear_edges(void)] *)
Definition clear_edges (g : PtGraph) : outcome PtGraph :=
  let g := set_edge_count g 0 in
  vs ← verts g;
  for_each vs (λ v g, g ← succs_clear g v; preds_clear g v) g.

(** *** Copy

    [copy] is a template over the source [G]; it uses [g.size()],
    [g.verts()], [g.succs(s)] and [g.edge_val(s, d)], the last converted
    to [Wt]. *)
Class GraphLike (G : Type) : Type := {
  src_size : G → Z;
  src_verts : G → outcome (list vert_id);
  src_succs : G → vert_id → outcome (list vert_id);
  src_edge_val : G → vert_id → vert_id → outcome Wt
}.

(** [static graph_t copy(G& g)].  [g.size()] is an [int] and [growTo]
    takes an [unsigned int]. *)
Definition copy {G} `{GraphLike G} (g : G) : outcome PtGraph :=
  ret ← growTo PtGraph_new (Z.to_nat (uint32 (src_size g)));
  vs ← src_verts g;
  for_each vs (λ s ret,
    ds ← src_succs g s;
    for_each ds (λ d ret,
      w ← src_edge_val g s d;
      add_edge ret s w d) ret) ret.

(** A [PtGraph] is such a source. *)
Global Instance PtGraph_GraphLike : GraphLike PtGraph := {|
  src_size := size_;
  src_verts := verts;
  src_succs := succs;
  src_edge_val := edge_val
|}.

End PtGraph.

(** ** Vectors of containers *)

Lemma bind_Ok {A B} (m : outcome A) (k : A → outcome B) (r : B) :
  m ≫= k = Ok r → ∃ a, m = Ok a ∧ k a = Ok r.
Proof. destruct m; simpl; intros; try discriminate; eauto. Qed.

Lemma assert_Ok (b : bool) : assert b = Ok tt ↔ b = true.
Proof. destruct b; simpl; split; congruence. Qed.

(** The iteration order lists the keys of the container, each once. *)
Lemma ascending_perm (X : gset nat) : ascending X ≡ₚ elements X.
Proof. apply merge_sort_Permutation. Qed.

Lemma elem_of_ascending (X : gset nat) (x : nat) : x ∈ ascending X ↔ x ∈ X.
Proof. by rewrite ascending_perm, elem_of_elements. Qed.

Lemma NoDup_ascending (X : gset nat) : NoDup (ascending X).
Proof. rewrite ascending_perm. apply NoDup_elements. Qed.

Lemma length_ascending (X : gset nat) : length (ascending X) = size X.
Proof. by rewrite ascending_perm. Qed.

Lemma ascending_empty : ascending ∅ = [].
Proof. done. Qed.

Lemma ascending_sorted (X : gset nat) : StronglySorted lt (ascending X).
Proof.
  pose proof (NoDup_ascending X) as Hnd.
  assert (Hs : StronglySorted le (ascending X))
    by apply (StronglySorted_merge_sort _).
  induction Hs as [|x l Hs IH Hall]; [constructor|].
  apply NoDup_cons in Hnd as [Hx Hnd]. constructor; [auto|].
  apply Forall_forall. intros y Hy.
  pose proof (proj1 (Forall_forall _ _) Hall y Hy).
  assert (x ≠ y) by (intros ->; done). lia.
Qed.

Section vectors.
Context {A : Type}.
Implicit Types (l : list A) (f : A → A) (i j : nat).

Lemma vec_at_lookup l i a : l !! i = Some a → vec_at l i = Ok a.
Proof. unfold vec_at; by intros ->. Qed.

Lemma vec_at_Ok l i a : vec_at l i = Ok a → l !! i = Some a.
Proof. unfold vec_at; destruct (l !! i); congruence. Qed.

Lemma vec_at_ge l i : length l ≤ i → vec_at l i = Undefined.
Proof. intros H%lookup_ge_None_2. unfold vec_at; by rewrite H. Qed.

Lemma vec_set_lt l i a : i < length l → vec_set l i a = Ok (<[i:=a]> l).
Proof. intros; unfold vec_set; by rewrite decide_True. Qed.

Lemma vec_set_ge l i a : length l ≤ i → vec_set l i a = Undefined.
Proof. intros; unfold vec_set; rewrite decide_False; [done | lia]. Qed.

Lemma insert_as_alter l i f a :
  l !! i = Some a → <[i:=f a]> l = alter f i l.
Proof.
  intros Hi. apply list_eq; intros j.
  destruct (decide (i = j)) as [<-|Hne].
  - rewrite list_lookup_insert_eq by eauto using lookup_lt_Some.
    by rewrite list_lookup_alter_eq, Hi.
  - by rewrite list_lookup_insert_ne, list_lookup_alter_ne.
Qed.

(** Reading a slot, changing it and writing it back. *)
Lemma vec_update {B} l i f (k : list A → B) :
  (a ← vec_at l i; s ← vec_set l i (f a); Ok (k s))
  = if decide (i < length l) then Ok (k (alter f i l)) else Undefined.
Proof.
  case_decide as Hi.
  - destruct (lookup_lt_is_Some_2 l i Hi) as [a Ha].
    rewrite (vec_at_lookup _ _ _ Ha); simpl.
    rewrite vec_set_lt by done; simpl. by rewrite (insert_as_alter _ _ f).
  - rewrite vec_at_ge by lia. done.
Qed.

Lemma vec_overwrite {B} l i a (k : list A → B) :
  (s ← vec_set l i a; Ok (k s))
  = if decide (i < length l) then Ok (k (alter (λ _, a) i l)) else Undefined.
Proof.
  case_decide as Hi.
  - rewrite vec_set_lt by done; simpl. by rewrite list_insert_alter.
  - rewrite vec_set_ge by lia. done.
Qed.

(** The slots [ds] altered one after the other. *)
Definition alter_all f (ds : list nat) l : list A :=
  foldl (λ l d, alter f d l) l ds.

Lemma length_alter_all f ds l : length (alter_all f ds l) = length l.
Proof.
  revert l; induction ds as [|d ds IH]; intros l; simpl; [done|].
  unfold alter_all in *; simpl. by rewrite IH, length_alter.
Qed.

Lemma lookup_alter_all f ds l j :
  NoDup ds →
  alter_all f ds l !! j = if decide (j ∈ ds) then f <$> l !! j else l !! j.
Proof.
  intros Hnd; revert l; induction Hnd as [|d ds Hd Hnd IH]; intros l.
  - rewrite decide_False by set_solver. done.
  - unfold alter_all in *; simpl. rewrite IH.
    destruct (decide (j = d)) as [->|Hne].
    + rewrite decide_False by done. rewrite decide_True by set_solver.
      apply list_lookup_alter_eq.
    + rewrite list_lookup_alter_ne by done.
      destruct (decide (j ∈ ds)), (decide (j ∈ d :: ds)); set_solver.
Qed.

Lemma sum_list_with_insert (sz : A → nat) l i a b :
  l !! i = Some a →
  sum_list_with sz (<[i:=b]> l) + sz a = sum_list_with sz l + sz b.
Proof.
  revert i; induction l as [|c l IH]; intros [|i]; simpl; try done.
  - intros [= ->]. lia.
  - intros H%IH. lia.
Qed.

Lemma sum_list_with_alter (sz : A → nat) l i f a :
  l !! i = Some a →
  sum_list_with sz (alter f i l) + sz a = sum_list_with sz l + sz (f a).
Proof.
  intros H. rewrite <- (insert_as_alter _ _ _ _ H).
  by apply sum_list_with_insert.
Qed.

(** Altering distinct slots, each of which loses one element. *)
Lemma sum_list_with_alter_all (sz : A → nat) f ds l :
  NoDup ds →
  (∀ d, d ∈ ds → ∃ a, l !! d = Some a ∧ sz a = S (sz (f a))) →
  sum_list_with sz (alter_all f ds l) + length ds = sum_list_with sz l.
Proof.
  intros Hnd; revert l; induction Hnd as [|d ds Hd Hnd IH]; intros l Hl.
  - simpl. lia.
  - unfold alter_all in *; simpl.
    destruct (Hl d) as (a & Ha & Hsz); [set_solver|].
    pose proof (sum_list_with_alter sz l d f a Ha) as Hs.
    rewrite <- (IH (alter f d l)) in Hs.
    + lia.
    + intros d' Hd'. destruct (Hl d') as (a' & Ha' & Hsz'); [set_solver|].
      exists a'. rewrite list_lookup_alter_ne by set_solver. done.
Qed.

Lemma sum_list_with_snoc (sz : A → nat) l a :
  sum_list_with sz (l ++ [a]) = sum_list_with sz l + sz a.
Proof. rewrite sum_list_with_app. simpl. lia. Qed.

End vectors.

(** ** Views of a graph state *)

Section views.
Context {Wt : Type}.
Implicit Types (g : @PtGraph Wt) (x y v : vert_id).

(** The successor map and the predecessor set of a slot; empty outside the
    allocated range. *)
Definition succ_of g x : gmap vert_id Wt := default ∅ (_succs g !! x).
Definition pred_of g y : gset vert_id := default ∅ (_preds g !! y).

(** A slot is live when it is allocated and not marked free. *)
Definition live g v : Prop := is_free g !! v = Some false.

(** I1, the symmetry of the two views. *)
Definition I1 g : Prop := ∀ x y, y ∈ dom (succ_of g x) ↔ x ∈ pred_of g y.

(** What every state built by the member functions satisfies: the three
    vectors have one length, edges end at allocated slots, and I1. *)
Record wf g : Prop := mk_wf {
  wf_succs : length (_succs g) = length (is_free g);
  wf_preds : length (_preds g) = length (is_free g);
  wf_range : ∀ x y, y ∈ dom (succ_of g x) → y < length (is_free g);
  wf_sym : I1 g
}.

(** The live slots, in ascending order. *)
Definition live_verts g : list vert_id :=
  filter (λ v, is_free g !! v = Some false) (seq 0 (length (is_free g))).

(** The live slots that a loop over [verts()] comes by: those below the
    position of [end()]. *)
Definition walked_verts g : list vert_id :=
  filter (λ v, is_free g !! v = Some false)
    (seq 0 (vert_range_end (is_free g))).

(** The two sums of I2, over the live slots. *)
Definition live_succ_sum g : nat :=
  sum_list_with (λ v, size (succ_of g v)) (live_verts g).
Definition live_pred_sum g : nat :=
  sum_list_with (λ v, size (pred_of g v)) (live_verts g).

(** No edge leaves or enters a free slot. *)
Definition free_slots_empty g : Prop :=
  ∀ v, is_free g !! v = Some true → succ_of g v = ∅ ∧ pred_of g v = ∅.

End views.

Section slots.
Context {A : Type} `{Empty A}.
Implicit Types (l : list A) (f : A → A).

Lemma slot_lookup l i a : l !! i = Some a → default ∅ (l !! i) = a.
Proof. by intros ->. Qed.

Lemma slot_ge l i : length l ≤ i → default ∅ (l !! i) = ∅.
Proof. intros Hi%lookup_ge_None_2. by rewrite Hi. Qed.

Lemma slot_alter l f i j :
  i < length l →
  default ∅ (alter f i l !! j)
  = if decide (i = j) then f (default ∅ (l !! i)) else default ∅ (l !! j).
Proof.
  intros Hi. case_decide as Hij.
  - subst j. rewrite list_lookup_alter_eq.
    destruct (lookup_lt_is_Some_2 l i Hi) as [a ->]. done.
  - by rewrite list_lookup_alter_ne.
Qed.

Lemma slot_alter_all l f ds j :
  NoDup ds → (∀ d, d ∈ ds → d < length l) →
  default ∅ (alter_all f ds l !! j)
  = if decide (j ∈ ds) then f (default ∅ (l !! j)) else default ∅ (l !! j).
Proof.
  intros Hnd Hr. rewrite lookup_alter_all by done.
  case_decide as Hj; [|done].
  destruct (lookup_lt_is_Some_2 l j (Hr _ Hj)) as [a ->]. done.
Qed.

Lemma slot_snoc l a j :
  default ∅ ((l ++ [a]) !! j)
  = if decide (j = length l) then a else default ∅ (l !! j).
Proof.
  case_decide as Hj.
  - subst. rewrite lookup_app_r by lia. by rewrite Nat.sub_diag.
  - destruct (decide (j < length l)).
    + by rewrite lookup_app_l.
    + rewrite !slot_ge; [done | lia |]. rewrite length_app; simpl; lia.
Qed.

End slots.

(** ** The edge primitives in closed form *)

Section primitives.
Context {Wt : Type}.
Implicit Types (g : @PtGraph Wt) (x y v s d : vert_id) (w : Wt).

Lemma succs_add_eq g x y w :
  succs_add g x y w
  = if decide (x < length (_succs g))
    then Ok (set_succs g (alter (<[y:=w]>) x (_succs g))) else Undefined.
Proof. exact (vec_update (_succs g) x (<[y:=w]>) (set_succs g)). Qed.

Lemma preds_add_eq g y x :
  preds_add g y x
  = if decide (y < length (_preds g))
    then Ok (set_preds g (alter (λ p, {[x]} ∪ p) y (_preds g)))
    else Undefined.
Proof. exact (vec_update (_preds g) y (λ p, {[x]} ∪ p) (set_preds g)). Qed.

Lemma succs_remove_eq g x y :
  succs_remove g x y
  = if decide (x < length (_succs g))
    then Ok (set_succs g (alter (delete y) x (_succs g))) else Undefined.
Proof. exact (vec_update (_succs g) x (delete y) (set_succs g)). Qed.

Lemma preds_remove_eq g y x :
  preds_remove g y x
  = if decide (y < length (_preds g))
    then Ok (set_preds g (alter (λ p, p ∖ {[x]}) y (_preds g)))
    else Undefined.
Proof. exact (vec_update (_preds g) y (λ p, p ∖ {[x]}) (set_preds g)). Qed.

Lemma succs_clear_eq g v :
  succs_clear g v
  = if decide (v < length (_succs g))
    then Ok (set_succs g (alter (λ _, ∅) v (_succs g))) else Undefined.
Proof. exact (vec_overwrite (_succs g) v ∅ (set_succs g)). Qed.

Lemma preds_clear_eq g v :
  preds_clear g v
  = if decide (v < length (_preds g))
    then Ok (set_preds g (alter (λ _, ∅) v (_preds g))) else Undefined.
Proof. exact (vec_overwrite (_preds g) v ∅ (set_preds g)). Qed.

Lemma elem_eq g x y :
  elem g x y
  = if decide (x < length (_succs g))
    then Ok (bool_decide (y ∈ dom (succ_of g x))) else Undefined.
Proof.
  unfold elem, succs_mem, succ_of. case_decide as Hx.
  - destruct (lookup_lt_is_Some_2 _ _ Hx) as [m Hm].
    rewrite (vec_at_lookup _ _ _ Hm), Hm; simpl. f_equal.
    apply bool_decide_ext. by rewrite elem_of_dom.
  - by rewrite vec_at_ge by lia.
Qed.

Lemma edge_val_eq g x y :
  edge_val g x y
  = if decide (x < length (_succs g))
    then match succ_of g x !! y with Some w => Ok w | None => AssertFail end
    else Undefined.
Proof.
  unfold edge_val, succs_value, succ_of. case_decide as Hx.
  - destruct (lookup_lt_is_Some_2 _ _ Hx) as [m Hm].
    by rewrite (vec_at_lookup _ _ _ Hm), Hm.
  - by rewrite vec_at_ge by lia.
Qed.

(** The loops of [forget]. *)
Lemma for_each_preds_remove v ds g :
  (∀ d, d ∈ ds → d < length (_preds g)) →
  for_each ds (λ d g, preds_remove g d v) g
  = Ok (set_preds g (alter_all (λ p, p ∖ {[v]}) ds (_preds g))).
Proof.
  revert g; induction ds as [|d ds IH]; intros g Hr; simpl.
  - by destruct g.
  - rewrite preds_remove_eq, decide_True by (apply Hr; left).
    simpl. rewrite IH.
    + done.
    + intros d' Hd'; simpl. rewrite length_alter. apply Hr; by right.
Qed.

Lemma for_each_succs_remove v ps g :
  (∀ p, p ∈ ps → p < length (_succs g)) →
  for_each ps (λ p g, succs_remove g p v) g
  = Ok (set_succs g (alter_all (delete v) ps (_succs g))).
Proof.
  revert g; induction ps as [|p ps IH]; intros g Hr; simpl.
  - by destruct g.
  - rewrite succs_remove_eq, decide_True by (apply Hr; left).
    simpl. rewrite IH.
    + done.
    + intros p' Hp'; simpl. rewrite length_alter. apply Hr; by right.
Qed.

End primitives.

(** ** The edge operations in closed form *)

Section edge_ops.
Context {Wt : Type}.
Implicit Types (g : @PtGraph Wt) (x y v s d : vert_id) (w : Wt).

(** The state [add_edge] leaves when both slots are allocated. *)
Definition add_edge_result g x w y : PtGraph :=
  {| edge_count := uint32 (edge_count g + 1);
     _succs := alter (<[y:=w]>) x (_succs g);
     _preds := alter (λ p, {[x]} ∪ p) y (_preds g);
     is_free := is_free g;
     free_id := free_id g |}.

Lemma add_edge_eq g x w y :
  add_edge g x w y
  = if decide (x < length (_succs g)) then
      if decide (y < length (_preds g)) then Ok (add_edge_result g x w y)
      else Undefined
    else Undefined.
Proof.
  unfold add_edge. rewrite succs_add_eq. case_decide; [|done]; simpl.
  rewrite preds_add_eq; simpl. case_decide; done.
Qed.

Lemma succ_of_add_edge g x w y x' :
  x < length (_succs g) →
  succ_of (add_edge_result g x w y) x'
  = if decide (x = x') then <[y:=w]> (succ_of g x) else succ_of g x'.
Proof. intros; unfold succ_of; simpl. by apply slot_alter. Qed.

Lemma pred_of_add_edge g x w y y' :
  y < length (_preds g) →
  pred_of (add_edge_result g x w y) y'
  = if decide (y = y') then {[x]} ∪ pred_of g y else pred_of g y'.
Proof. intros; unfold pred_of; simpl. by apply slot_alter. Qed.

(** The state left by overwriting the weight of [(s, d)]. *)
Definition overwrite_result g s w d : PtGraph :=
  set_succs g (alter (<[d:=w]>) s (_succs g)).

Lemma succ_of_overwrite g s w d x :
  s < length (_succs g) →
  succ_of (overwrite_result g s w d) x
  = if decide (s = x) then <[d:=w]> (succ_of g s) else succ_of g x.
Proof. intros; unfold succ_of; simpl. by apply slot_alter. Qed.

Lemma set_edge_eq g s w d :
  set_edge g s w d
  = if decide (s < length (_succs g)) then
      if decide (d ∈ dom (succ_of g s)) then Ok (overwrite_result g s w d)
      else add_edge g s w d
    else Undefined.
Proof.
  unfold set_edge. rewrite elem_eq. case_decide as Hs; [|done]; simpl.
  case_decide as Hd.
  - rewrite bool_decide_eq_true_2 by done; simpl.
    rewrite succs_add_eq. by rewrite decide_True.
  - by rewrite bool_decide_eq_false_2.
Qed.

Lemma update_edge_eq g s w d (op : MergeOp) :
  update_edge g s w d op
  = if decide (s < length (_succs g)) then
      match succ_of g s !! d with
      | Some cur => Ok (overwrite_result g s (apply op cur w) d)
      | None =>
          if default_is_absorbing op then Ok g else add_edge g s w d
      end
    else Undefined.
Proof.
  unfold update_edge. rewrite elem_eq. case_decide as Hs; [|done]; simpl.
  destruct (succ_of g s !! d) as [cur|] eqn:Hd.
  - rewrite bool_decide_eq_true_2 by (apply elem_of_dom; eauto); simpl.
    rewrite edge_val_eq, decide_True, Hd by done; simpl.
    rewrite succs_add_eq. by rewrite decide_True.
  - rewrite bool_decide_eq_false_2; simpl.
    + by destruct (default_is_absorbing op).
    + rewrite elem_of_dom, Hd. by intros [? ?].
Qed.

End edge_ops.

(** ** Well-formedness is kept *)

Section wf_kept.
Context {Wt : Type}.
Implicit Types (g : @PtGraph Wt) (x y v s d : vert_id) (w : Wt).

Lemma wf_new : wf (@PtGraph_new Wt).
Proof.
  split; done.
Qed.

Lemma wf_edge g x y : wf g → y ∈ dom (succ_of g x) ↔ x ∈ pred_of g y.
Proof. intros Hwf. apply (wf_sym g Hwf). Qed.

Lemma wf_pred_range g x y : wf g → x ∈ pred_of g y → x < length (is_free g).
Proof.
  intros Hwf Hx%(wf_sym g Hwf). rewrite <- (wf_succs g Hwf).
  apply lookup_lt_is_Some. unfold succ_of in Hx.
  destruct (_succs g !! x); [eauto | simpl in Hx; set_solver].
Qed.

Lemma wf_add_edge g x w y :
  wf g → x < length (is_free g) → y < length (is_free g) →
  wf (add_edge_result g x w y).
Proof.
  intros Hwf Hx Hy.
  pose proof (wf_succs g Hwf) as Hls. pose proof (wf_preds g Hwf) as Hlp.
  split; simpl.
  - by rewrite length_alter.
  - by rewrite length_alter.
  - intros x' y'. rewrite succ_of_add_edge by lia.
    case_decide; [|by apply wf_range].
    rewrite dom_insert_L, elem_of_union, elem_of_singleton.
    intros [->|?]; [done | by eapply wf_range].
  - intros x' y'. rewrite succ_of_add_edge, pred_of_add_edge by lia.
    pose proof (wf_sym g Hwf x' y'). pose proof (wf_sym g Hwf x y').
    pose proof (wf_sym g Hwf x' y).
    repeat case_decide; subst;
      rewrite ?dom_insert_L, ?elem_of_union, ?elem_of_singleton;
      naive_solver.
Qed.

Lemma wf_overwrite g s w d :
  wf g → s < length (is_free g) → d ∈ dom (succ_of g s) →
  wf (overwrite_result g s w d).
Proof.
  intros Hwf Hs Hd.
  pose proof (wf_succs g Hwf) as Hls.
  assert (Hdom : ∀ x, dom (succ_of (overwrite_result g s w d) x)
                      = dom (succ_of g x)).
  { intros x. rewrite succ_of_overwrite by lia. case_decide; [subst|done].
    rewrite dom_insert_L. set_solver. }
  split; simpl.
  - by rewrite length_alter.
  - by apply wf_preds.
  - intros x y. rewrite Hdom. by apply wf_range.
  - intros x y. rewrite Hdom. by apply (wf_sym g Hwf).
Qed.

Lemma wf_push_slot g : wf g → wf (push_slot g).
Proof.
  intros Hwf.
  pose proof (wf_succs g Hwf) as Hls. pose proof (wf_preds g Hwf) as Hlp.
  assert (Hs : ∀ x, succ_of (push_slot g) x = succ_of g x).
  { intros x. unfold succ_of; simpl. rewrite slot_snoc. case_decide; [|done].
    rewrite slot_ge by lia. done. }
  assert (Hp : ∀ y, pred_of (push_slot g) y = pred_of g y).
  { intros y. unfold pred_of; simpl. rewrite slot_snoc. case_decide; [|done].
    rewrite slot_ge by lia. done. }
  split; simpl.
  - rewrite !length_app; simpl; lia.
  - rewrite !length_app; simpl; lia.
  - intros x y. rewrite Hs. intros ?%(wf_range g Hwf).
    rewrite length_app; simpl; lia.
  - intros x y. rewrite Hs, Hp. by apply (wf_sym g Hwf).
Qed.

Lemma wf_iter_push_slot k g : wf g → wf (Nat.iter k push_slot g).
Proof. induction k; simpl; auto using wf_push_slot. Qed.

(** Marking slots and changing the free-list touches no edge. *)
Lemma wf_same_edges g g' :
  wf g → _succs g' = _succs g → _preds g' = _preds g →
  length (is_free g') = length (is_free g) → wf g'.
Proof.
  intros Hwf Hs Hp Hl. split.
  - rewrite Hs, Hl. by apply wf_succs.
  - rewrite Hp, Hl. by apply wf_preds.
  - intros x y. unfold succ_of. rewrite Hs, Hl. by apply wf_range.
  - intros x y. unfold succ_of, pred_of. rewrite Hs, Hp.
    by apply (wf_sym g Hwf).
Qed.

End wf_kept.

(** ** [forget] in closed form *)

Section forget_facts.
Context {Wt : Type}.
Implicit Types (g : @PtGraph Wt) (x y v s d : vert_id) (w : Wt).

(** The predecessors of [v] that the second loop of [forget] visits: the
    first loop has removed [v] itself if [v] had a self-loop. *)
Definition preds_after_first_loop g v : gset vert_id :=
  default ∅
    (alter_all (λ p, p ∖ {[v]}) (ascending (dom (succ_of g v))) (_preds g)
     !! v).

(** The state [forget] leaves for a live vertex. *)
Definition forget_result g v : PtGraph :=
  let m := succ_of g v in
  let p' := preds_after_first_loop g v in
  {| edge_count :=
       uint32 (uint32 (edge_count g - Z.of_nat (size m)) - Z.of_nat (size p'));
     _succs :=
       alter_all (delete v) (ascending p') (alter (λ _, ∅) v (_succs g));
     _preds :=
       alter (λ _, ∅) v
         (alter_all (λ p, p ∖ {[v]}) (ascending (dom m)) (_preds g));
     is_free := <[v:=true]> (is_free g);
     free_id := v :: free_id g |}.

Lemma preds_after_first_loop_eq g v :
  wf g → preds_after_first_loop g v = pred_of g v ∖ {[v]}.
Proof.
  intros Hwf. unfold preds_after_first_loop.
  rewrite slot_alter_all.
  - fold (pred_of g v). case_decide as Hv; [done|].
    rewrite elem_of_ascending, (wf_edge g v v Hwf) in Hv. set_solver.
  - apply NoDup_ascending.
  - intros d Hd%elem_of_ascending. rewrite (wf_preds g Hwf).
    by eapply wf_range.
Qed.

Lemma forget_free g v :
  v < length (_succs g) → is_free g !! v = Some true → forget g v = Ok g.
Proof.
  intros Hv Hf. unfold forget.
  rewrite bool_decide_eq_true_2 by done; simpl.
  by rewrite (vec_at_lookup _ _ _ Hf).
Qed.

Lemma forget_out_of_range g v :
  length (_succs g) ≤ v → forget g v = AssertFail.
Proof.
  intros Hv. unfold forget. rewrite bool_decide_eq_false_2 by lia. done.
Qed.

Lemma forget_live g v :
  wf g → live g v → forget g v = Ok (forget_result g v).
Proof.
  intros Hwf Hlive.
  pose proof (wf_succs g Hwf) as Hls. pose proof (wf_preds g Hwf) as Hlp.
  assert (Hv : v < length (is_free g)) by eauto using lookup_lt_Some.
  destruct (lookup_lt_is_Some_2 (_succs g) v) as [m Hm]; [lia|].
  assert (Hsm : succ_of g v = m) by (unfold succ_of; by rewrite Hm).
  unfold forget. rewrite bool_decide_eq_true_2 by lia; simpl.
  rewrite (vec_at_lookup _ _ _ Hlive); simpl.
  rewrite vec_set_lt by done; simpl.
  unfold succs_size at 1; simpl. rewrite (vec_at_lookup _ _ _ Hm); simpl.
  unfold succs at 1; simpl. rewrite (vec_at_lookup _ _ _ Hm); simpl.
  rewrite for_each_preds_remove; simpl.
  2:{ intros d Hd%elem_of_ascending. rewrite Hlp. eapply (wf_range g Hwf v).
      by rewrite Hsm. }
  rewrite succs_clear_eq; simpl. rewrite decide_True by lia; simpl.
  set (P1 := alter_all (λ p, p ∖ {[v]}) (ascending (dom m)) (_preds g)).
  assert (HlP1 : length P1 = length (is_free g)).
  { unfold P1. by rewrite length_alter_all. }
  destruct (lookup_lt_is_Some_2 P1 v) as [p' Hp']; [lia|].
  assert (Hpa : preds_after_first_loop g v = p').
  { unfold preds_after_first_loop. rewrite Hsm. fold P1. by rewrite Hp'. }
  unfold preds_size at 1; simpl. rewrite (vec_at_lookup _ _ _ Hp'); simpl.
  unfold preds at 1; simpl. rewrite (vec_at_lookup _ _ _ Hp'); simpl.
  rewrite for_each_succs_remove; simpl.
  2:{ intros q Hq%elem_of_ascending. rewrite length_alter, Hls.
      apply (wf_pred_range g q v Hwf).
      rewrite <- Hpa, preds_after_first_loop_eq in Hq by done. set_solver. }
  rewrite preds_clear_eq; simpl. rewrite decide_True by lia; simpl.
  unfold forget_result. rewrite Hpa, Hsm. done.
Qed.

Lemma succ_of_forget g v x :
  wf g → v < length (is_free g) →
  succ_of (forget_result g v) x
  = if decide (x = v) then ∅ else delete v (succ_of g x).
Proof.
  intros Hwf Hv.
  pose proof (wf_succs g Hwf) as Hls.
  unfold succ_of at 1; simpl. rewrite slot_alter_all.
  - rewrite slot_alter by lia. fold (succ_of g x).
    rewrite preds_after_first_loop_eq by done.
    destruct (decide (x = v)) as [->|Hx].
    + rewrite (decide_True (P := v = v)) by done.
      case_decide; [apply delete_empty | done].
    + rewrite (decide_False (P := v = x)) by done.
      case_decide as Hin; [done|]. rewrite elem_of_ascending in Hin.
      symmetry. apply delete_id. apply not_elem_of_dom.
      rewrite (wf_edge g x v Hwf). set_solver.
  - apply NoDup_ascending.
  - intros q Hq%elem_of_ascending. rewrite length_alter, Hls.
    apply (wf_pred_range g q v Hwf).
    rewrite preds_after_first_loop_eq in Hq by done. set_solver.
Qed.

Lemma pred_of_forget g v y :
  wf g → v < length (is_free g) →
  pred_of (forget_result g v) y
  = if decide (y = v) then ∅ else pred_of g y ∖ {[v]}.
Proof.
  intros Hwf Hv.
  pose proof (wf_preds g Hwf) as Hlp.
  unfold pred_of at 1; simpl.
  rewrite slot_alter by (rewrite length_alter_all; lia).
  destruct (decide (y = v)) as [->|Hy].
  - by rewrite decide_True.
  - rewrite (decide_False (P := v = y)) by done. rewrite slot_alter_all.
    + fold (pred_of g y). case_decide as Hin; [done|].
      rewrite elem_of_ascending, (wf_edge g v y Hwf) in Hin. set_solver.
    + apply NoDup_ascending.
    + intros d Hd%elem_of_ascending. rewrite Hlp. by eapply wf_range.
Qed.

Lemma wf_forget g v :
  wf g → v < length (is_free g) → wf (forget_result g v).
Proof.
  intros Hwf Hv. split.
  - simpl. rewrite length_alter_all, length_alter, length_insert.
    by apply wf_succs.
  - simpl. rewrite length_alter, length_alter_all, length_insert.
    by apply wf_preds.
  - intros x y. rewrite succ_of_forget by done. simpl.
    rewrite length_insert. case_decide; [set_solver|].
    rewrite dom_delete_L. intros Hy. apply (wf_range g Hwf x). set_solver.
  - intros x y. rewrite succ_of_forget, pred_of_forget by done.
    pose proof (wf_sym g Hwf x y).
    repeat case_decide; subst; rewrite ?dom_delete_L; set_solver.
Qed.

End forget_facts.

(** ** Sequences of calls *)

Section runs.
Context {Wt : Type}.
Implicit Types (g : @PtGraph Wt) (x y v s d : vert_id) (w : Wt).

(** A call of one of the mutating member functions.  [new_vertex] and
    [growTo] are among them: a graph made by [PtGraph()] has no slot, and
    every edge operation needs allocated slots. *)
Inductive op : Type :=
| NewVertex
| GrowTo (new_sz : nat)
| Forget (v : vert_id)
| AddEdge (x : vert_id) (wt : Wt) (y : vert_id)
| SetEdge (s : vert_id) (w : Wt) (d : vert_id)
| UpdateEdge (s : vert_id) (w : Wt) (d : vert_id) (o : @MergeOp Wt).

Definition step g (o : op) : outcome PtGraph :=
  match o with
  | NewVertex => r ← new_vertex g; Ok r.2
  | GrowTo n => growTo g n
  | Forget v => forget g v
  | AddEdge x w y => add_edge g x w y
  | SetEdge s w d => set_edge g s w d
  | UpdateEdge s w d o => update_edge g s w d o
  end.

(** The calls of [ops] made one after the other on [g]. *)
Definition run (ops : list op) g : outcome PtGraph :=
  for_each ops (λ o g, step g o) g.

Lemma run_app ops1 ops2 g :
  run (ops1 ++ ops2) g = (g' ← run ops1 g; run ops2 g').
Proof.
  revert g; induction ops1 as [|o ops1 IH]; intros g; simpl; [done|].
  unfold run in *; simpl. destruct (step g o); simpl; auto.
Qed.

Lemma new_vertex_pop g v rest :
  free_id g = v :: rest → v < length (_succs g) → v < length (is_free g) →
  new_vertex g
  = Ok (v, set_is_free (set_free_id g rest) (<[v:=false]> (is_free g))).
Proof.
  intros Hf Hv Hv'. unfold new_vertex. rewrite Hf.
  rewrite bool_decide_eq_true_2 by done; simpl.
  by rewrite vec_set_lt.
Qed.

Lemma new_vertex_push g :
  free_id g = [] →
  new_vertex g
  = Ok (Z.to_nat (uint32 (Z.of_nat (length (is_free g)))), push_slot g).
Proof. intros Hf. unfold new_vertex. by rewrite Hf. Qed.

Lemma wf_new_vertex g v g' : wf g → new_vertex g = Ok (v, g') → wf g'.
Proof.
  intros Hwf. destruct (free_id g) as [|u rest] eqn:Hf.
  - rewrite new_vertex_push by done. intros [= _ <-]. by apply wf_push_slot.
  - unfold new_vertex. rewrite Hf.
    intros (_ & _ & (f & Hset & [= _ <-])%bind_Ok)%bind_Ok.
    unfold vec_set in Hset. case_decide; [|done]. injection Hset as <-.
    apply (wf_same_edges g); simpl; auto using length_insert.
Qed.

Lemma wf_growTo g n g' : wf g → growTo g n = Ok g' → wf g'.
Proof.
  intros Hwf. unfold growTo.
  intros (_ & _ & [= <-])%bind_Ok. by apply wf_iter_push_slot.
Qed.

Lemma wf_forget_Ok g v g' : wf g → forget g v = Ok g' → wf g'.
Proof.
  intros Hwf. pose proof (wf_succs g Hwf) as Hls.
  destruct (decide (v < length (_succs g))) as [Hv|Hv].
  - destruct (lookup_lt_is_Some_2 (is_free g) v) as [[] Hb]; [lia| |].
    + rewrite forget_free by done. by intros [= <-].
    + rewrite forget_live by done. intros [= <-]. apply wf_forget; [done|lia].
  - rewrite forget_out_of_range by lia. done.
Qed.

Lemma wf_add_edge_Ok g x w y g' : wf g → add_edge g x w y = Ok g' → wf g'.
Proof.
  intros Hwf. pose proof (wf_succs g Hwf). pose proof (wf_preds g Hwf).
  rewrite add_edge_eq. repeat case_decide; try done.
  intros [= <-]. apply wf_add_edge; [done|lia..].
Qed.

Lemma wf_set_edge_Ok g s w d g' : wf g → set_edge g s w d = Ok g' → wf g'.
Proof.
  intros Hwf. pose proof (wf_succs g Hwf).
  rewrite set_edge_eq. repeat case_decide; try done.
  - intros [= <-]. apply wf_overwrite; [done|lia|done].
  - by apply wf_add_edge_Ok.
Qed.

Lemma wf_update_edge_Ok g s w d o g' :
  wf g → update_edge g s w d o = Ok g' → wf g'.
Proof.
  intros Hwf. pose proof (wf_succs g Hwf).
  rewrite update_edge_eq. case_decide; [|done].
  destruct (succ_of g s !! d) as [cur|] eqn:Hd.
  - intros [= <-]. apply wf_overwrite; [done|lia|].
    apply elem_of_dom; eauto.
  - destruct (default_is_absorbing o).
    + by intros [= <-].
    + by apply wf_add_edge_Ok.
Qed.

Lemma wf_step g o g' : wf g → step g o = Ok g' → wf g'.
Proof.
  intros Hwf. destruct o; simpl.
  - intros ([v g1] & Hn & [= <-])%bind_Ok. by eapply wf_new_vertex.
  - by apply wf_growTo.
  - by apply wf_forget_Ok.
  - by apply wf_add_edge_Ok.
  - by apply wf_set_edge_Ok.
  - by apply wf_update_edge_Ok.
Qed.

Lemma wf_run ops g g' : wf g → run ops g = Ok g' → wf g'.
Proof.
  revert g; induction ops as [|o ops IH]; intros g Hwf; simpl.
  - by intros [= <-].
  - intros (g1 & Hstep & Hrun)%bind_Ok. eauto using wf_step.
Qed.

End runs.

(** ** Arithmetic on [unsigned int] *)

Lemma uint32_add_l a b : uint32 (uint32 a + b) = uint32 (a + b).
Proof. unfold uint32. by rewrite Z.add_mod_idemp_l. Qed.

Lemma uint32_sub_l a b : uint32 (uint32 a - b) = uint32 (a - b).
Proof. unfold uint32. by rewrite Zminus_mod_idemp_l. Qed.

Lemma uint32_small a : (0 ≤ a < 2 ^ 32)%Z → uint32 a = a.
Proof. unfold uint32. apply Z.mod_small. Qed.

(** ** Vertex iteration *)

Section iteration.
Context {Wt : Type}.
Implicit Types (g : @PtGraph Wt) (fr : list bool) (v e k : nat).

(** [operator!=] stops at the first slot from [v] on that is not free, or
    at the end marker; the slots it passes are free. *)
Lemma skip_free_filter fr k v :
  v + k ≤ length fr → (Z.of_nat (v + k) < 2 ^ 32)%Z →
  ∃ v', skip_free fr k v = Ok v' ∧ v ≤ v' ≤ v + k ∧
    filter (λ i, fr !! i = Some false) (seq v k)
    = filter (λ i, fr !! i = Some false) (seq v' (v + k - v')) ∧
    (v' < v + k → fr !! v' = Some false).
Proof.
  revert v; induction k as [|k IH]; intros v Hk Hlt.
  - exists v; simpl. repeat split; try lia. by rewrite Nat.add_0_r, Nat.sub_diag.
  - destruct (lookup_lt_is_Some_2 fr v) as [b Hb]; [lia|].
    simpl. rewrite (vec_at_lookup _ _ _ Hb); simpl. destruct b.
    + rewrite vert_iterator_incr_small by lia.
      destruct (IH (S v)) as (v' & Hs & Hle & Hfil & Hlive); [lia..|].
      exists v'. rewrite Hs. repeat split; try lia.
      * rewrite filter_cons_False by (rewrite Hb; congruence).
        rewrite Hfil. do 2 f_equal. lia.
      * intros ?. apply Hlive. lia.
    + exists v. repeat split; try lia; [|done].
      replace (v + S k - v) with (S k) by lia. done.
Qed.

Lemma vert_iterator_neq_spec fr v e :
  e ≤ length fr → (Z.of_nat e < 2 ^ 32)%Z →
  ∃ v', vert_iterator_neq fr v e = Ok (v', bool_decide (v' < e)) ∧ v ≤ v' ∧
    filter (λ i, fr !! i = Some false) (seq v (e - v))
    = filter (λ i, fr !! i = Some false) (seq v' (e - v')) ∧
    (v' < e → fr !! v' = Some false).
Proof.
  intros He Hlt. unfold vert_iterator_neq.
  destruct (decide (v ≤ e)) as [Hve|Hve].
  - destruct (skip_free_filter fr (e - v) v)
      as (u & Hs & Hle & Hfil & Hlive); [lia..|].
    exists u. rewrite Hs; simpl. repeat split; [lia| |].
    + rewrite Hfil. do 2 f_equal. lia.
    + intros ?. apply Hlive. lia.
  - exists v. replace (e - v) with 0 by lia. simpl.
    repeat split; [lia|]. intros ?. lia.
Qed.

(** The position of [end()] is at most the number of slots, and is that
    number below [2 ^ 32]. *)
Lemma vert_range_end_le fr : vert_range_end fr ≤ length fr.
Proof.
  unfold vert_range_end, vert_iterator, uint32.
  pose proof (Z.mod_le (Z.of_nat (length fr)) (2 ^ 32)) as Hle.
  pose proof (Z.mod_pos_bound (Z.of_nat (length fr)) (2 ^ 32)) as Hpos.
  lia.
Qed.

Lemma vert_range_end_small fr :
  (Z.of_nat (length fr) < 2 ^ 32)%Z → vert_range_end fr = length fr.
Proof.
  intros Hlt. unfold vert_range_end, vert_iterator.
  rewrite uint32_small by lia. apply Nat2Z.id.
Qed.

Lemma vert_range_end_wraps fr :
  Z.of_nat (length fr) = (2 ^ 32)%Z → vert_range_end fr = 0.
Proof. intros Hn. unfold vert_range_end, vert_iterator. by rewrite Hn. Qed.

Lemma verts_from_eq fr v :
  verts_from fr v
  = Ok (filter (λ i, fr !! i = Some false)
          (seq v (vert_range_end fr - v))).
Proof.
  pose proof (vert_range_end_le fr) as He.
  pose proof (vert_iterator_lt (length fr)) as Hlt.
  fold (vert_range_end fr) in Hlt.
  funelim (verts_from fr v);
    match goal with H1 : sigmaI _ _ _ = _ |- _ => clear H1 end;
    try clear Heqcall;
    destruct (vert_iterator_neq_spec fr v (vert_range_end fr) He Hlt)
      as (u & Hneq & Hle & Hfil & Hlive);
    rewrite Hneq in H; try discriminate; injection H as <- Hb.
  - apply bool_decide_eq_true in Hb.
    rewrite H0 by done; simpl. unfold vert_iterator_deref.
    rewrite vert_iterator_incr_small by lia.
    rewrite Hfil.
    replace (vert_range_end fr - u) with (S (vert_range_end fr - S u)) by lia.
    simpl. rewrite filter_cons_True by (apply Hlive; lia). done.
  - apply bool_decide_eq_false in Hb.
    rewrite Hfil. replace (vert_range_end fr - u) with 0 by lia. done.
Qed.

Lemma verts_walked g : verts g = Ok (walked_verts g).
Proof.
  unfold verts, walked_verts, vert_range_begin.
  change (vert_iterator 0) with 0.
  by rewrite verts_from_eq, Nat.sub_0_r.
Qed.

Lemma walked_verts_live g :
  (Z.of_nat (length (is_free g)) < 2 ^ 32)%Z → walked_verts g = live_verts g.
Proof.
  intros Hlt. unfold walked_verts, live_verts.
  by rewrite vert_range_end_small.
Qed.

Lemma verts_eq g :
  (Z.of_nat (length (is_free g)) < 2 ^ 32)%Z → verts g = Ok (live_verts g).
Proof. intros Hlt. by rewrite verts_walked, walked_verts_live. Qed.

(** With [2 ^ 32] slots the position of [end()] is that of [begin()]: the
    loop ends before its first round. *)
Lemma verts_of_2_32_slots g :
  Z.of_nat (length (is_free g)) = (2 ^ 32)%Z → verts g = Ok [].
Proof.
  intros Hn. rewrite verts_walked. unfold walked_verts.
  by rewrite vert_range_end_wraps.
Qed.

Lemma elem_of_walked_verts g v :
  v ∈ walked_verts g ↔ live g v ∧ v < vert_range_end (is_free g).
Proof.
  unfold walked_verts, live. rewrite list_elem_of_filter, elem_of_seq.
  split; [intros [? ?]; split; [done|lia] | intros [? ?]; split; [done|lia]].
Qed.

Lemma NoDup_live_verts g : NoDup (live_verts g).
Proof. apply NoDup_filter, NoDup_seq. Qed.

Lemma elem_of_live_verts g v : v ∈ live_verts g ↔ live g v.
Proof.
  unfold live_verts, live.
  rewrite list_elem_of_filter, elem_of_seq. split; [by intros [? _]|].
  intros Hv. split; [done|]. apply lookup_lt_Some in Hv. lia.
Qed.

Lemma NoDup_walked_verts g : NoDup (walked_verts g).
Proof. apply NoDup_filter, NoDup_seq. Qed.

Lemma filter_seq_sorted (P : nat → Prop) `{∀ v, Decision (P v)} a n :
  StronglySorted lt (filter P (seq a n)).
Proof.
  revert a; induction n as [|n IH]; intros a; simpl; [constructor|].
  assert (Hall : Forall (lt a) (filter P (seq (S a) n))).
  { apply Forall_forall. intros x [_ Hx%elem_of_seq]%list_elem_of_filter. lia. }
  rewrite filter_cons. case_decide; [constructor|]; auto.
Qed.

Lemma live_verts_sorted g : StronglySorted lt (live_verts g).
Proof. apply filter_seq_sorted. Qed.

Lemma walked_verts_sorted g : StronglySorted lt (walked_verts g).
Proof. apply filter_seq_sorted. Qed.

End iteration.

(** ** Counting edges *)

Lemma sum_list_with_ext_in {A} (f h : A → nat) (l : list A) :
  (∀ x, x ∈ l → f x = h x) → sum_list_with f l = sum_list_with h l.
Proof.
  induction l as [|a l IH]; intros Hx; simpl; [done|].
  rewrite (Hx a), IH; [done| |]; set_solver.
Qed.

Lemma sum_list_with_filter {A} (f : A → nat) (P : A → Prop)
    `{∀ x, Decision (P x)} (l : list A) :
  (∀ x, x ∈ l → ¬ P x → f x = 0) →
  sum_list_with f (filter P l) = sum_list_with f l.
Proof.
  induction l as [|a l IH]; intros Hx; [done|].
  rewrite filter_cons. case_decide as Ha; simpl.
  - rewrite IH; [done|]. intros; apply Hx; set_solver.
  - rewrite IH, (Hx a); [done|set_solver|done|]. intros; apply Hx; set_solver.
Qed.

(** The sum over a vector is the sum over its indices. *)
Lemma sum_list_with_slots {A} `{Empty A} (sz : A → nat) (l : list A) :
  sum_list_with sz l
  = sum_list_with (λ i, sz (default ∅ (l !! i))) (seq 0 (length l)).
Proof.
  induction l as [|a l IH] using rev_ind; [done|].
  rewrite length_app; simpl. rewrite Nat.add_1_r, seq_S; simpl.
  rewrite !sum_list_with_app; simpl.
  rewrite lookup_app_r, Nat.sub_diag by lia; simpl.
  rewrite IH. f_equal. apply sum_list_with_ext_in.
  intros i Hi%elem_of_seq. rewrite lookup_app_l by lia. done.
Qed.

Section counting.
Context {Wt : Type}.
Implicit Types (g : @PtGraph Wt) (x y v s d : vert_id) (w : Wt).

(** The sums of I2 over all the slots. *)
Definition succ_sum g : nat := sum_list_with size (_succs g).
Definition pred_sum g : nat := sum_list_with size (_preds g).

(** I2, together with what it rests on.  [edge_count] is an
    [unsigned int]: it holds the number of edges modulo [2 ^ 32]. *)
Record counted g : Prop := mk_counted {
  cnt_wf : wf g;
  cnt_free : free_slots_empty g;
  cnt_edges : edge_count g = uint32 (Z.of_nat (succ_sum g));
  cnt_sym : succ_sum g = pred_sum g
}.

Lemma live_succ_sum_eq g :
  wf g → free_slots_empty g → live_succ_sum g = succ_sum g.
Proof.
  intros Hwf Hfree. unfold live_succ_sum, succ_sum, live_verts.
  rewrite (sum_list_with_slots size (_succs g)), (wf_succs g Hwf).
  apply sum_list_with_filter. intros v Hv%elem_of_seq Hnl.
  destruct (lookup_lt_is_Some_2 (is_free g) v) as [[] Hb]; [lia| |done].
  destruct (Hfree v Hb) as [Hs _]. unfold succ_of in Hs. rewrite Hs.
  apply map_size_empty.
Qed.

Lemma live_pred_sum_eq g :
  wf g → free_slots_empty g → live_pred_sum g = pred_sum g.
Proof.
  intros Hwf Hfree. unfold live_pred_sum, pred_sum, live_verts.
  rewrite (sum_list_with_slots size (_preds g)), (wf_preds g Hwf).
  apply sum_list_with_filter. intros v Hv%elem_of_seq Hnl.
  destruct (lookup_lt_is_Some_2 (is_free g) v) as [[] Hb]; [lia| |done].
  destruct (Hfree v Hb) as [_ Hp]. unfold pred_of in Hp. rewrite Hp.
  apply size_empty.
Qed.

Lemma succ_of_lookup g x : x < length (_succs g) → _succs g !! x = Some (succ_of g x).
Proof.
  intros Hx. unfold succ_of.
  by destruct (lookup_lt_is_Some_2 _ _ Hx) as [m ->].
Qed.

Lemma pred_of_lookup g y : y < length (_preds g) → _preds g !! y = Some (pred_of g y).
Proof.
  intros Hy. unfold pred_of.
  by destruct (lookup_lt_is_Some_2 _ _ Hy) as [p ->].
Qed.

(** What [forget] takes off the two sums. *)
Lemma succ_sum_forget g v :
  wf g → v < length (is_free g) →
  succ_sum (forget_result g v) + size (succ_of g v)
    + size (preds_after_first_loop g v) = succ_sum g.
Proof.
  intros Hwf Hv. pose proof (wf_succs g Hwf) as Hls.
  unfold succ_sum; simpl.
  pose proof (sum_list_with_alter size (_succs g) v (λ _, ∅) _
                (succ_of_lookup g v ltac:(lia))) as H1.
  cbv beta in H1. rewrite map_size_empty in H1.
  assert (H2 :
    sum_list_with size
      (alter_all (delete v) (ascending (preds_after_first_loop g v))
         (alter (λ _, ∅) v (_succs g)))
    + length (ascending (preds_after_first_loop g v))
    = sum_list_with size (alter (λ _, ∅) v (_succs g))).
  { apply sum_list_with_alter_all; [apply NoDup_ascending|].
    intros q Hq%elem_of_ascending.
    rewrite preds_after_first_loop_eq in Hq by done.
    apply elem_of_difference in Hq as [Hq Hqv].
    rewrite elem_of_singleton in Hqv.
    exists (succ_of g q). split.
    - rewrite list_lookup_alter_ne by done. apply succ_of_lookup.
      rewrite Hls. by eapply wf_pred_range.
    - apply (wf_edge g q v Hwf), elem_of_dom in Hq.
      rewrite map_size_delete_Some by done.
      pose proof (map_size_ne_0_lookup_2 _ _ Hq). lia. }
  rewrite <- (length_ascending (preds_after_first_loop g v)).
  lia.
Qed.

Lemma pred_sum_forget g v :
  wf g → v < length (is_free g) →
  pred_sum (forget_result g v) + size (succ_of g v)
    + size (preds_after_first_loop g v) = pred_sum g.
Proof.
  intros Hwf Hv. pose proof (wf_preds g Hwf) as Hlp.
  unfold pred_sum; simpl.
  set (P1 := alter_all (λ p, p ∖ {[v]}) (ascending (dom (succ_of g v)))
               (_preds g)).
  assert (HP1 : P1 !! v = Some (preds_after_first_loop g v)).
  { unfold preds_after_first_loop. fold P1.
    destruct (lookup_lt_is_Some_2 P1 v) as [p ->]; [|done].
    unfold P1. rewrite length_alter_all. lia. }
  pose proof (sum_list_with_alter size P1 v (λ _, ∅) _ HP1) as H1.
  cbv beta in H1. rewrite size_empty in H1.
  assert (H2 : sum_list_with size P1
               + length (ascending (dom (succ_of g v)))
               = sum_list_with size (_preds g)).
  { apply sum_list_with_alter_all; [apply NoDup_ascending|].
    intros d Hd%elem_of_ascending.
    exists (pred_of g d). split.
    - apply pred_of_lookup. rewrite Hlp. by eapply wf_range.
    - apply (wf_edge g v d Hwf) in Hd.
      rewrite size_difference by set_solver. rewrite size_singleton.
      assert (size (pred_of g d) ≠ 0); [|lia].
      intros Hz%size_empty_inv. set_solver. }
  rewrite <- (size_dom (D := gset nat)).
  rewrite <- (length_ascending (dom (succ_of g v))).
  lia.
Qed.

End counting.

(** ** The count is kept by calls that respect the preconditions *)

Section counted_kept.
Context {Wt : Type}.
Implicit Types (g : @PtGraph Wt) (x y v s d : vert_id) (w : Wt).

Lemma counted_new : counted (@PtGraph_new Wt).
Proof. split; [apply wf_new | | done | done]. intros v; simpl. by rewrite lookup_nil. Qed.

Lemma counted_push_slot g : counted g → counted (push_slot g).
Proof.
  intros [Hwf Hfree Hcnt Hsym].
  pose proof (wf_succs g Hwf) as Hls. pose proof (wf_preds g Hwf) as Hlp.
  split.
  - by apply wf_push_slot.
  - intros v; simpl. intros Hv.
    apply lookup_snoc_Some in Hv as [[Hlt Hv]|[_ ?]]; [|done].
    destruct (Hfree v Hv) as [Hs Hp]. unfold succ_of, pred_of in *; simpl.
    rewrite !lookup_app_l by lia. done.
  - simpl. unfold succ_sum; simpl. rewrite sum_list_with_snoc, map_size_empty.
    rewrite Nat.add_0_r. exact Hcnt.
  - unfold succ_sum, pred_sum; simpl.
    rewrite !sum_list_with_snoc, map_size_empty, size_empty.
    unfold succ_sum, pred_sum in Hsym. lia.
Qed.

Lemma counted_same_edges g g' :
  counted g → wf g' → edge_count g' = edge_count g →
  _succs g' = _succs g → _preds g' = _preds g →
  (∀ v, is_free g' !! v = Some true → is_free g !! v = Some true) →
  counted g'.
Proof.
  intros [Hwf Hfree Hcnt Hsym] Hwf' He Hs Hp Hf. split; [done| | |].
  - intros v Hv%Hf. unfold succ_of, pred_of. rewrite Hs, Hp. by apply Hfree.
  - unfold succ_sum. by rewrite He, Hs.
  - unfold succ_sum, pred_sum. by rewrite Hs, Hp.
Qed.

Lemma counted_new_vertex g v g' :
  counted g → new_vertex g = Ok (v, g') → counted g'.
Proof.
  intros Hc Hn. pose proof (wf_new_vertex g v g' (cnt_wf g Hc) Hn) as Hwf'.
  revert Hn. destruct (free_id g) as [|u rest] eqn:Hf.
  - rewrite new_vertex_push by done. intros [= _ <-]. by apply counted_push_slot.
  - unfold new_vertex. rewrite Hf.
    intros (_ & _ & (f & Hset & [= _ <-])%bind_Ok)%bind_Ok.
    unfold vec_set in Hset. case_decide; [|done]. injection Hset as <-.
    apply (counted_same_edges g); simpl; try done.
    intros z. destruct (decide (u = z)) as [<-|Hne].
    + rewrite list_lookup_insert_eq by done. done.
    + by rewrite list_lookup_insert_ne.
Qed.

Lemma counted_growTo g n g' : counted g → growTo g n = Ok g' → counted g'.
Proof.
  intros Hc. unfold growTo. intros (_ & _ & [= <-])%bind_Ok.
  induction (n - length (is_free g)); simpl; auto using counted_push_slot.
Qed.

Lemma counted_forget g v : counted g → live g v → counted (forget_result g v).
Proof.
  intros [Hwf Hfree Hcnt Hsym] Hlive.
  assert (Hv : v < length (is_free g)) by eauto using lookup_lt_Some.
  pose proof (succ_sum_forget g v Hwf Hv) as Hs.
  pose proof (pred_sum_forget g v Hwf Hv) as Hp.
  split.
  - by apply wf_forget.
  - intros u Hu. rewrite succ_of_forget, pred_of_forget by done.
    case_decide as Huv; [done|].
    simpl in Hu. rewrite list_lookup_insert_ne in Hu by done.
    destruct (Hfree u Hu) as [-> ->]. split; [apply delete_empty|set_solver].
  - simpl. rewrite Hcnt, uint32_sub_l, <- Z.sub_add_distr, uint32_sub_l.
    f_equal. lia.
  - lia.
Qed.

Lemma counted_forget_Ok g v g' : counted g → forget g v = Ok g' → counted g'.
Proof.
  intros Hc. pose proof (wf_succs g (cnt_wf g Hc)) as Hls.
  destruct (decide (v < length (_succs g))) as [Hv|Hv].
  - destruct (lookup_lt_is_Some_2 (is_free g) v) as [[] Hb]; [lia| |].
    + rewrite forget_free by done. by intros [= <-].
    + rewrite forget_live by (done || apply Hc). intros [= <-].
      by apply counted_forget.
  - rewrite forget_out_of_range by lia. done.
Qed.

Lemma counted_add_edge g x w y :
  counted g → live g x → live g y → y ∉ dom (succ_of g x) →
  counted (add_edge_result g x w y).
Proof.
  intros [Hwf Hfree Hcnt Hsym] Hx Hy Hxy.
  pose proof (wf_succs g Hwf) as Hls. pose proof (wf_preds g Hwf) as Hlp.
  assert (Hxl : x < length (is_free g)) by eauto using lookup_lt_Some.
  assert (Hyl : y < length (is_free g)) by eauto using lookup_lt_Some.
  assert (Hs : succ_sum (add_edge_result g x w y) = S (succ_sum g)).
  { unfold succ_sum; simpl.
    pose proof (sum_list_with_alter size (_succs g) x (<[y:=w]>) _
                  (succ_of_lookup g x ltac:(lia))) as H1.
    rewrite map_size_insert_None in H1 by by apply not_elem_of_dom. lia. }
  assert (Hp : pred_sum (add_edge_result g x w y) = S (pred_sum g)).
  { unfold pred_sum; simpl.
    pose proof (sum_list_with_alter size (_preds g) y (λ p, {[x]} ∪ p) _
                  (pred_of_lookup g y ltac:(lia))) as H1.
    cbv beta in H1. rewrite size_union, size_singleton in H1; [lia|].
    rewrite (wf_edge g x y Hwf) in Hxy. set_solver. }
  split.
  - by apply wf_add_edge.
  - intros u Hu. simpl in Hu.
    rewrite succ_of_add_edge, pred_of_add_edge by lia.
    rewrite !decide_False by (intros ->; unfold live in *; congruence).
    by apply Hfree.
  - simpl. rewrite Hs, Hcnt, uint32_add_l. f_equal. lia.
  - lia.
Qed.

Lemma counted_overwrite g s w d :
  counted g → live g s → d ∈ dom (succ_of g s) →
  counted (overwrite_result g s w d).
Proof.
  intros [Hwf Hfree Hcnt Hsym] Hs Hd.
  pose proof (wf_succs g Hwf) as Hls.
  assert (Hsl : s < length (is_free g)) by eauto using lookup_lt_Some.
  assert (Hsum : succ_sum (overwrite_result g s w d) = succ_sum g).
  { unfold succ_sum; simpl.
    pose proof (sum_list_with_alter size (_succs g) s (<[d:=w]>) _
                  (succ_of_lookup g s ltac:(lia))) as H1.
    rewrite map_size_insert_Some in H1 by by apply elem_of_dom. lia. }
  split.
  - by apply wf_overwrite.
  - intros u Hu. simpl in Hu. rewrite succ_of_overwrite by lia.
    rewrite decide_False by (intros ->; unfold live in *; congruence).
    by apply Hfree.
  - simpl. rewrite Hsum. exact Hcnt.
  - rewrite Hsum. exact Hsym.
Qed.

End counted_kept.

(** ** Calls that respect the preconditions *)

Section preconditions.
Context {Wt : Type}.
Implicit Types (g : @PtGraph Wt) (x y v s d : vert_id) (w : Wt).

Definition is_live g v : bool := bool_decide (is_free g !! v = Some false).

(** What the callers owe: [add_edge] is for an edge that is not there
    ("Assumption: (x, y) not in mtx"), and a forgotten vertex is not the
    end of an edge operation until [new_vertex] hands it out again. *)
Definition op_pre g (o : @op Wt) : bool :=
  match o with
  | AddEdge x _ y =>
      is_live g x && is_live g y && bool_decide (y ∉ dom (succ_of g x))
  | SetEdge s _ d | UpdateEdge s _ d _ => is_live g s && is_live g d
  | NewVertex | GrowTo _ | Forget _ => true
  end.

(** Every call of [ops], made in turn on [g], meets its precondition. *)
Fixpoint respects_pre (ops : list (@op Wt)) g : bool :=
  match ops with
  | [] => true
  | o :: ops' =>
      op_pre g o &&
      match step g o with
      | Ok g' => respects_pre ops' g'
      | _ => true
      end
  end.

Lemma respects_pre_app ops1 ops2 g :
  respects_pre (ops1 ++ ops2) g = true → respects_pre ops1 g = true.
Proof.
  revert g; induction ops1 as [|o ops1 IH]; intros g; simpl; [done|].
  intros [Hp Hr]%andb_true_iff. rewrite Hp; simpl.
  destruct (step g o); auto.
Qed.

Lemma is_live_true g v : is_live g v = true → live g v.
Proof. apply bool_decide_eq_true. Qed.

Lemma counted_add_edge_Ok g x w y g' :
  counted g → live g x → live g y → y ∉ dom (succ_of g x) →
  add_edge g x w y = Ok g' → counted g'.
Proof.
  intros Hc Hx Hy Hxy. rewrite add_edge_eq.
  repeat case_decide; try done. intros [= <-]. by apply counted_add_edge.
Qed.

Lemma counted_step g o g' :
  counted g → op_pre g o = true → step g o = Ok g' → counted g'.
Proof.
  intros Hc. destruct o as [|n|v|x w y|s w d|s w d o]; simpl.
  - intros _ ([v g1] & Hn & [= <-])%bind_Ok. by eapply counted_new_vertex.
  - intros _. by apply counted_growTo.
  - intros _. by apply counted_forget_Ok.
  - intros [[Hx%is_live_true Hy%is_live_true]%andb_true_iff
            Hxy%bool_decide_eq_true]%andb_true_iff.
    by apply counted_add_edge_Ok.
  - intros [Hs%is_live_true Hd%is_live_true]%andb_true_iff.
    rewrite set_edge_eq. repeat case_decide; try done.
    + intros [= <-]. by apply counted_overwrite.
    + by apply counted_add_edge_Ok.
  - intros [Hs%is_live_true Hd%is_live_true]%andb_true_iff.
    rewrite update_edge_eq. case_decide; [|done].
    destruct (succ_of g s !! d) as [cur|] eqn:Hsd.
    + intros [= <-]. apply counted_overwrite; [done..|].
      apply elem_of_dom; eauto.
    + destruct (default_is_absorbing o); [by intros [= <-]|].
      apply counted_add_edge_Ok; [done..|]. by apply not_elem_of_dom.
Qed.

Lemma counted_run ops g g' :
  counted g → respects_pre ops g = true → run ops g = Ok g' → counted g'.
Proof.
  revert g; induction ops as [|o ops IH]; intros g Hc; simpl.
  - by intros _ [= <-].
  - intros [Hp Hr]%andb_true_iff (g1 & Hstep & Hrun)%bind_Ok.
    rewrite Hstep in Hr. eauto using counted_step.
Qed.

End preconditions.

(** ** Symmetry and count consistency *)

(** C1.  Symmetry: whatever calls of [new_vertex], [growTo], [forget],
    [add_edge], [set_edge] and [update_edge] are made one after the other
    on a graph fresh from [PtGraph()], after every one of them the two
    views agree: [y] is a successor of [x] exactly when [x] is a
    predecessor of [y].  (As long as the calls return: the sequence stops
    at a failed [assert] or at an access outside a vector.) *)
Theorem symmetry_after_every_operation {Wt : Type}
    (ops1 ops2 : list (@op Wt)) (g : @PtGraph Wt) :
  run (ops1 ++ ops2) PtGraph_new = Ok g →
  ∃ g1, run ops1 PtGraph_new = Ok g1 ∧ I1 g1.
Proof.
  rewrite run_app. intros (g1 & Hrun & _)%bind_Ok.
  exists g1. split; [done|].
  apply wf_sym. eapply wf_run; [apply wf_new | done].
Qed.

(** C2.  Count consistency: whatever calls are made one after the
    other on a graph fresh from [PtGraph()], each within its
    precondition ([add_edge] for an edge that is not there, no edge
    operation on a forgotten vertex), after every one of them
    [edge_count] is the sum of the sizes of the successor maps of the
    live vertices (as an [unsigned int], so modulo [2 ^ 32], and exactly
    while there are fewer edges than that), and that sum is the sum of
    the sizes of the predecessor sets. *)
Theorem count_consistency_after_every_operation {Wt : Type}
    (ops1 ops2 : list (@op Wt)) (g : @PtGraph Wt) :
  respects_pre (ops1 ++ ops2) PtGraph_new = true →
  run (ops1 ++ ops2) PtGraph_new = Ok g →
  ∃ g1, run ops1 PtGraph_new = Ok g1 ∧
    edge_count g1 = uint32 (Z.of_nat (live_succ_sum g1)) ∧
    ((Z.of_nat (live_succ_sum g1) < 2 ^ 32)%Z →
     edge_count g1 = Z.of_nat (live_succ_sum g1)) ∧
    live_succ_sum g1 = live_pred_sum g1.
Proof.
  intros Hpre%respects_pre_app. rewrite run_app.
  intros (g1 & Hrun & _)%bind_Ok. exists g1. split; [done|].
  destruct (counted_run ops1 _ g1 counted_new Hpre Hrun)
    as [Hwf Hfree Hcnt Hsym].
  rewrite live_succ_sum_eq, live_pred_sum_eq by done.
  repeat split; [done| |done].
  intros Hlt. rewrite Hcnt. apply uint32_small. lia.
Qed.

(** ** A worked example

    The scenario of the three vertices 0, 1 and 2 with the edges
    [0 -> 1] and [1 -> 2], on weights in [Z]. *)

Definition min_op : @MergeOp Z :=
  {| apply := Z.min; default_is_absorbing := true |}.

Definition example_ops : list (@op Z) :=
  [NewVertex; NewVertex; NewVertex; AddEdge 0 5%Z 1; AddEdge 1 3%Z 2;
   SetEdge 0 7%Z 1; UpdateEdge 1 1%Z 2 min_op; Forget 1; NewVertex].

(** The state a sequence of calls leaves ([PtGraph()] if it fails). *)
Definition state_after (ops : list (@op Z)) : @PtGraph Z :=
  match run ops PtGraph_new with
  | Ok g => g
  | _ => PtGraph_new
  end.

Lemma symmetry_witness :
  ∃ g1, run example_ops PtGraph_new = Ok g1 ∧ I1 g1.
Proof.
  apply (symmetry_after_every_operation example_ops [] (state_after example_ops)).
  vm_compute. reflexivity.
Defined.

Lemma count_consistency_witness :
  ∃ g1, run example_ops PtGraph_new = Ok g1 ∧
    edge_count g1 = uint32 (Z.of_nat (live_succ_sum g1)) ∧
    ((Z.of_nat (live_succ_sum g1) < 2 ^ 32)%Z →
     edge_count g1 = Z.of_nat (live_succ_sum g1)) ∧
    live_succ_sum g1 = live_pred_sum g1.
Proof.
  apply (count_consistency_after_every_operation example_ops []
           (state_after example_ops)).
  - vm_compute. reflexivity.
  - vm_compute. reflexivity.
Defined.

(** What the precondition of [add_edge] is for: [add_edge] made twice
    for one edge counts it twice. *)
Lemma add_edge_twice_counts_twice :
  ∃ g : @PtGraph Z,
    run [NewVertex; NewVertex; AddEdge 0 5%Z 1; AddEdge 0 5%Z 1] PtGraph_new
    = Ok g ∧
    edge_count g = 2%Z ∧ live_succ_sum g = 1 ∧ live_pred_sum g = 1.
Proof.
  eexists. split; [vm_compute; reflexivity|].
  repeat split; vm_compute; reflexivity.
Qed.

(** What the precondition on forgotten vertices is for: the sums of I2
    run over the live slots, and an edge added from a forgotten slot is
    in [edge_count] and not in the sum of the successor maps. *)
Lemma count_needs_live_endpoints :
  ∃ g : @PtGraph Z,
    run [NewVertex; NewVertex; Forget 1; AddEdge 1 5%Z 0] PtGraph_new = Ok g ∧
    edge_count g = 1%Z ∧ live_succ_sum g = 0 ∧ live_pred_sum g = 1.
Proof.
  eexists. split; [vm_compute; reflexivity|].
  repeat split; vm_compute; reflexivity.
Qed.

(** ** Forgetting a vertex *)

Section forget_claims.
Context {Wt : Type}.
Implicit Types (g : @PtGraph Wt) (x y v s d : vert_id) (w : Wt).

Lemma succs_size_eq g v :
  v < length (_succs g) → succs_size g v = Ok (Z.of_nat (size (succ_of g v))).
Proof.
  intros Hv. unfold succs_size.
  by rewrite (vec_at_lookup _ _ _ (succ_of_lookup g v Hv)).
Qed.

Lemma preds_size_eq g v :
  v < length (_preds g) → preds_size g v = Ok (Z.of_nat (size (pred_of g v))).
Proof.
  intros Hv. unfold preds_size.
  by rewrite (vec_at_lookup _ _ _ (pred_of_lookup g v Hv)).
Qed.

(** The second loop of [forget] sees the in-degree, less the self-loop. *)
Lemma size_preds_after_first_loop g v :
  wf g →
  Z.of_nat (size (preds_after_first_loop g v))
  = (Z.of_nat (size (pred_of g v))
     - if bool_decide (v ∈ dom (succ_of g v)) then 1 else 0)%Z.
Proof.
  intros Hwf. rewrite preds_after_first_loop_eq by done.
  case_bool_decide as Hv.
  - apply (wf_edge g v v Hwf) in Hv.
    rewrite size_difference, size_singleton by set_solver.
    assert (size (pred_of g v) ≠ 0); [|lia].
    intros Hz%size_empty_inv. set_solver.
  - rewrite (wf_edge g v v Hwf) in Hv.
    replace (pred_of g v ∖ {[v]}) with (pred_of g v) by set_solver. lia.
Qed.

(** C3, amended.  For a live vertex [v] with out-degree [d_out] and
    in-degree [d_in], [forget(v)] takes [d_out + d_in] off [edge_count],
    less one when [v] has an edge to itself (which is among the
    successors and among the predecessors, and is one edge); afterwards
    no edge leaves or enters [v].  Forgetting a vertex that is free
    already changes nothing. *)
Theorem forget_removes_incident_edges g v :
  (∀ d_out d_in (self : bool),
     wf g → live g v →
     succs_size g v = Ok d_out → preds_size g v = Ok d_in →
     elem g v v = Ok self →
     ∃ g', forget g v = Ok g' ∧
       edge_count g'
       = uint32 (edge_count g - (d_out + d_in - if self then 1 else 0)) ∧
       ((d_out + d_in - (if self then 1 else 0) ≤ edge_count g < 2 ^ 32)%Z →
        edge_count g'
        = (edge_count g - (d_out + d_in - if self then 1 else 0))%Z) ∧
       (∀ y, elem g' v y = Ok false) ∧
       (∀ x, x < length (is_free g) → elem g' x v = Ok false)) ∧
  (v < length (_succs g) → is_free g !! v = Some true → forget g v = Ok g).
Proof.
  split; [|apply forget_free].
  intros d_out d_in self Hwf Hlive Hout Hin Hself.
  pose proof (wf_succs g Hwf) as Hls. pose proof (wf_preds g Hwf) as Hlp.
  assert (Hv : v < length (is_free g)) by eauto using lookup_lt_Some.
  rewrite succs_size_eq in Hout by lia. injection Hout as <-.
  rewrite preds_size_eq in Hin by lia. injection Hin as <-.
  rewrite elem_eq, decide_True in Hself by lia. injection Hself as <-.
  exists (forget_result g v). rewrite forget_live by done.
  assert (Hec : edge_count (forget_result g v)
    = uint32 (edge_count g
        - (Z.of_nat (size (succ_of g v)) + Z.of_nat (size (pred_of g v))
           - if bool_decide (v ∈ dom (succ_of g v)) then 1 else 0))).
  { simpl. rewrite uint32_sub_l, size_preds_after_first_loop by done.
    f_equal. lia. }
  pose proof (wf_forget g v Hwf Hv) as Hwf'.
  pose proof (wf_succs _ Hwf') as Hls'.
  assert (Hlen : length (is_free (forget_result g v)) = length (is_free g))
    by (simpl; apply length_insert).
  split; [done|]. split; [exact Hec|]. split; [|split].
  - intros Hr. rewrite Hec. apply uint32_small.
    pose proof (size_preds_after_first_loop g v Hwf). lia.
  - intros y. rewrite elem_eq, decide_True by lia.
    rewrite succ_of_forget, decide_True by done.
    rewrite bool_decide_eq_false_2; [done|set_solver].
  - intros x Hx. rewrite elem_eq, decide_True by lia.
    rewrite succ_of_forget by done.
    rewrite bool_decide_eq_false_2; [done|].
    destruct (decide (x = v)); [rewrite dom_empty_L; apply not_elem_of_empty|].
    rewrite dom_delete_L. set_solver.
Qed.

End forget_claims.

Lemma forget_removes_incident_edges_witness :
  ∃ g', forget (state_after [NewVertex; NewVertex; NewVertex;
                              AddEdge 0 5%Z 1; AddEdge 1 3%Z 2]) 1 = Ok g' ∧
    edge_count g' = 0%Z ∧
    (∀ y, elem g' 1 y = Ok false) ∧
    (∀ x, x < 3 → elem g' x 1 = Ok false).
Proof.
  pose (g := state_after [NewVertex; NewVertex; NewVertex;
                          AddEdge 0 5%Z 1; AddEdge 1 3%Z 2]).
  assert (Hwf : wf g).
  { apply (wf_run [NewVertex; NewVertex; NewVertex;
                   AddEdge 0 5%Z 1; AddEdge 1 3%Z 2] PtGraph_new);
      [apply wf_new | vm_compute; reflexivity]. }
  destruct (proj1 (forget_removes_incident_edges g 1) 1%Z 1%Z false Hwf)
    as (g' & Hf & Hec & _ & Hout & Hin);
    [vm_compute; reflexivity..|].
  exists g'. split; [exact Hf|]. split; [|split; assumption].
  rewrite Hec. vm_compute. reflexivity.
Defined.

(** C3 as it is worded fails on a vertex with a self-loop: out-degree 1,
    in-degree 1, and [edge_count] drops by 1. *)
Lemma forget_removes_incident_edges_counterexample :
  ∃ g g' : @PtGraph Z,
    run [NewVertex; AddEdge 0 5%Z 0] PtGraph_new = Ok g ∧
    succs_size g 0 = Ok 1%Z ∧ preds_size g 0 = Ok 1%Z ∧
    forget g 0 = Ok g' ∧
    edge_count g = 1%Z ∧ edge_count g' = 0%Z ∧
    (edge_count g - edge_count g')%Z ≠ (1 + 1)%Z.
Proof.
  do 2 eexists. split; [vm_compute; reflexivity|].
  repeat split; try (vm_compute; reflexivity).
  vm_compute. discriminate.
Qed.

(** ** Setting and merging edges *)

Section edge_claims.
Context {Wt : Type}.
Implicit Types (g : @PtGraph Wt) (x y v s d : vert_id) (w : Wt).

Lemma elem_true g x y :
  elem g x y = Ok true →
  x < length (_succs g) ∧ y ∈ dom (succ_of g x).
Proof.
  rewrite elem_eq. case_decide; [|done]. intros [= Hb%bool_decide_eq_true].
  done.
Qed.

Lemma elem_false g x y :
  elem g x y = Ok false →
  x < length (_succs g) ∧ y ∉ dom (succ_of g x).
Proof.
  rewrite elem_eq. case_decide; [|done]. intros [= Hb%bool_decide_eq_false].
  done.
Qed.

Lemma edge_val_overwrite g s w d :
  s < length (_succs g) → edge_val (overwrite_result g s w d) s d = Ok w.
Proof.
  intros Hs. rewrite edge_val_eq; simpl. rewrite length_alter, decide_True by done.
  rewrite succ_of_overwrite, decide_True by done.
  by rewrite lookup_insert_eq.
Qed.

Lemma add_edge_adds g x w y :
  x < length (_succs g) → y < length (_preds g) →
  ∃ g', add_edge g x w y = Ok g' ∧
    elem g' x y = Ok true ∧ edge_val g' x y = Ok w ∧
    edge_count g' = uint32 (edge_count g + 1).
Proof.
  intros Hx Hy. exists (add_edge_result g x w y).
  rewrite add_edge_eq, !decide_True by done.
  split; [done|]. split; [|split; [|done]].
  - rewrite elem_eq; simpl. rewrite length_alter, decide_True by done.
    rewrite succ_of_add_edge, decide_True by done.
    rewrite bool_decide_eq_true_2; [done|]. rewrite dom_insert_L. set_solver.
  - rewrite edge_val_eq; simpl. rewrite length_alter, decide_True by done.
    rewrite succ_of_add_edge, decide_True by done.
    by rewrite lookup_insert_eq.
Qed.

(** C4.  [update_edge(s, w, d, op)]: on an edge that is there, the weight
    becomes [op.apply] of the weight it had and [w], and [edge_count]
    stays; on an edge that is not there, with [default_is_absorbing()]
    false, it is [add_edge(s, w, d)]: the edge is there with weight [w]
    and [edge_count] is one more (as an [unsigned int]); with
    [default_is_absorbing()] true, the graph is left as it was. *)
Theorem update_edge_cases g s w d (op : @MergeOp Wt) :
  (∀ cur, elem g s d = Ok true → edge_val g s d = Ok cur →
     ∃ g', update_edge g s w d op = Ok g' ∧
       edge_val g' s d = Ok (apply op cur w) ∧
       edge_count g' = edge_count g) ∧
  (elem g s d = Ok false → default_is_absorbing op = false →
     update_edge g s w d op = add_edge g s w d ∧
     (d < length (_preds g) →
      ∃ g', update_edge g s w d op = Ok g' ∧
        elem g' s d = Ok true ∧ edge_val g' s d = Ok w ∧
        edge_count g' = uint32 (edge_count g + 1) ∧
        ((0 ≤ edge_count g < 2 ^ 32 - 1)%Z →
         edge_count g' = (edge_count g + 1)%Z))) ∧
  (elem g s d = Ok false → default_is_absorbing op = true →
     update_edge g s w d op = Ok g).
Proof.
  split; [|split].
  - intros cur [Hs Hd]%elem_true Hcur.
    rewrite edge_val_eq, decide_True in Hcur by done.
    destruct (succ_of g s !! d) as [c|] eqn:Hsd; [|done].
    injection Hcur as ->.
    exists (overwrite_result g s (apply op cur w) d).
    rewrite update_edge_eq, decide_True, Hsd by done.
    split; [done|]. split; [by apply edge_val_overwrite | done].
  - intros [Hs Hd%not_elem_of_dom]%elem_false Hop.
    assert (Hu : update_edge g s w d op = add_edge g s w d).
    { by rewrite update_edge_eq, decide_True, Hd, Hop by done. }
    split; [done|]. intros Hdl. rewrite Hu.
    destruct (add_edge_adds g s w d Hs Hdl) as (g' & Ha & He & Hv & Hc).
    exists g'. repeat (split; [done|]).
    intros Hr. rewrite Hc. apply uint32_small. lia.
  - intros [Hs Hd%not_elem_of_dom]%elem_false Hop.
    by rewrite update_edge_eq, decide_True, Hd, Hop by done.
Qed.

(** C6.  [set_edge(x, w, y)] is [add_edge(x, w, y)] when the edge is not
    there; when it is, the weight is overwritten in place and
    [edge_count] stays.  So [set_edge(x, w1, y)] followed by
    [set_edge(x, w2, y)] leaves [edge_count] as it was after the first
    call and the weight [w2]. *)
Theorem set_edge_cases g x w y :
  (elem g x y = Ok false → set_edge g x w y = add_edge g x w y) ∧
  (elem g x y = Ok true →
     ∃ g', set_edge g x w y = Ok g' ∧
       edge_val g' x y = Ok w ∧ edge_count g' = edge_count g ∧
       _preds g' = _preds g) ∧
  (∀ g1 w2, set_edge g x w y = Ok g1 →
     ∃ g2, set_edge g1 x w2 y = Ok g2 ∧
       edge_count g2 = edge_count g1 ∧ edge_val g2 x y = Ok w2).
Proof.
  split; [|split].
  - intros [Hx Hy]%elem_false.
    by rewrite set_edge_eq, decide_True, decide_False by done.
  - intros [Hx Hy]%elem_true. exists (overwrite_result g x w y).
    rewrite set_edge_eq, !decide_True by done.
    split; [done|]. split; [by apply edge_val_overwrite | done].
  - intros g1 w2 H1.
    assert (Hg1 : x < length (_succs g1) ∧ y ∈ dom (succ_of g1 x)).
    { rewrite set_edge_eq in H1. case_decide as Hx; [|done].
      case_decide as Hy.
      - injection H1 as <-. simpl. rewrite length_alter. split; [done|].
        rewrite succ_of_overwrite, decide_True by done.
        rewrite dom_insert_L. set_solver.
      - rewrite add_edge_eq, decide_True in H1 by done.
        case_decide; [|done]. injection H1 as <-.
        simpl. rewrite length_alter. split; [done|].
        rewrite succ_of_add_edge, decide_True by done.
        rewrite dom_insert_L. set_solver. }
    destruct Hg1 as [Hx1 Hy1]. exists (overwrite_result g1 x w2 y).
    rewrite set_edge_eq, !decide_True by done.
    split; [done|]. split; [done | by apply edge_val_overwrite].
Qed.

(** C9.  [edge_val(x, y)] returns the weight stored for [(x, y)] when
    [elem(x, y)] holds; when it does not hold the call does not return a
    weight: the dereference of the empty lookup result fails. *)
Theorem edge_val_precondition g x y :
  (elem g x y = Ok true →
     ∃ w, succ_of g x !! y = Some w ∧ edge_val g x y = Ok w) ∧
  (elem g x y = Ok false → edge_val g x y = AssertFail) ∧
  (elem g x y ≠ Ok true → ∀ w, edge_val g x y ≠ Ok w).
Proof.
  rewrite elem_eq, edge_val_eq. case_decide as Hx.
  - destruct (succ_of g x !! y) as [w|] eqn:Hxy.
    + rewrite bool_decide_eq_true_2 by (apply elem_of_dom; eauto).
      split; [eauto|]. split; done.
    + rewrite bool_decide_eq_false_2 by by apply not_elem_of_dom.
      split; [done|]. split; done.
  - split; [done|]. split; done.
Qed.

End edge_claims.

(** ** The vertex lifecycle *)

Section vertex_claims.
Context {Wt : Type}.
Implicit Types (g : @PtGraph Wt) (x y v s d : vert_id) (w : Wt).

Lemma size_same_length g g' :
  length (is_free g') = length (is_free g) → size_ g' = size_ g.
Proof. unfold size_. by intros ->. Qed.

(** C7, amended.  [new_vertex()] hands out the slot freed last when the
    free-list is not empty, and marks it live; otherwise it appends a
    slot with empty containers and returns its index.  So [forget(v)] of
    a live vertex [v] followed by [new_vertex()] returns [v], and
    [size()] is what it was. *)
Theorem new_vertex_recycles g :
  (∀ v rest,
     free_id g = v :: rest →
     v < length (_succs g) → v < length (is_free g) →
     ∃ g', new_vertex g = Ok (v, g') ∧
       is_free g' = <[v:=false]> (is_free g) ∧ free_id g' = rest ∧
       _succs g' = _succs g ∧ _preds g' = _preds g ∧
       size_ g' = size_ g) ∧
  (free_id g = [] →
     ∃ v g', new_vertex g = Ok (v, g') ∧
       ((Z.of_nat (length (is_free g)) < 2 ^ 32)%Z →
        v = length (is_free g)) ∧
       _succs g' = _succs g ++ [∅] ∧ _preds g' = _preds g ++ [∅] ∧
       is_free g' = is_free g ++ [false]) ∧
  (∀ v, wf g → live g v →
     ∃ g1 g2, forget g v = Ok g1 ∧ new_vertex g1 = Ok (v, g2) ∧
       live g2 v ∧ size_ g2 = size_ g).
Proof.
  split; [|split].
  - intros v rest Hf Hv Hv'. eexists. rewrite (new_vertex_pop g v rest) by done.
    split; [done|]. simpl. repeat (split; [done|]).
    apply size_same_length; simpl. apply length_insert.
  - intros Hf. do 2 eexists. rewrite new_vertex_push by done.
    split; [done|]. simpl. split; [|done].
    intros Hlt. rewrite uint32_small by lia. apply Nat2Z.id.
  - intros v Hwf Hlive.
    assert (Hv : v < length (is_free g)) by eauto using lookup_lt_Some.
    pose proof (wf_succs g Hwf) as Hls.
    exists (forget_result g v). eexists.
    rewrite forget_live by done. split; [done|].
    rewrite (new_vertex_pop (forget_result g v) v (free_id g)); simpl.
    + split; [done|]. split.
      * unfold live; simpl.
        rewrite list_lookup_insert_eq; [done|]. by rewrite length_insert.
      * apply size_same_length; simpl. by rewrite !length_insert.
    + done.
    + rewrite length_alter_all, length_alter. lia.
    + by rewrite length_insert.
Qed.

(** C8.  Iterating [verts()] yields live vertices only, in ascending
    order; no free slot is yielded.  The positions of the iterator are
    [unsigned int]s: in a graph of fewer than [2 ^ 32] slots the
    vertices yielded are the live vertices, all of them. *)
Theorem verts_yields_live_ascending g :
  ∃ vs, verts g = Ok vs ∧
    StronglySorted lt vs ∧
    (∀ v, v ∈ vs → live g v) ∧
    (∀ v, is_free g !! v = Some true → v ∉ vs) ∧
    ((Z.of_nat (length (is_free g)) < 2 ^ 32)%Z →
     vs = live_verts g ∧ ∀ v, v ∈ vs ↔ live g v).
Proof.
  exists (walked_verts g). split; [apply verts_walked|].
  split; [apply walked_verts_sorted|].
  split; [by intros v [Hv _]%elem_of_walked_verts|]. split.
  - intros v Hv [Hin _]%elem_of_walked_verts. unfold live in Hin. congruence.
  - intros Hlt. split; [by apply walked_verts_live|].
    intros v. rewrite elem_of_walked_verts, vert_range_end_small by done.
    split; [by intros [? _]|]. intros Hv. split; [done|].
    by apply lookup_lt_Some in Hv.
Qed.

Lemma iter_push_slot k g :
  Nat.iter k push_slot g
  = {| edge_count := edge_count g;
       _succs := _succs g ++ replicate k ∅;
       _preds := _preds g ++ replicate k ∅;
       is_free := is_free g ++ replicate k false;
       free_id := free_id g |}.
Proof.
  induction k as [|k IH].
  - simpl. rewrite !app_nil_r. by destruct g.
  - change (Nat.iter (S k) push_slot g)
      with (push_slot (Nat.iter k push_slot g)).
    rewrite IH. unfold push_slot; cbn -[replicate].
    by rewrite !replicate_S_end, !(assoc_L (++)).
Qed.

(** C10.  [growTo(n)] with a free-list that is not empty fails its
    [assert].  With an empty free-list it appends live slots with empty
    containers until there are [n] slots, and leaves the slots and edges
    that were there as they were; it changes nothing when there are [n]
    slots or more. *)
Theorem growTo_precondition g n :
  (free_id g ≠ [] → growTo g n = AssertFail) ∧
  (free_id g = [] →
     ∃ g', growTo g n = Ok g' ∧
       is_free g' = is_free g ++ replicate (n - length (is_free g)) false ∧
       _succs g' = _succs g ++ replicate (n - length (is_free g)) ∅ ∧
       _preds g' = _preds g ++ replicate (n - length (is_free g)) ∅ ∧
       edge_count g' = edge_count g ∧ free_id g' = [] ∧
       n ≤ length (is_free g') ∧
       (n ≤ length (is_free g) → g' = g)).
Proof.
  unfold growTo. rewrite iter_push_slot; simpl. split.
  - intros Hf. destruct (free_id g); done.
  - intros Hf. rewrite Hf; simpl. eexists. split; [done|]. simpl.
    repeat (split; [done|]). split.
    + rewrite length_app, length_replicate. lia.
    + intros Hn. replace (n - length (is_free g)) with 0 by lia. simpl.
      rewrite !app_nil_r. destruct g; simpl in *. by subst.
Qed.

End vertex_claims.

(** ** The claims on the worked example *)

Definition add_op : @MergeOp Z :=
  {| apply := Z.add; default_is_absorbing := false |}.

(** Two vertices and the edge [0 -> 1] of weight 5. *)
Definition one_edge : @PtGraph Z :=
  state_after [NewVertex; NewVertex; AddEdge 0 5%Z 1].

(** Two vertices, both forgotten, 1 after 0. *)
Definition two_freed : @PtGraph Z :=
  state_after [NewVertex; NewVertex; Forget 0; Forget 1].

Lemma update_edge_cases_witness :
  (∃ g', update_edge one_edge 0 3%Z 1 min_op = Ok g' ∧
     edge_val g' 0 1 = Ok (apply min_op 5 3)%Z ∧
     edge_count g' = edge_count one_edge) ∧
  update_edge one_edge 1 3%Z 0 add_op = add_edge one_edge 1 3%Z 0 ∧
  update_edge one_edge 1 3%Z 0 min_op = Ok one_edge.
Proof.
  split; [|split].
  - apply (proj1 (update_edge_cases one_edge 0 3%Z 1 min_op) 5%Z);
      vm_compute; reflexivity.
  - apply (proj1 (proj2 (update_edge_cases one_edge 1 3%Z 0 add_op)));
      vm_compute; reflexivity.
  - apply (proj2 (proj2 (update_edge_cases one_edge 1 3%Z 0 min_op)));
      vm_compute; reflexivity.
Defined.

Lemma set_edge_cases_witness :
  set_edge one_edge 1 3%Z 0 = add_edge one_edge 1 3%Z 0 ∧
  (∃ g', set_edge one_edge 0 3%Z 1 = Ok g' ∧
     edge_val g' 0 1 = Ok 3%Z ∧ edge_count g' = edge_count one_edge ∧
     _preds g' = _preds one_edge) ∧
  (∃ g2, set_edge (state_after [NewVertex; NewVertex; SetEdge 1 3%Z 0])
           1 4%Z 0 = Ok g2 ∧
     edge_count g2
     = edge_count (state_after [NewVertex; NewVertex; SetEdge 1 3%Z 0]) ∧
     edge_val g2 1 0 = Ok 4%Z).
Proof.
  split; [|split].
  - apply (proj1 (set_edge_cases one_edge 1 3%Z 0)); vm_compute; reflexivity.
  - apply (proj1 (proj2 (set_edge_cases one_edge 0 3%Z 1)));
      vm_compute; reflexivity.
  - apply (proj2 (proj2 (set_edge_cases
             (state_after [NewVertex; NewVertex]) 1 3%Z 0)));
      vm_compute; reflexivity.
Defined.

Lemma edge_val_precondition_witness :
  (∃ w, succ_of one_edge 0 !! 1 = Some w ∧ edge_val one_edge 0 1 = Ok w) ∧
  edge_val one_edge 1 0 = AssertFail ∧
  (∀ w, edge_val one_edge 1 0 ≠ Ok w).
Proof.
  split; [|split].
  - apply (proj1 (edge_val_precondition one_edge 0 1)); vm_compute; reflexivity.
  - apply (proj1 (proj2 (edge_val_precondition one_edge 1 0)));
      vm_compute; reflexivity.
  - apply (proj2 (proj2 (edge_val_precondition one_edge 1 0))).
    vm_compute. discriminate.
Defined.

Lemma new_vertex_recycles_witness :
  (∃ g', new_vertex two_freed = Ok (1, g') ∧
     is_free g' = <[1:=false]> (is_free two_freed) ∧ free_id g' = [0] ∧
     _succs g' = _succs two_freed ∧ _preds g' = _preds two_freed ∧
     size_ g' = size_ two_freed) ∧
  (∃ v g', new_vertex one_edge = Ok (v, g') ∧
     ((Z.of_nat (length (is_free one_edge)) < 2 ^ 32)%Z →
      v = length (is_free one_edge)) ∧
     _succs g' = _succs one_edge ++ [∅] ∧
     _preds g' = _preds one_edge ++ [∅] ∧
     is_free g' = is_free one_edge ++ [false]) ∧
  (∃ g1 g2, forget one_edge 0 = Ok g1 ∧ new_vertex g1 = Ok (0, g2) ∧
     live g2 0 ∧ size_ g2 = size_ one_edge).
Proof.
  split; [|split].
  - apply (proj1 (new_vertex_recycles two_freed) 1 [0]);
      vm_compute; (reflexivity || lia).
  - apply (proj1 (proj2 (new_vertex_recycles one_edge))).
    vm_compute. reflexivity.
  - apply (proj2 (proj2 (new_vertex_recycles one_edge)) 0).
    + apply (wf_run [NewVertex; NewVertex; AddEdge 0 5%Z 1] PtGraph_new);
        [apply wf_new | vm_compute; reflexivity].
    + vm_compute. reflexivity.
Defined.

(** C7 as it is worded fails when [v] is free already and was not freed
    last: [forget(0)] changes nothing and [new_vertex()] returns 1. *)
Lemma new_vertex_recycles_counterexample :
  ∃ g1 g2 : @PtGraph Z,
    run [NewVertex; NewVertex; Forget 0; Forget 1] PtGraph_new = Ok two_freed ∧
    forget two_freed 0 = Ok g1 ∧ new_vertex g1 = Ok (1, g2) ∧ 1 ≠ 0.
Proof.
  do 2 eexists. split; [vm_compute; reflexivity|].
  split; [vm_compute; reflexivity|].
  split; [vm_compute; reflexivity|]. discriminate.
Qed.

Lemma growTo_precondition_witness :
  growTo two_freed 5 = AssertFail ∧
  (∃ g', growTo one_edge 4 = Ok g' ∧
     is_free g' = is_free one_edge ++ replicate (4 - length (is_free one_edge)) false ∧
     _succs g' = _succs one_edge ++ replicate (4 - length (is_free one_edge)) ∅ ∧
     _preds g' = _preds one_edge ++ replicate (4 - length (is_free one_edge)) ∅ ∧
     edge_count g' = edge_count one_edge ∧ free_id g' = [] ∧
     4 ≤ length (is_free g') ∧
     (4 ≤ length (is_free one_edge) → g' = one_edge)).
Proof.
  split.
  - apply (proj1 (growTo_precondition two_freed 5)). vm_compute. discriminate.
  - apply (proj2 (growTo_precondition one_edge 4)). vm_compute. reflexivity.
Defined.

(** ** Copying a graph *)

Lemma uint32_int32 z : uint32 (int32 z) = uint32 z.
Proof.
  unfold uint32, int32. rewrite Zminus_mod_idemp_l. f_equal. lia.
Qed.

Lemma int32_uint32 z : int32 (uint32 z) = int32 z.
Proof. unfold uint32, int32. by rewrite Zplus_mod_idemp_l. Qed.

Lemma int32_small z : (- 2 ^ 31 ≤ z < 2 ^ 31)%Z → int32 z = z.
Proof. intros Hz. unfold int32. rewrite Z.mod_small by lia. lia. Qed.

Section copy_claims.
Context {Wt : Type}.
Implicit Types (g ret : @PtGraph Wt) (x y v s d : vert_id) (w : Wt).

(** *** A [PtGraph] as the source: the two loops *)

Lemma succs_eq g s :
  s < length (_succs g) → succs g s = Ok (ascending (dom (succ_of g s))).
Proof.
  intros Hs. unfold succs.
  by rewrite (vec_at_lookup _ _ _ (succ_of_lookup g s Hs)).
Qed.

(** The inner loop of [copy]: the edges from [s] to the vertices [ds]. *)
Lemma copy_inner g s ds ret :
  s < length (_succs g) → s < length (_succs ret) →
  (∀ d, d ∈ ds → d ∈ dom (succ_of g s) ∧ d < length (_preds ret)) →
  ∃ ret',
    for_each ds (λ d ret, w ← edge_val g s d; add_edge ret s w d) ret
    = Ok ret' ∧
    length (_succs ret') = length (_succs ret) ∧
    length (_preds ret') = length (_preds ret) ∧
    is_free ret' = is_free ret ∧
    ∀ x y, succ_of ret' x !! y
           = if decide (x = s ∧ y ∈ ds) then succ_of g s !! y
             else succ_of ret x !! y.
Proof.
  intros Hsg. revert ret; induction ds as [|d ds IH]; intros ret Hs Hds.
  - exists ret. simpl. repeat (split; [done|]). intros x y.
    rewrite decide_False; [done|]. intros [_ Hy]. by apply not_elem_of_nil in Hy.
  - destruct (Hds d) as [[w Hw]%elem_of_dom Hd]; [left|].
    simpl. rewrite edge_val_eq, decide_True, Hw by done; simpl.
    rewrite add_edge_eq, !decide_True by done; simpl.
    destruct (IH (add_edge_result ret s w d)) as (ret' & Hrun & Hl1 & Hl2 & Hfr & Hlk).
    { simpl. by rewrite length_alter. }
    { intros d' Hd'. simpl. rewrite length_alter. apply Hds. by right. }
    exists ret'. split; [done|]. simpl in Hl1, Hl2, Hfr.
    rewrite length_alter in Hl1. rewrite length_alter in Hl2.
    repeat (split; [done|]). intros x y. rewrite Hlk.
    rewrite succ_of_add_edge by done.
    destruct (decide (x = s)) as [->|Hx].
    + rewrite (decide_True (P := s = s)) by done.
      destruct (decide (y ∈ ds)) as [Hy|Hy].
      * rewrite !decide_True; [done| |]; split; set_solver.
      * rewrite decide_False by (intros [_ ?]; done).
        destruct (decide (y = d)) as [->|Hyd].
        -- rewrite lookup_insert_eq, decide_True; [done|]. split; set_solver.
        -- rewrite lookup_insert_ne by done. rewrite decide_False; [done|].
           intros [_ ?]. set_solver.
    + rewrite (decide_False (P := s = x)) by done.
      rewrite !decide_False; [done| |]; by intros [? _].
Qed.

(** The outer loop of [copy], over vertices [vs] whose slots in [ret] are
    still empty. *)
Lemma copy_outer g vs ret :
  wf g → NoDup vs →
  length (_succs ret) = length (is_free g) →
  length (_preds ret) = length (is_free g) →
  (∀ s, s ∈ vs → s < length (is_free g) ∧ succ_of ret s = ∅) →
  ∃ ret',
    for_each vs (λ s ret,
      ds ← succs g s;
      for_each ds (λ d ret, w ← edge_val g s d; add_edge ret s w d) ret) ret
    = Ok ret' ∧
    length (_succs ret') = length (is_free g) ∧
    is_free ret' = is_free ret ∧
    ∀ x y, succ_of ret' x !! y
           = if decide (x ∈ vs) then succ_of g x !! y else succ_of ret x !! y.
Proof.
  intros Hwf Hnd. pose proof (wf_succs g Hwf) as Hls.
  revert ret; induction Hnd as [|s vs Hs Hnd IH]; intros ret Hl1 Hl2 Hvs.
  - exists ret. split; [done|]. split; [done|]. split; [done|].
    intros x y. rewrite decide_False; [done|]. apply not_elem_of_nil.
  - destruct (Hvs s) as [Hsl Hse]; [left|].
    simpl. rewrite succs_eq by lia; simpl.
    destruct (copy_inner g s (ascending (dom (succ_of g s))) ret)
      as (ret1 & Hrun1 & Hl1' & Hl2' & Hfr1 & Hlk1); [lia..| |].
    { intros d Hd%elem_of_ascending. split; [done|].
      rewrite Hl2. by eapply wf_range. }
    rewrite Hrun1; simpl.
    destruct (IH ret1) as (ret' & Hrun & Hl' & Hfr & Hlk); [lia..| |].
    { intros s' Hs'. destruct (Hvs s') as [Hsl' Hse']; [by right|].
      split; [done|]. apply map_eq; intros y.
      rewrite Hlk1, decide_False, Hse'; [done|]. intros [-> _]. done. }
    exists ret'. split; [done|]. split; [done|]. split; [congruence|].
    intros x y. rewrite Hlk, Hlk1.
    destruct (decide (x ∈ vs)) as [Hx|Hx].
    + rewrite decide_True; [done|by right].
    + destruct (decide (x = s)) as [->|Hxs].
      * rewrite (decide_True (P := s ∈ s :: vs)) by left.
        case_decide as Hy; [done|]. rewrite Hse, lookup_empty.
        symmetry. apply not_elem_of_dom. intros Hin. apply Hy.
        split; [done|]. by apply elem_of_ascending.
      * rewrite !decide_False; [done| |]; set_solver.
Qed.

(** *** A source of any type

    [copy] is a template: its source is any type with [size()],
    [verts()], [succs(s)] and [edge_val(s, d)]. *)

Section source.
Context {G : Type} {HG : @GraphLike Wt G}.
Implicit Types (src : G) (vs : list vert_id) (ds : vert_id → list vert_id).

(** The weight that the source gives for a pair of vertices, when the
    call returns. *)
Definition src_weight src s d : option Wt :=
  match src_edge_val src s d with
  | Ok w => Some w
  | _ => None
  end.

(** The inner loop of [copy] at the vertex [s], over the vertices [dl]. *)
Lemma copy_inner_src src s dl ret :
  (∀ d, d ∈ dl →
     (∃ w, src_edge_val src s d = Ok w) ∧
     s < length (_succs ret) ∧ d < length (_preds ret)) →
  ∃ ret',
    for_each dl (λ d ret, w ← src_edge_val src s d; add_edge ret s w d) ret
    = Ok ret' ∧
    length (_succs ret') = length (_succs ret) ∧
    length (_preds ret') = length (_preds ret) ∧
    is_free ret' = is_free ret ∧
    ∀ x y, succ_of ret' x !! y
           = if decide (x = s ∧ y ∈ dl) then src_weight src s y
             else succ_of ret x !! y.
Proof.
  revert ret; induction dl as [|d dl IH]; intros ret Hdl.
  - exists ret. simpl. repeat (split; [done|]). intros x y.
    rewrite decide_False; [done|]. intros [_ Hy]. by apply not_elem_of_nil in Hy.
  - destruct (Hdl d) as ([w Hw] & Hs & Hd); [left|].
    simpl. rewrite Hw; simpl.
    rewrite add_edge_eq, !decide_True by done; simpl.
    destruct (IH (add_edge_result ret s w d))
      as (ret' & Hrun & Hl1 & Hl2 & Hfr & Hlk).
    { intros d' Hd'. simpl. rewrite !length_alter. apply Hdl. by right. }
    exists ret'. split; [done|]. simpl in Hl1, Hl2, Hfr.
    rewrite length_alter in Hl1. rewrite length_alter in Hl2.
    repeat (split; [done|]). intros x y. rewrite Hlk.
    rewrite succ_of_add_edge by done.
    destruct (decide (x = s)) as [->|Hx].
    + rewrite (decide_True (P := s = s)) by done.
      destruct (decide (y ∈ dl)) as [Hy|Hy].
      * rewrite !decide_True; [done| |]; split; set_solver.
      * rewrite decide_False by (intros [_ ?]; done).
        destruct (decide (y = d)) as [->|Hyd].
        -- rewrite lookup_insert_eq, decide_True by (split; set_solver).
           unfold src_weight. by rewrite Hw.
        -- rewrite lookup_insert_ne by done. rewrite decide_False; [done|].
           intros [_ ?]. set_solver.
    + rewrite (decide_False (P := s = x)) by done.
      rewrite !decide_False; [done| |]; by intros [? _].
Qed.

(** The outer loop of [copy], over the vertices [vs]. *)
Lemma copy_outer_src src vs ds ret :
  (∀ s, s ∈ vs → src_succs src s = Ok (ds s)) →
  (∀ s d, s ∈ vs → d ∈ ds s →
     (∃ w, src_edge_val src s d = Ok w) ∧
     s < length (_succs ret) ∧ d < length (_preds ret)) →
  ∃ ret',
    for_each vs (λ s ret,
      dl ← src_succs src s;
      for_each dl (λ d ret, w ← src_edge_val src s d; add_edge ret s w d) ret)
      ret
    = Ok ret' ∧
    length (_succs ret') = length (_succs ret) ∧
    length (_preds ret') = length (_preds ret) ∧
    is_free ret' = is_free ret ∧
    ∀ x y, succ_of ret' x !! y
           = if decide (x ∈ vs ∧ y ∈ ds x) then src_weight src x y
             else succ_of ret x !! y.
Proof.
  revert ret; induction vs as [|s vs IH]; intros ret Hds Hedges.
  - exists ret. repeat (split; [done|]). intros x y.
    rewrite decide_False; [done|]. intros [Hx _]. by apply not_elem_of_nil in Hx.
  - simpl. rewrite (Hds s) by left; simpl.
    destruct (copy_inner_src src s (ds s) ret)
      as (ret1 & Hrun1 & Hl1 & Hl2 & Hfr1 & Hlk1).
    { intros d Hd. apply Hedges; [left|done]. }
    rewrite Hrun1; simpl.
    destruct (IH ret1) as (ret' & Hrun & Hl1' & Hl2' & Hfr & Hlk).
    { intros s' Hs'. apply Hds. by right. }
    { intros s' d Hs' Hd. rewrite Hl1, Hl2. apply Hedges; [by right|done]. }
    exists ret'. split; [done|].
    split; [congruence|]. split; [congruence|]. split; [congruence|].
    intros x y. rewrite Hlk, Hlk1.
    destruct (decide (x ∈ vs ∧ y ∈ ds x)) as [[Hx Hy]|Hxy].
    + rewrite decide_True; [done|]. split; [by right|done].
    + destruct (decide (x = s ∧ y ∈ ds s)) as [[-> Hy]|Hxs].
      * rewrite decide_True; [done|]. split; [left|done].
      * rewrite decide_False; [done|]. intros [[->|Hx]%elem_of_cons Hy].
        -- by apply Hxs.
        -- by apply Hxy.
Qed.

(** [copy] in closed form: the graph it returns has as many slots as
    [growTo] was asked for, all of them live, and the edges that the
    source lists, with the weights that the source gives. *)
Lemma copy_from_source src vs ds :
  src_verts src = Ok vs →
  (∀ s, s ∈ vs → src_succs src s = Ok (ds s)) →
  (∀ s d, s ∈ vs → d ∈ ds s →
     (∃ w, src_edge_val src s d = Ok w) ∧
     s < Z.to_nat (uint32 (src_size src)) ∧
     d < Z.to_nat (uint32 (src_size src))) →
  ∃ r, copy src = Ok r ∧
    length (_succs r) = Z.to_nat (uint32 (src_size src)) ∧
    is_free r = replicate (Z.to_nat (uint32 (src_size src))) false ∧
    ∀ x y, succ_of r x !! y
           = if decide (x ∈ vs ∧ y ∈ ds x) then src_weight src x y else None.
Proof.
  intros Hvs Hds Hedges. set (n := Z.to_nat (uint32 (src_size src))) in *.
  unfold copy. unfold growTo; simpl.
  rewrite Nat.sub_0_r, iter_push_slot; simpl. rewrite Hvs; simpl.
  set (ret0 := {| edge_count := 0; _succs := replicate n ∅;
                  _preds := replicate n ∅; is_free := replicate n false;
                  free_id := [] |} : @PtGraph Wt).
  assert (Hempty : ∀ x, succ_of ret0 x = ∅).
  { intros x. unfold succ_of; simpl.
    destruct (replicate n ∅ !! x) as [m|] eqn:Hm; [|done].
    by apply lookup_replicate in Hm as [-> _]. }
  destruct (copy_outer_src src vs ds ret0 Hds)
    as (r & Hrun & Hl1 & Hl2 & Hfr & Hlk).
  { intros s d Hs Hd. simpl. rewrite !length_replicate. by apply Hedges. }
  exists r. split; [done|]. simpl in Hl1, Hfr.
  rewrite length_replicate in Hl1. split; [done|]. split; [done|].
  intros x y. rewrite Hlk. case_decide; [done|].
  by rewrite Hempty, lookup_empty.
Qed.

(** C5.  Copy fidelity, for a source [src] of any type: [size()] is an
    [int], [verts()] returns and lists the vertices [vs], [succs(s)]
    returns for each of them and lists the vertices [ds s], and the
    edges listed this way have ends below [size()] and a weight that
    [edge_val] returns.  Then [copy(src)] returns a graph whose [size()]
    is that of the source, with an edge [(x, y)], of the weight that the
    source gives, for every edge [(x, y)] of the source, and with no
    other edge. *)
Theorem copy_fidelity src vs ds :
  (- 2 ^ 31 ≤ src_size src < 2 ^ 31)%Z →
  src_verts src = Ok vs →
  (∀ s, s ∈ vs → src_succs src s = Ok (ds s)) →
  (∀ s d, s ∈ vs → d ∈ ds s →
     (∃ w, src_edge_val src s d = Ok w) ∧
     (Z.of_nat s < uint32 (src_size src))%Z ∧
     (Z.of_nat d < uint32 (src_size src))%Z) →
  ∃ r, copy src = Ok r ∧ size_ r = src_size src ∧
    (∀ x y, x ∈ vs → y ∈ ds x →
       elem r x y = Ok true ∧ edge_val r x y = src_edge_val src x y) ∧
    (∀ x y, elem r x y = Ok true → x ∈ vs ∧ y ∈ ds x).
Proof.
  intros Hint Hvs Hds Hedges.
  set (n := Z.to_nat (uint32 (src_size src))).
  assert (HnZ : Z.of_nat n = uint32 (src_size src)).
  { unfold n. apply Z2Nat.id. unfold uint32.
    apply Z.mod_pos_bound. lia. }
  destruct (copy_from_source src vs ds Hvs Hds)
    as (r & Hrun & Hl & Hfr & Hlk).
  { intros s d Hs Hd. destruct (Hedges s d Hs Hd) as (Hw & Hsn & Hdn).
    split; [done|]. fold n. lia. }
  fold n in Hl, Hfr.
  exists r. split; [done|]. split.
  { unfold size_. rewrite Hfr, length_replicate, HnZ, int32_uint32.
    by apply int32_small. }
  split.
  - intros x y Hx Hy. destruct (Hedges x y Hx Hy) as ([w Hw] & Hxn & _).
    assert (Hxy : succ_of r x !! y = Some w).
    { rewrite Hlk, decide_True by done. unfold src_weight. by rewrite Hw. }
    rewrite elem_eq, edge_val_eq, Hl, !decide_True by lia.
    rewrite Hxy, Hw. split; [|done].
    rewrite bool_decide_eq_true_2; [done|]. apply elem_of_dom. eauto.
  - intros x y. rewrite elem_eq. case_decide; [|done].
    intros [= Hy%bool_decide_eq_true].
    apply elem_of_dom in Hy as [w Hw]. rewrite Hlk in Hw.
    case_decide; [done|discriminate].
Qed.

End source.

(** A [PtGraph] as the source, in a state of fewer than [2 ^ 32] slots
    whose free slots have no successors (as it is when the calls respect
    the preconditions): the edges that [verts()] and [succs(s)] list are
    those for which [elem] holds, and the copy answers [elem] and
    [edge_val] as the source does. *)
Lemma copy_of_PtGraph g :
  wf g →
  (∀ v, is_free g !! v = Some true → succ_of g v = ∅) →
  (Z.of_nat (length (is_free g)) < 2 ^ 32)%Z →
  ∃ r, copy g = Ok r ∧ size_ r = size_ g ∧
    ∀ x y, elem r x y = elem g x y ∧ edge_val r x y = edge_val g x y.
Proof.
  intros Hwf Hfree Hlt. pose proof (wf_succs g Hwf) as Hls.
  set (n := length (is_free g)).
  assert (Hn : Z.to_nat (uint32 (size_ g)) = n).
  { unfold size_. rewrite uint32_int32, uint32_small by (fold n; lia).
    apply Nat2Z.id. }
  destruct (copy_from_source g (live_verts g)
              (λ s, ascending (dom (succ_of g s))))
    as (r & Hrun & Hl & Hfr & Hlk).
  { by apply verts_eq. }
  { intros s Hs%elem_of_live_verts. apply succs_eq.
    apply lookup_lt_Some in Hs. lia. }
  { intros s d Hs%elem_of_live_verts Hd%elem_of_ascending.
    apply lookup_lt_Some in Hs.
    change (src_size g) with (size_ g). rewrite Hn.
    split; [|split; [done|by eapply wf_range]].
    change (src_edge_val g s d) with (edge_val g s d).
    rewrite edge_val_eq, decide_True by lia.
    apply elem_of_dom in Hd as [w Hw]. rewrite Hw. eauto. }
  change (src_size g) with (size_ g) in Hl, Hfr. rewrite Hn in Hl, Hfr.
  exists r. split; [done|]. split.
  { unfold size_. by rewrite Hfr, length_replicate. }
  assert (Hsame : ∀ x y, succ_of r x !! y = succ_of g x !! y).
  { intros x y. rewrite Hlk. case_decide as Hxy.
    - destruct Hxy as [Hx%elem_of_live_verts Hy].
      apply lookup_lt_Some in Hx.
      unfold src_weight. change (src_edge_val g x y) with (edge_val g x y).
      rewrite edge_val_eq, decide_True by lia.
      by destruct (succ_of g x !! y).
    - symmetry. destruct (is_free g !! x) as [[]|] eqn:Hb.
      + by rewrite (Hfree x Hb).
      + apply not_elem_of_dom. intros Hy. apply Hxy.
        split; [by apply elem_of_live_verts | by apply elem_of_ascending].
      + apply lookup_ge_None_1 in Hb. unfold succ_of.
        rewrite lookup_ge_None_2 by lia. done. }
  intros x y. rewrite !elem_eq, !edge_val_eq, Hl, Hls, Hsame. subst n.
  split; [|done]. case_decide; [|done]. f_equal.
  apply bool_decide_ext. by rewrite !elem_of_dom, Hsame.
Qed.

End copy_claims.

(** A source of another representation: adjacency lists, the row of a
    vertex holding its successors with the weights of the edges. *)
Definition adj_lists : Type := list (list (vert_id * Z)).

Definition adj_size (m : adj_lists) : Z := int32 (Z.of_nat (length m)).

Definition adj_verts (m : adj_lists) : outcome (list vert_id) :=
  Ok (seq 0 (length m)).

Definition adj_succs (m : adj_lists) (s : vert_id) : outcome (list vert_id) :=
  row ← vec_at m s; Ok (row.*1).

Definition adj_edge_val (m : adj_lists) (s d : vert_id) : outcome Z :=
  row ← vec_at m s;
  match filter (λ p, p.1 = d) row with
  | (_, w) :: _ => Ok w
  | [] => AssertFail
  end.

Global Instance adj_lists_GraphLike : @GraphLike Z adj_lists := {|
  src_size := adj_size;
  src_verts := adj_verts;
  src_succs := adj_succs;
  src_edge_val := adj_edge_val
|}.

(** Three vertices and the edges [0 -> 1], [0 -> 2] and [2 -> 0]. *)
Definition adj_example : adj_lists :=
  [[(1, 5%Z); (2, 2%Z)]; []; [(0, 4%Z)]].

(** The successors that [adj_example] lists. *)
Definition adj_example_succs (s : vert_id) : list vert_id :=
  (default [] (adj_example !! s)).*1.

Lemma copy_fidelity_witness :
  (∃ r, copy adj_example = Ok r ∧ size_ r = src_size adj_example ∧
     (∀ x y, x ∈ [0; 1; 2] → y ∈ adj_example_succs x →
        elem r x y = Ok true ∧
        edge_val r x y = src_edge_val adj_example x y) ∧
     (∀ x y, elem r x y = Ok true →
        x ∈ [0; 1; 2] ∧ y ∈ adj_example_succs x)) ∧
  (∃ r, copy one_edge = Ok r ∧ size_ r = src_size one_edge ∧
     (∀ x y, x ∈ [0; 1] → y ∈ ascending (dom (succ_of one_edge x)) →
        elem r x y = Ok true ∧ edge_val r x y = src_edge_val one_edge x y) ∧
     (∀ x y, elem r x y = Ok true →
        x ∈ [0; 1] ∧ y ∈ ascending (dom (succ_of one_edge x)))).
Proof.
  split.
  - apply (copy_fidelity adj_example [0; 1; 2] adj_example_succs).
    + vm_compute. split; [discriminate|reflexivity].
    + reflexivity.
    + intros s Hs.
      repeat (apply elem_of_cons in Hs as [->|Hs]; [reflexivity|]).
      by apply not_elem_of_nil in Hs.
    + intros s d Hs Hd.
      repeat (apply elem_of_cons in Hs as [->|Hs];
        [repeat (apply elem_of_cons in Hd as [->|Hd];
           [split; [eexists; reflexivity | vm_compute; done]|]);
         by apply not_elem_of_nil in Hd|]).
      by apply not_elem_of_nil in Hs.
  - apply (copy_fidelity one_edge [0; 1]
             (λ s, ascending (dom (succ_of one_edge s)))).
    + vm_compute. split; [discriminate|reflexivity].
    + vm_compute. reflexivity.
    + intros s Hs.
      repeat (apply elem_of_cons in Hs as [->|Hs];
        [vm_compute; reflexivity|]).
      by apply not_elem_of_nil in Hs.
    + intros s d Hs Hd.
      repeat (apply elem_of_cons in Hs as [->|Hs];
        [vm_compute in Hd;
         repeat (apply elem_of_cons in Hd as [->|Hd];
           [split; [eexists; vm_compute; reflexivity | vm_compute; done]|]);
         by apply not_elem_of_nil in Hd|]).
      by apply not_elem_of_nil in Hs.
Defined.

(** A slot forgotten and then used as the source of an edge, which the
    callers of [add_edge] are not to do. *)
Definition edge_from_freed : @PtGraph Z :=
  state_after [NewVertex; NewVertex; Forget 1; AddEdge 1 5%Z 0].

(** What the hypothesis on the free slots is for: [verts()] skips a free
    slot, so an edge that leaves one is not listed, and not copied. *)
Lemma copy_leaves_out_the_edges_of_free_slots :
  ∃ r : @PtGraph Z,
    run [NewVertex; NewVertex; Forget 1; AddEdge 1 5%Z 0] PtGraph_new
    = Ok edge_from_freed ∧
    elem edge_from_freed 1 0 = Ok true ∧
    copy edge_from_freed = Ok r ∧
    elem r 1 0 = Ok false.
Proof.
  eexists. split; [vm_compute; reflexivity|].
  split; [vm_compute; reflexivity|].
  split; vm_compute; reflexivity.
Qed.

(** * Further properties of the class *)

(** ** Slot accounting *)

Section slot_marks.
Context {Wt : Type}.
Implicit Types (g : @PtGraph Wt) (x y v s d : vert_id) (w : Wt).

(** The free-list and the marks agree: the free-list holds every slot
    marked free, once. *)
Record slots_ok g : Prop := mk_slots_ok {
  so_nodup : NoDup (free_id g);
  so_marks : ∀ v, v ∈ free_id g ↔ is_free g !! v = Some true
}.

Lemma slots_ok_new : slots_ok (@PtGraph_new Wt).
Proof.
  split; simpl; [constructor|]. intros v. rewrite lookup_nil.
  split; [by intros ?%not_elem_of_nil | done].
Qed.

Lemma slots_ok_same_marks g g' :
  slots_ok g → free_id g' = free_id g → is_free g' = is_free g → slots_ok g'.
Proof. intros [Hnd Hm] Hf Hi. split; rewrite Hf, ?Hi; done. Qed.

Lemma slots_ok_appended g k :
  slots_ok g → free_id g = [] →
  ∀ g', free_id g' = [] → is_free g' = is_free g ++ replicate k false →
  slots_ok g'.
Proof.
  intros [Hnd Hm] Hf g' Hf' Hi'. split; rewrite Hf'; [constructor|].
  intros v. split; [by intros ?%not_elem_of_nil|].
  rewrite Hi'. intros Hv. apply lookup_app_Some in Hv as [Hv|[_ Hv]].
  - apply Hm in Hv. rewrite Hf in Hv. by apply not_elem_of_nil in Hv.
  - by apply lookup_replicate in Hv as [? _].
Qed.

Lemma slots_ok_new_vertex g v g' :
  slots_ok g → new_vertex g = Ok (v, g') → slots_ok g'.
Proof.
  intros Hok. destruct (free_id g) as [|u rest] eqn:Hf.
  - rewrite new_vertex_push by done. intros [= _ <-].
    apply (slots_ok_appended g 1 Hok Hf); done.
  - unfold new_vertex. rewrite Hf.
    intros (_ & _ & (f & Hset & [= _ <-])%bind_Ok)%bind_Ok.
    unfold vec_set in Hset. case_decide as Hu; [|done]. injection Hset as <-.
    destruct Hok as [Hnd Hm]. rewrite Hf in Hnd, Hm.
    apply NoDup_cons in Hnd as [Hu' Hnd]. simpl in Hu.
    split; simpl; [done|]. intros z.
    destruct (decide (u = z)) as [<-|Hne].
    + rewrite list_lookup_insert_eq by done. split; [done|discriminate].
    + rewrite list_lookup_insert_ne by done. rewrite <- Hm. set_solver.
Qed.

Lemma slots_ok_growTo g n g' : slots_ok g → growTo g n = Ok g' → slots_ok g'.
Proof.
  intros Hok. unfold growTo. rewrite iter_push_slot; simpl.
  destruct (free_id g) eqn:Hf; [|done]. simpl. intros [= <-].
  by apply (slots_ok_appended g (n - length (is_free g)) Hok Hf).
Qed.

Lemma slots_ok_forget g v :
  slots_ok g → live g v → slots_ok (forget_result g v).
Proof.
  intros [Hnd Hm] Hlive. unfold live in Hlive.
  assert (Hv : v < length (is_free g)) by eauto using lookup_lt_Some.
  split; simpl.
  - apply NoDup_cons. split; [|done]. rewrite Hm, Hlive. discriminate.
  - intros z. destruct (decide (v = z)) as [<-|Hne].
    + rewrite list_lookup_insert_eq by done. split; [done|]. intros _. left.
    + rewrite list_lookup_insert_ne by done. rewrite <- Hm. set_solver.
Qed.

Lemma slots_ok_step g (o : @op Wt) g' :
  wf g → slots_ok g → step g o = Ok g' → slots_ok g'.
Proof.
  intros Hwf Hok. pose proof (wf_succs g Hwf) as Hls.
  destruct o as [|n|v|x w y|s w d|s w d o]; simpl.
  - intros ([v g1] & Hn & [= <-])%bind_Ok. by eapply slots_ok_new_vertex.
  - by apply slots_ok_growTo.
  - destruct (decide (v < length (_succs g))) as [Hv|Hv].
    + destruct (lookup_lt_is_Some_2 (is_free g) v) as [[] Hb]; [lia| |].
      * rewrite forget_free by done. by intros [= <-].
      * rewrite forget_live by done. intros [= <-]. by apply slots_ok_forget.
    + rewrite forget_out_of_range by lia. done.
  - rewrite add_edge_eq. repeat case_decide; try done.
    intros [= <-]. by apply (slots_ok_same_marks g).
  - rewrite set_edge_eq, add_edge_eq. repeat case_decide; try done;
      intros [= <-]; by apply (slots_ok_same_marks g).
  - rewrite update_edge_eq, add_edge_eq. case_decide; [|done].
    destruct (succ_of g s !! d), (default_is_absorbing o);
      repeat case_decide; try done;
      intros [= <-]; (done || by apply (slots_ok_same_marks g)).
Qed.

Lemma slots_ok_run ops g g' :
  wf g → slots_ok g → run ops g = Ok g' → slots_ok g'.
Proof.
  revert g; induction ops as [|o ops IH]; intros g Hwf Hok; simpl.
  - by intros [= <-].
  - intros (g1 & Hstep & Hrun)%bind_Ok.
    eauto using wf_step, slots_ok_step.
Qed.

(** X1.  Slot accounting: whatever calls are made on a graph fresh from
    [PtGraph()], in the state they leave the free-list holds no slot
    twice, holds exactly the slots marked free, and these are allocated
    slots; the three vectors have one length. *)
Theorem slot_accounting (ops : list (@op Wt)) g :
  run ops PtGraph_new = Ok g →
  NoDup (free_id g) ∧
  (∀ v, v ∈ free_id g ↔ is_free g !! v = Some true) ∧
  (∀ v, v ∈ free_id g → v < length (is_free g)) ∧
  length (_succs g) = length (is_free g) ∧
  length (_preds g) = length (is_free g).
Proof.
  intros Hrun.
  pose proof (wf_run ops _ g wf_new Hrun) as Hwf.
  destruct (slots_ok_run ops _ g wf_new slots_ok_new Hrun) as [Hnd Hm].
  split; [done|]. split; [done|]. split.
  - intros v Hv%Hm. eauto using lookup_lt_Some.
  - split; [apply (wf_succs g Hwf) | apply (wf_preds g Hwf)].
Qed.

End slot_marks.

(** ** Allocation *)

Section allocation.
Context {Wt : Type}.
Implicit Types (g : @PtGraph Wt) (x y v s d : vert_id) (w : Wt).

Lemma free_id_live_verts g :
  slots_ok g →
  length (live_verts g) + length (free_id g) = length (is_free g).
Proof.
  intros [Hnd Hm]. unfold live_verts.
  set (P := λ v, is_free g !! v = Some false).
  set (l := seq 0 (length (is_free g))).
  assert (Hperm : free_id g ≡ₚ filter (λ v, ¬ P v) l).
  { apply NoDup_Permutation; [done | apply NoDup_filter, NoDup_seq |].
    intros v. rewrite Hm, list_elem_of_filter. unfold P, l.
    rewrite elem_of_seq. split.
    - intros Hv. split; [congruence|]. apply lookup_lt_Some in Hv. lia.
    - intros [Hv Hl].
      destruct (lookup_lt_is_Some_2 (is_free g) v) as [[] Hb]; [lia|done..]. }
  rewrite Hperm, <- length_app, filter_app_complement.
  unfold l. apply length_seq.
Qed.

Lemma views_push_slot g x :
  length (_succs g) = length (is_free g) →
  length (_preds g) = length (is_free g) →
  succ_of (push_slot g) x = succ_of g x ∧ pred_of (push_slot g) x = pred_of g x.
Proof.
  intros Hls Hlp. unfold succ_of, pred_of; simpl. rewrite !slot_snoc.
  split; (case_decide; [|done]); rewrite slot_ge by lia; done.
Qed.

(** What [new_vertex] does on a state whose free-list and marks agree. *)
Lemma new_vertex_fresh g :
  wf g → slots_ok g → (Z.of_nat (length (is_free g)) < 2 ^ 32)%Z →
  ∃ v g', new_vertex g = Ok (v, g') ∧
    ¬ live g v ∧ live g' v ∧
    (∀ u, u ≠ v → live g' u ↔ live g u) ∧
    (∀ x, succ_of g' x = succ_of g x ∧ pred_of g' x = pred_of g x) ∧
    length (_succs g) ≤ length (_succs g') ∧
    edge_count g' = edge_count g.
Proof.
  intros Hwf [Hnd Hm] Hlt.
  pose proof (wf_succs g Hwf) as Hls. pose proof (wf_preds g Hwf) as Hlp.
  destruct (free_id g) as [|v rest] eqn:Hf.
  - exists (length (is_free g)), (push_slot g).
    rewrite new_vertex_push, uint32_small, Nat2Z.id by (done || lia).
    split; [done|]. unfold live; simpl.
    split; [|split; [|split; [|split; [|split]]]].
    + rewrite lookup_ge_None_2 by lia. discriminate.
    + rewrite lookup_app_r, Nat.sub_diag by lia. done.
    + intros u Hu. rewrite lookup_snoc_Some. split.
      * intros [[_ ?]|[? _]]; [done|lia].
      * intros Hu'. left. split; [|done]. eauto using lookup_lt_Some.
    + intros x. by apply views_push_slot.
    + rewrite length_app. lia.
    + done.
  - assert (Hv : is_free g !! v = Some true) by (apply Hm; left).
    assert (Hvl : v < length (is_free g)) by eauto using lookup_lt_Some.
    eexists v, _. rewrite (new_vertex_pop g v rest) by (done || lia).
    split; [done|]. unfold live; simpl.
    split; [|split; [|split; [|split; [|split]]]]; try done.
    + rewrite Hv. discriminate.
    + by rewrite list_lookup_insert_eq.
    + intros u Hu. by rewrite list_lookup_insert_ne.
Qed.

(** X2.  In every state reached from [PtGraph()], the live vertices and
    the free-list make up the slots: their numbers add up to
    [is_free.size()]. *)
Theorem live_and_free_make_up_the_slots (ops : list (@op Wt)) g :
  run ops PtGraph_new = Ok g →
  length (live_verts g) + length (free_id g) = length (is_free g).
Proof.
  intros Hrun. apply free_id_live_verts.
  exact (slots_ok_run ops _ g wf_new slots_ok_new Hrun).
Qed.

(** X3.  In every state reached from [PtGraph()] (of fewer than [2 ^ 32]
    slots), [new_vertex()] returns: its [assert] holds.  The vertex it
    hands out was not live and is live afterwards; no other vertex
    changes its state, and no edge and no weight changes. *)
Theorem new_vertex_hands_out_a_fresh_vertex (ops : list (@op Wt)) g :
  run ops PtGraph_new = Ok g →
  (Z.of_nat (length (is_free g)) < 2 ^ 32)%Z →
  ∃ v g', new_vertex g = Ok (v, g') ∧
    ¬ live g v ∧ live g' v ∧
    (∀ u, u ≠ v → live g' u ↔ live g u) ∧
    (∀ x y, x < length (is_free g) →
       elem g' x y = elem g x y ∧ edge_val g' x y = edge_val g x y) ∧
    edge_count g' = edge_count g.
Proof.
  intros Hrun Hlt.
  pose proof (wf_run ops _ g wf_new Hrun) as Hwf.
  pose proof (slots_ok_run ops _ g wf_new slots_ok_new Hrun) as Hok.
  pose proof (wf_succs g Hwf) as Hls.
  destruct (new_vertex_fresh g Hwf Hok Hlt)
    as (v & g' & Hn & Hnl & Hl & Hothers & Hviews & Hlen & Hec).
  exists v, g'. repeat (split; [done|]). split; [|done].
  intros x y Hx. destruct (Hviews x) as [Hs _].
  by rewrite !elem_eq, !edge_val_eq, Hs, !decide_True by lia.
Qed.

(** X4.  When the calls made so far respect the preconditions (no
    [add_edge] on an edge that is there, no edge operation on a forgotten
    vertex), the vertex that [new_vertex()] hands out has no successor
    and no predecessor, whether its slot is new or recycled. *)
Theorem new_vertex_has_no_edges (ops : list (@op Wt)) g :
  respects_pre ops PtGraph_new = true →
  run ops PtGraph_new = Ok g →
  (Z.of_nat (length (is_free g)) < 2 ^ 32)%Z →
  ∃ v g', new_vertex g = Ok (v, g') ∧
    succs g' v = Ok [] ∧ preds g' v = Ok [].
Proof.
  intros Hpre Hrun Hlt.
  destruct (counted_run ops _ g counted_new Hpre Hrun) as [Hwf Hfree _ _].
  pose proof (slots_ok_run ops _ g wf_new slots_ok_new Hrun) as Hok.
  pose proof (wf_succs g Hwf) as Hls.
  destruct (new_vertex_fresh g Hwf Hok Hlt)
    as (v & g' & Hn & Hnl & Hl & _ & Hviews & _ & _).
  exists v, g'. split; [done|].
  pose proof (wf_new_vertex g v g' Hwf Hn) as Hwf'.
  assert (Hv' : v < length (is_free g')) by eauto using lookup_lt_Some.
  destruct (Hviews v) as [Hs Hp].
  assert (He : succ_of g v = ∅ ∧ pred_of g v = ∅).
  { destruct (is_free g !! v) as [[]|] eqn:Hb.
    - by apply Hfree.
    - done.
    - apply lookup_ge_None_1 in Hb. pose proof (wf_preds g Hwf).
      unfold succ_of, pred_of. rewrite !lookup_ge_None_2 by lia. done. }
  destruct He as [Hes Hep]. split.
  - rewrite succs_eq by (rewrite (wf_succs g' Hwf'); lia).
    by rewrite Hs, Hes, dom_empty_L, ascending_empty.
  - unfold preds.
    rewrite (vec_at_lookup _ _ _ (pred_of_lookup g' v
               ltac:(rewrite (wf_preds g' Hwf'); lia))); simpl.
    by rewrite Hp, Hep, ascending_empty.
Qed.

End allocation.

(** ** The adjacency check *)

Section check_adjs.
Context {Wt : Type}.
Implicit Types (g : @PtGraph Wt) (x y v s d : vert_id) (w : Wt).

(** [void check_adjs(void)].  Nothing is changed: the loops thread [tt]. *)
Definition check_adjs g : outcome unit :=
  vs ← verts g;
  for_each vs (λ v _,
    n ← succs_size g v;
    assert (bool_decide (n ≤ Z.of_nat (length (_succs g)))%Z);;
    ss ← succs g v;
    for_each ss (λ s _,
      assert (bool_decide (s < length (_succs g)));;
      b ← preds_mem g s v;
      assert b) tt;;
    n ← preds_size g v;
    assert (bool_decide (n ≤ Z.of_nat (length (_succs g)))%Z);;
    ps ← preds g v;
    for_each ps (λ p _,
      assert (bool_decide (p < length (_succs g)));;
      b ← succs_mem g p v;
      assert b) tt) tt.

Lemma for_each_checks {A} (l : list A) (body : A → unit → outcome unit) :
  for_each l body tt = Ok tt ↔ ∀ a, a ∈ l → body a tt = Ok tt.
Proof.
  induction l as [|a l IH]; simpl.
  - split; [|done]. intros _ a Ha. by apply not_elem_of_nil in Ha.
  - split.
    + intros ([] & Ha & Hl)%bind_Ok b [->|Hb]%elem_of_cons; [done|].
      by apply IH.
    + intros Hall. rewrite (Hall a) by left. simpl. apply IH.
      intros b Hb. apply Hall. by right.
Qed.

Lemma preds_eq g v :
  v < length (_preds g) → preds g v = Ok (ascending (pred_of g v)).
Proof.
  intros Hv. unfold preds.
  by rewrite (vec_at_lookup _ _ _ (pred_of_lookup g v Hv)).
Qed.

Lemma preds_mem_eq g y x :
  preds_mem g y x
  = if decide (y < length (_preds g))
    then Ok (bool_decide (x ∈ pred_of g y)) else Undefined.
Proof.
  unfold preds_mem. case_decide as Hy.
  - by rewrite (vec_at_lookup _ _ _ (pred_of_lookup g y Hy)).
  - by rewrite vec_at_ge by lia.
Qed.

Lemma size_below (X : gset nat) n : (∀ x, x ∈ X → x < n) → size X ≤ n.
Proof.
  intros HX.
  assert (Hn : size (list_to_set (seq 0 n) : gset nat) = n).
  { rewrite size_list_to_set by apply NoDup_seq. apply length_seq. }
  etrans; [|apply Nat.eq_le_incl, Hn]. apply subseteq_size. intros x Hx.
  apply elem_of_list_to_set, elem_of_seq. specialize (HX x Hx). lia.
Qed.

(** The body of the loop of [check_adjs] at a vertex [v]. *)
Lemma check_adjs_at g v :
  length (_preds g) = length (_succs g) →
  v < length (_succs g) →
  (n ← succs_size g v;
   assert (bool_decide (n ≤ Z.of_nat (length (_succs g)))%Z);;
   ss ← succs g v;
   for_each ss (λ s _,
     assert (bool_decide (s < length (_succs g)));;
     b ← preds_mem g s v;
     assert b) tt;;
   n ← preds_size g v;
   assert (bool_decide (n ≤ Z.of_nat (length (_succs g)))%Z);;
   ps ← preds g v;
   for_each ps (λ p _,
     assert (bool_decide (p < length (_succs g)));;
     b ← succs_mem g p v;
     assert b) tt) = Ok tt
  ↔ size (succ_of g v) ≤ length (_succs g) ∧
    (∀ y, y ∈ dom (succ_of g v) → y < length (_succs g) ∧ v ∈ pred_of g y) ∧
    size (pred_of g v) ≤ length (_succs g) ∧
    (∀ x, x ∈ pred_of g v → x < length (_succs g) ∧ v ∈ dom (succ_of g x)).
Proof.
  intros Hlp Hv.
  rewrite succs_size_eq, succs_eq, preds_size_eq, preds_eq by lia; simpl.
  assert (Hs : ∀ y,
    (assert (bool_decide (y < length (_succs g)));;
     b ← preds_mem g y v; assert b) = Ok tt
    ↔ y < length (_succs g) ∧ v ∈ pred_of g y).
  { intros y. rewrite preds_mem_eq, Hlp.
    destruct (decide (y < length (_succs g))) as [Hy|Hy].
    - rewrite (bool_decide_eq_true_2 (y < _)) by done; simpl.
      rewrite assert_Ok, bool_decide_eq_true. naive_solver.
    - rewrite (bool_decide_eq_false_2 (y < _)) by done; simpl. naive_solver. }
  assert (Hp : ∀ x,
    (assert (bool_decide (x < length (_succs g)));;
     b ← succs_mem g x v; assert b) = Ok tt
    ↔ x < length (_succs g) ∧ v ∈ dom (succ_of g x)).
  { intros x. fold (elem g x v). rewrite elem_eq.
    destruct (decide (x < length (_succs g))) as [Hx|Hx].
    - rewrite (bool_decide_eq_true_2 (x < _)) by done; simpl.
      rewrite assert_Ok, bool_decide_eq_true. naive_solver.
    - rewrite (bool_decide_eq_false_2 (x < _)) by done; simpl. naive_solver. }
  destruct (decide (size (succ_of g v) ≤ length (_succs g))) as [H1|H1].
  2:{ rewrite (bool_decide_eq_false_2
                 (Z.of_nat (size (succ_of g v)) ≤ _)%Z) by lia; simpl.
      naive_solver. }
  rewrite (bool_decide_eq_true_2
             (Z.of_nat (size (succ_of g v)) ≤ _)%Z) by lia; simpl.
  destruct (for_each (ascending (dom (succ_of g v))) _ tt) as [[]| |] eqn:Hl1;
    simpl.
  2,3: split; [done|]; intros (_ & Hall & _);
       assert (Hok : for_each (ascending (dom (succ_of g v)))
                 (λ s _, assert (bool_decide (s < length (_succs g)));;
                         b ← preds_mem g s v; assert b) tt = Ok tt)
         by (apply for_each_checks; intros y Hy%elem_of_ascending;
             by apply Hs, Hall);
       congruence.
  rewrite for_each_checks in Hl1.
  destruct (decide (size (pred_of g v) ≤ length (_succs g))) as [H2|H2].
  2:{ rewrite (bool_decide_eq_false_2
                 (Z.of_nat (size (pred_of g v)) ≤ _)%Z) by lia; simpl.
      naive_solver. }
  rewrite (bool_decide_eq_true_2
             (Z.of_nat (size (pred_of g v)) ≤ _)%Z) by lia; simpl.
  rewrite for_each_checks. split.
  - intros Hl2. repeat split; try done.
    + by apply Hs, Hl1, elem_of_ascending.
    + by apply Hs, Hl1, elem_of_ascending.
    + by apply Hp, Hl2, elem_of_ascending.
    + by apply Hp, Hl2, elem_of_ascending.
  - intros (_ & _ & _ & Hall) x Hx%elem_of_ascending. by apply Hp, Hall.
Qed.

End check_adjs.

Section check_adjs_properties.
Context {Wt : Type}.
Implicit Types (g : @PtGraph Wt) (x y v s d : vert_id) (w : Wt).

Lemma check_adjs_iff g :
  length (_succs g) = length (is_free g) →
  length (_preds g) = length (is_free g) →
  check_adjs g = Ok tt
  ↔ ∀ v, live g v → v < vert_range_end (is_free g) →
      size (succ_of g v) ≤ length (_succs g) ∧
      (∀ y, y ∈ dom (succ_of g v) → y < length (_succs g) ∧ v ∈ pred_of g y) ∧
      size (pred_of g v) ≤ length (_succs g) ∧
      (∀ x, x ∈ pred_of g v → x < length (_succs g) ∧ v ∈ dom (succ_of g x)).
Proof.
  intros Hls Hlp. unfold check_adjs. rewrite verts_walked; simpl.
  rewrite for_each_checks. split.
  - intros Hall v Hv Hend.
    apply check_adjs_at; [lia| |by apply Hall, elem_of_walked_verts].
    apply lookup_lt_Some in Hv. lia.
  - intros Hall v [Hv Hend]%elem_of_walked_verts.
    apply check_adjs_at; [lia| |by apply Hall].
    apply lookup_lt_Some in Hv. lia.
Qed.

(** X5.  [check_adjs()] passes in every state reached from [PtGraph()]
    by calls of [new_vertex], [growTo], [forget], [add_edge], [set_edge]
    and [update_edge]: none of its [assert]s fails, whatever calls of
    these were made. *)
Theorem check_adjs_passes (ops : list (@op Wt)) g :
  run ops PtGraph_new = Ok g → check_adjs g = Ok tt.
Proof.
  intros Hrun. pose proof (wf_run ops _ g wf_new Hrun) as Hwf.
  pose proof (wf_succs g Hwf) as Hls. pose proof (wf_preds g Hwf) as Hlp.
  apply check_adjs_iff; [done..|]. intros v Hv _.
  split; [|split; [|split]].
  - rewrite <- size_dom. apply size_below. intros y Hy.
    rewrite Hls. by eapply wf_range.
  - intros y Hy. split; [rewrite Hls; by eapply wf_range|].
    by apply (wf_edge g v y Hwf).
  - apply size_below. intros x Hx. rewrite Hls. by eapply wf_pred_range.
  - intros x Hx. split; [rewrite Hls; by eapply wf_pred_range|].
    by apply (wf_edge g x v Hwf).
Qed.

(** X6.  What a passing [check_adjs()] shows, on a state of fewer than
    [2 ^ 32] slots whose three vectors have one length: at every live
    vertex [v], each successor of [v] is an allocated slot that has [v]
    among its predecessors, and each predecessor of [v] is an allocated
    slot that has [v] among its successors.  Free slots are not looked
    at. *)
Theorem check_adjs_sound g :
  length (_succs g) = length (is_free g) →
  length (_preds g) = length (is_free g) →
  (Z.of_nat (length (is_free g)) < 2 ^ 32)%Z →
  check_adjs g = Ok tt →
  ∀ v, live g v →
    (∀ y, elem g v y = Ok true →
       y < length (is_free g) ∧ preds_mem g y v = Ok true) ∧
    (∀ x, preds_mem g v x = Ok true →
       x < length (is_free g) ∧ elem g x v = Ok true).
Proof.
  intros Hls Hlp Hlt Hchk v Hv.
  assert (Hvl : v < length (is_free g)) by eauto using lookup_lt_Some.
  destruct (proj1 (check_adjs_iff g Hls Hlp) Hchk v Hv)
    as (_ & Hsucc & _ & Hpred); [by rewrite vert_range_end_small|].
  split.
  - intros y Hy. rewrite elem_eq, decide_True in Hy by lia.
    injection Hy as Hy%bool_decide_eq_true.
    destruct (Hsucc y Hy) as [Hyl Hin]. split; [lia|].
    rewrite preds_mem_eq, decide_True by lia.
    by rewrite bool_decide_eq_true_2.
  - intros x Hx. rewrite preds_mem_eq, decide_True in Hx by lia.
    injection Hx as Hx%bool_decide_eq_true.
    destruct (Hpred x Hx) as [Hxl Hin]. split; [lia|].
    rewrite elem_eq, decide_True by lia.
    by rewrite bool_decide_eq_true_2.
Qed.

End check_adjs_properties.

Lemma check_adjs_passes_witness : check_adjs (state_after example_ops) = Ok tt.
Proof.
  apply (check_adjs_passes example_ops). vm_compute. reflexivity.
Defined.

Lemma check_adjs_sound_witness :
  (∀ y, elem one_edge 0 y = Ok true →
     y < length (is_free one_edge) ∧ preds_mem one_edge y 0 = Ok true) ∧
  (∀ x, preds_mem one_edge 0 x = Ok true →
     x < length (is_free one_edge) ∧ elem one_edge x 0 = Ok true).
Proof.
  apply (check_adjs_sound one_edge); vm_compute; reflexivity.
Defined.

Lemma slot_accounting_witness :
  NoDup (free_id two_freed) ∧
  (∀ v, v ∈ free_id two_freed ↔ is_free two_freed !! v = Some true) ∧
  (∀ v, v ∈ free_id two_freed → v < length (is_free two_freed)) ∧
  length (_succs two_freed) = length (is_free two_freed) ∧
  length (_preds two_freed) = length (is_free two_freed).
Proof.
  apply (slot_accounting [NewVertex; NewVertex; Forget 0; Forget 1]).
  vm_compute. reflexivity.
Defined.

Lemma live_and_free_make_up_the_slots_witness :
  length (live_verts (state_after example_ops))
  + length (free_id (state_after example_ops))
  = length (is_free (state_after example_ops)).
Proof.
  apply (live_and_free_make_up_the_slots example_ops). vm_compute. reflexivity.
Defined.

Lemma new_vertex_hands_out_a_fresh_vertex_witness :
  ∃ v g', new_vertex two_freed = Ok (v, g') ∧
    ¬ live two_freed v ∧ live g' v ∧
    (∀ u, u ≠ v → live g' u ↔ live two_freed u) ∧
    (∀ x y, x < length (is_free two_freed) →
       elem g' x y = elem two_freed x y ∧
       edge_val g' x y = edge_val two_freed x y) ∧
    edge_count g' = edge_count two_freed.
Proof.
  apply (new_vertex_hands_out_a_fresh_vertex
           [NewVertex; NewVertex; Forget 0; Forget 1]);
    vm_compute; reflexivity.
Defined.

Lemma new_vertex_has_no_edges_witness :
  ∃ v g', new_vertex (state_after [NewVertex; NewVertex; AddEdge 0 5%Z 1;
                                   Forget 1]) = Ok (v, g') ∧
    succs g' v = Ok [] ∧ preds g' v = Ok [].
Proof.
  apply (new_vertex_has_no_edges
           [NewVertex; NewVertex; AddEdge 0 5%Z 1; Forget 1]);
    vm_compute; reflexivity.
Defined.

(** ** More on [forget] *)

Section forget_more.
Context {Wt : Type}.
Implicit Types (g : @PtGraph Wt) (x y v s d : vert_id) (w : Wt).

Lemma for_each_inv {A S} (P : S → Prop) (l : list A)
    (body : A → S → outcome S) (t0 t1 : S) :
  (∀ a t t', body a t = Ok t' → P t → P t') →
  P t0 → for_each l body t0 = Ok t1 → P t1.
Proof.
  intros Hbody. revert t0; induction l as [|a l IH]; intros t0 Ht0; simpl.
  - by intros [= <-].
  - intros (t & Ha & Hl)%bind_Ok. eauto.
Qed.

Lemma live_verts_forget g v :
  v < length (is_free g) →
  live_verts (forget_result g v) = filter (λ u, u ≠ v) (live_verts g).
Proof.
  intros Hv. unfold live_verts; simpl. rewrite length_insert.
  rewrite list_filter_filter. apply list_filter_iff. intros u.
  destruct (decide (u = v)) as [->|Hu].
  - rewrite list_lookup_insert_eq by done. naive_solver.
  - rewrite list_lookup_insert_ne by done. naive_solver.
Qed.

(** X7.  In a state reached from [PtGraph()], [forget(v)] of a live
    vertex leaves every edge that does not touch [v] in place, with its
    weight; the other vertices stay as they are, so [verts()] (in a
    graph of fewer than [2 ^ 32] slots) is as before without [v], and
    [size()] does not change. *)
Theorem forget_touches_only_incident_edges (ops : list (@op Wt)) g v :
  run ops PtGraph_new = Ok g → live g v →
  ∃ g', forget g v = Ok g' ∧
    (∀ x y, x ≠ v → y ≠ v →
       elem g' x y = elem g x y ∧ edge_val g' x y = edge_val g x y) ∧
    (∀ u, u ≠ v → is_free g' !! u = is_free g !! u) ∧
    ((Z.of_nat (length (is_free g)) < 2 ^ 32)%Z →
     verts g' = Ok (filter (λ u, u ≠ v) (live_verts g))) ∧
    size_ g' = size_ g.
Proof.
  intros Hrun Hlive. pose proof (wf_run ops _ g wf_new Hrun) as Hwf.
  assert (Hv : v < length (is_free g)) by eauto using lookup_lt_Some.
  exists (forget_result g v). rewrite forget_live by done.
  split; [done|]. split; [|split; [|split]].
  - intros x y Hx Hy.
    assert (Hsame : succ_of (forget_result g v) x !! y = succ_of g x !! y).
    { rewrite succ_of_forget, decide_False by done.
      by rewrite lookup_delete_ne. }
    assert (Hlen : length (_succs (forget_result g v)) = length (_succs g)).
    { simpl. by rewrite length_alter_all, length_alter. }
    rewrite !elem_eq, !edge_val_eq, Hlen, Hsame.
    split; [|done]. case_decide; [|done]. f_equal.
    apply bool_decide_ext. by rewrite !elem_of_dom, Hsame.
  - intros u Hu. simpl. by rewrite list_lookup_insert_ne.
  - intros Hlt. rewrite verts_eq by (simpl; by rewrite length_insert).
    by rewrite live_verts_forget.
  - apply size_same_length. simpl. apply length_insert.
Qed.

(** What a returning [forget] has done to the marks. *)
Lemma forget_Ok_marks g v g' :
  forget g v = Ok g' →
  v < length (_succs g') ∧ is_free g' !! v = Some true.
Proof.
  unfold forget. intros ([] & Hassert%assert_Ok & H)%bind_Ok.
  apply bool_decide_eq_true in Hassert.
  apply bind_Ok in H as (fr & Hfr%vec_at_Ok & H). destruct fr.
  { injection H as <-. done. }
  apply bind_Ok in H as (f & Hf & H).
  unfold vec_set in Hf; simpl in Hf. case_decide as Hv; [|done].
  injection Hf as <-.
  set (P := λ t : @PtGraph Wt,
         is_free t = <[v:=true]> (is_free g) ∧
         length (_succs t) = length (_succs g)).
  assert (HP : P g').
  { apply bind_Ok in H as (n1 & _ & H). apply bind_Ok in H as (ds & _ & H).
    apply bind_Ok in H as (g1 & H1 & H).
    assert (P g1) as HP1.
    { apply (for_each_inv P _ _ _ _) in H1; [done| |done].
      intros a t t'. rewrite preds_remove_eq. case_decide; [|done].
      by intros [= <-]. }
    apply bind_Ok in H as (g2 & H2 & H).
    assert (P g2) as HP2.
    { revert H2. rewrite succs_clear_eq. case_decide; [|done].
      intros [= <-]. destruct HP1 as [? ?]. split; [done|]. simpl.
      by rewrite length_alter. }
    apply bind_Ok in H as (n2 & _ & H). apply bind_Ok in H as (ps & _ & H).
    apply bind_Ok in H as (g3 & H3 & H).
    assert (P g3) as HP3.
    { apply (for_each_inv P _ _ _ _) in H3; [done| |done].
      intros a t t'. rewrite succs_remove_eq. case_decide; [|done].
      intros [= <-] [? ?]. split; [done|]. simpl. by rewrite length_alter. }
    revert H. rewrite preds_clear_eq. case_decide; [|done].
    intros [= <-]. done. }
  destruct HP as [Hi Hl]. rewrite Hi, Hl. split; [done|].
  by rewrite list_lookup_insert_eq.
Qed.

(** X8.  [forget] twice is [forget] once: when [forget(v)] returns, a
    second [forget(v)] returns too and changes nothing. *)
Theorem forget_twice g v g' :
  forget g v = Ok g' → forget g' v = Ok g'.
Proof.
  intros [Hv Hf]%forget_Ok_marks. by apply forget_free.
Qed.

End forget_more.

Lemma forget_touches_only_incident_edges_witness :
  ∃ g', forget (state_after example_ops) 0 = Ok g' ∧
    (∀ x y, x ≠ 0 → y ≠ 0 →
       elem g' x y = elem (state_after example_ops) x y ∧
       edge_val g' x y = edge_val (state_after example_ops) x y) ∧
    (∀ u, u ≠ 0 →
       is_free g' !! u = is_free (state_after example_ops) !! u) ∧
    ((Z.of_nat (length (is_free (state_after example_ops))) < 2 ^ 32)%Z →
     verts g'
     = Ok (filter (λ u, u ≠ 0) (live_verts (state_after example_ops)))) ∧
    size_ g' = size_ (state_after example_ops).
Proof.
  apply (forget_touches_only_incident_edges example_ops);
    vm_compute; reflexivity.
Defined.

Lemma forget_twice_witness :
  forget (forget_result one_edge 0) 0 = Ok (forget_result one_edge 0).
Proof.
  apply (forget_twice one_edge 0). vm_compute. reflexivity.
Defined.

(** ** Which calls return, and what they leave alone *)

(** A call returns. *)
Definition returns {A} (m : outcome A) : Prop := ∃ a, m = Ok a.

Section frames.
Context {Wt : Type}.
Implicit Types (g : @PtGraph Wt) (x y v s d : vert_id) (w : Wt).

Lemma same_binding_same_answers g g' x y :
  length (_succs g') = length (_succs g) →
  succ_of g' x !! y = succ_of g x !! y →
  elem g' x y = elem g x y ∧ edge_val g' x y = edge_val g x y.
Proof.
  intros Hlen Hsame. rewrite !elem_eq, !edge_val_eq, Hlen, Hsame.
  split; [|done]. case_decide; [|done]. f_equal.
  apply bool_decide_ext. by rewrite !elem_of_dom, Hsame.
Qed.

(** X9.  In a state reached from [PtGraph()], with [n] slots: [forget(v)]
    returns exactly when [v < n]; [add_edge(x, w, y)] and
    [set_edge(x, w, y)] return exactly when [x < n] and [y < n];
    [update_edge(s, w, d, op)] returns exactly when [s < n] and either
    [d < n] or [op.default_is_absorbing()] (it then never looks at the
    slot of [d]); [elem(x, y)] returns exactly when [x < n].  Whether the
    slots are live or free plays no part. *)
Theorem calls_return_on_allocated_slots (ops : list (@op Wt)) g :
  run ops PtGraph_new = Ok g →
  (∀ v, returns (forget g v) ↔ v < length (is_free g)) ∧
  (∀ x w y, returns (add_edge g x w y)
            ↔ x < length (is_free g) ∧ y < length (is_free g)) ∧
  (∀ x w y, returns (set_edge g x w y)
            ↔ x < length (is_free g) ∧ y < length (is_free g)) ∧
  (∀ s w d (op : @MergeOp Wt),
     returns (update_edge g s w d op)
     ↔ s < length (is_free g) ∧
       (d < length (is_free g) ∨ default_is_absorbing op = true)) ∧
  (∀ x y, returns (elem g x y) ↔ x < length (is_free g)).
Proof.
  intros Hrun. pose proof (wf_run ops _ g wf_new Hrun) as Hwf.
  pose proof (wf_succs g Hwf) as Hls. pose proof (wf_preds g Hwf) as Hlp.
  assert (Hadd : ∀ x w y, returns (add_edge g x w y)
            ↔ x < length (is_free g) ∧ y < length (is_free g)).
  { intros x w y. rewrite add_edge_eq, Hls, Hlp. unfold returns.
    repeat case_decide; split; try (intros [? ?]; done); try lia; eauto. }
  split; [|split; [done|split; [|split]]].
  - intros v. unfold returns. split.
    + intros [g' Hg']. destruct (decide (v < length (is_free g))); [done|].
      rewrite forget_out_of_range in Hg' by lia. done.
    + intros Hv.
      destruct (lookup_lt_is_Some_2 (is_free g) v Hv) as [[] Hb].
      * exists g. apply forget_free; [lia|done].
      * eexists. by apply forget_live.
  - intros x w y. rewrite set_edge_eq, Hls.
    case_decide as Hx; [|unfold returns; split; [by intros [? ?]|lia]].
    case_decide as Hy; [|rewrite Hadd; done].
    unfold returns. split; [|eauto]. intros _. split; [done|].
    by eapply wf_range.
  - intros s w d op. rewrite update_edge_eq, Hls.
    case_decide as Hs; [|unfold returns; split; [by intros [? ?]|lia]].
    destruct (succ_of g s !! d) as [cur|] eqn:Hd.
    + unfold returns. split; [|eauto]. intros _. split; [done|]. left.
      eapply (wf_range g Hwf s). apply elem_of_dom. eauto.
    + destruct (default_is_absorbing op).
      * unfold returns. split; eauto.
      * rewrite Hadd. naive_solver.
  - intros x y. rewrite elem_eq, Hls. unfold returns.
    case_decide; split; eauto; [by intros [? ?] | lia].
Qed.

Lemma add_edge_frame g x w y g' :
  add_edge g x w y = Ok g' →
  elem g' x y = Ok true ∧ edge_val g' x y = Ok w ∧
  edge_count g' = uint32 (edge_count g + 1) ∧
  (∀ x' y', (x', y') ≠ (x, y) →
     elem g' x' y' = elem g x' y' ∧ edge_val g' x' y' = edge_val g x' y') ∧
  is_free g' = is_free g ∧ free_id g' = free_id g.
Proof.
  rewrite add_edge_eq. case_decide as Hx; [|done]. case_decide as Hy; [|done].
  intros [= <-].
  destruct (add_edge_adds g x w y Hx Hy) as (g' & Hg' & He & Hv & Hc).
  rewrite add_edge_eq, !decide_True in Hg' by done. injection Hg' as <-.
  repeat (split; [done|]). split; [|done].
  intros x' y' Hne. apply same_binding_same_answers.
  - simpl. apply length_alter.
  - rewrite succ_of_add_edge by done. case_decide; [subst|done].
    apply lookup_insert_ne. congruence.
Qed.

(** X10.  Whenever [add_edge(x, wt, y)] returns, the edge [(x, y)] is
    there with weight [wt] and [edge_count] has gone up by one (as an
    [unsigned int]), also when the edge was there before: then its
    weight is replaced and it is counted a second time.  Every other
    pair of vertices is as before, and so are the marks and the
    free-list. *)
Theorem add_edge_effect g x w y g' :
  add_edge g x w y = Ok g' →
  elem g' x y = Ok true ∧ edge_val g' x y = Ok w ∧
  edge_count g' = uint32 (edge_count g + 1) ∧
  (∀ x' y', (x', y') ≠ (x, y) →
     elem g' x' y' = elem g x' y' ∧ edge_val g' x' y' = edge_val g x' y') ∧
  is_free g' = is_free g ∧ free_id g' = free_id g.
Proof. apply add_edge_frame. Qed.

Lemma set_edge_frame g s w d g' :
  set_edge g s w d = Ok g' →
  elem g' s d = Ok true ∧ edge_val g' s d = Ok w ∧
  (∃ b, elem g s d = Ok b ∧
     edge_count g'
     = if b : bool then edge_count g else uint32 (edge_count g + 1)) ∧
  (∀ x' y', (x', y') ≠ (s, d) →
     elem g' x' y' = elem g x' y' ∧ edge_val g' x' y' = edge_val g x' y') ∧
  is_free g' = is_free g ∧ free_id g' = free_id g.
Proof.
  rewrite set_edge_eq. case_decide as Hs; [|done].
  case_decide as Hd.
  - intros [= <-].
    split; [|split; [|split; [|split]]].
    + rewrite elem_eq; simpl. rewrite length_alter, decide_True by done.
      rewrite succ_of_overwrite, decide_True by done.
      rewrite bool_decide_eq_true_2; [done|]. rewrite dom_insert_L. set_solver.
    + by apply edge_val_overwrite.
    + exists true. split; [|done].
      by rewrite elem_eq, decide_True, bool_decide_eq_true_2.
    + intros x' y' Hne. apply same_binding_same_answers.
      * simpl. apply length_alter.
      * rewrite succ_of_overwrite by done. case_decide; [subst|done].
        apply lookup_insert_ne. congruence.
    + done.
  - intros Hadd.
    destruct (add_edge_frame g s w d g' Hadd) as (He & Hv & Hc & Hfr & Hm).
    repeat (split; [done|]). split; [|done].
    exists false. split; [|done].
    by rewrite elem_eq, decide_True, bool_decide_eq_false_2.
Qed.

(** X11.  Whenever [set_edge(s, w, d)] returns, the edge [(s, d)] is
    there with weight [w]; [edge_count] is as before if the edge was
    there and one more if it was not; every other pair of vertices is as
    before, and so are the marks and the free-list. *)
Theorem set_edge_effect g s w d g' :
  set_edge g s w d = Ok g' →
  elem g' s d = Ok true ∧ edge_val g' s d = Ok w ∧
  (∃ b, elem g s d = Ok b ∧
     edge_count g'
     = if b : bool then edge_count g else uint32 (edge_count g + 1)) ∧
  (∀ x' y', (x', y') ≠ (s, d) →
     elem g' x' y' = elem g x' y' ∧ edge_val g' x' y' = edge_val g x' y') ∧
  is_free g' = is_free g ∧ free_id g' = free_id g.
Proof. apply set_edge_frame. Qed.

(** X12.  Whenever [update_edge(s, w, d, op)] returns, every pair of
    vertices other than [(s, d)] is as before, an edge [(s, d)] that was
    there is still there, and the marks and the free-list are as before.
    With [op.default_is_absorbing()] no edge is added: the edges are the
    same and [edge_count] is as before; only the weight of [(s, d)] may
    have changed. *)
Theorem update_edge_effect g s w d (op : @MergeOp Wt) g' :
  update_edge g s w d op = Ok g' →
  (∀ x' y', (x', y') ≠ (s, d) →
     elem g' x' y' = elem g x' y' ∧ edge_val g' x' y' = edge_val g x' y') ∧
  (elem g s d = Ok true → elem g' s d = Ok true) ∧
  is_free g' = is_free g ∧ free_id g' = free_id g ∧
  (default_is_absorbing op = true →
     (∀ x' y', elem g' x' y' = elem g x' y') ∧
     edge_count g' = edge_count g).
Proof.
  rewrite update_edge_eq. case_decide as Hs; [|done].
  destruct (succ_of g s !! d) as [cur|] eqn:Hd.
  - intros [= <-].
    assert (Hfr : ∀ x' y', (x', y') ≠ (s, d) →
      elem (overwrite_result g s (apply op cur w) d) x' y' = elem g x' y' ∧
      edge_val (overwrite_result g s (apply op cur w) d) x' y'
      = edge_val g x' y').
    { intros x' y' Hne. apply same_binding_same_answers.
      - simpl. apply length_alter.
      - rewrite succ_of_overwrite by done. case_decide; [subst|done].
        apply lookup_insert_ne. congruence. }
    assert (Hsd : elem (overwrite_result g s (apply op cur w) d) s d = Ok true).
    { rewrite elem_eq; simpl. rewrite length_alter, decide_True by done.
      rewrite succ_of_overwrite, decide_True by done.
      rewrite bool_decide_eq_true_2; [done|]. rewrite dom_insert_L. set_solver. }
    repeat (split; [done|]). intros _. split; [|done].
    intros x' y'. destruct (decide ((x', y') = (s, d))) as [[= -> ->]|Hne].
    + rewrite Hsd, elem_eq, decide_True by done.
      rewrite bool_decide_eq_true_2; [done|]. apply elem_of_dom. eauto.
    + by apply Hfr.
  - destruct (default_is_absorbing op) eqn:Hop.
    + intros [= <-]. repeat (split; [done|]). done.
    + intros Hadd.
      destruct (add_edge_frame g s w d g' Hadd)
        as (He & Hv & Hc & Hfr & Hm1 & Hm2).
      split; [done|]. split; [done|]. split; [done|]. split; [done|].
      intros [=].
Qed.

End frames.

Lemma calls_return_on_allocated_slots_witness :
  (∀ v, returns (forget two_freed v) ↔ v < length (is_free two_freed)) ∧
  (∀ x w y, returns (add_edge two_freed x w y)
            ↔ x < length (is_free two_freed) ∧ y < length (is_free two_freed)) ∧
  (∀ x w y, returns (set_edge two_freed x w y)
            ↔ x < length (is_free two_freed) ∧ y < length (is_free two_freed)) ∧
  (∀ s w d (op : @MergeOp Z),
     returns (update_edge two_freed s w d op)
     ↔ s < length (is_free two_freed) ∧
       (d < length (is_free two_freed) ∨ default_is_absorbing op = true)) ∧
  (∀ x y, returns (elem two_freed x y) ↔ x < length (is_free two_freed)).
Proof.
  apply (calls_return_on_allocated_slots
           [NewVertex; NewVertex; Forget 0; Forget 1]).
  vm_compute. reflexivity.
Defined.

Lemma add_edge_effect_witness :
  elem (add_edge_result one_edge 0 9%Z 1) 0 1 = Ok true ∧
  edge_val (add_edge_result one_edge 0 9%Z 1) 0 1 = Ok 9%Z ∧
  edge_count (add_edge_result one_edge 0 9%Z 1)
  = uint32 (edge_count one_edge + 1) ∧
  (∀ x' y', (x', y') ≠ (0, 1) →
     elem (add_edge_result one_edge 0 9%Z 1) x' y' = elem one_edge x' y' ∧
     edge_val (add_edge_result one_edge 0 9%Z 1) x' y'
     = edge_val one_edge x' y') ∧
  is_free (add_edge_result one_edge 0 9%Z 1) = is_free one_edge ∧
  free_id (add_edge_result one_edge 0 9%Z 1) = free_id one_edge.
Proof.
  apply (add_edge_effect one_edge 0 9%Z 1). vm_compute. reflexivity.
Defined.

Lemma set_edge_effect_witness :
  elem (add_edge_result one_edge 1 3%Z 0) 1 0 = Ok true ∧
  edge_val (add_edge_result one_edge 1 3%Z 0) 1 0 = Ok 3%Z ∧
  (∃ b, elem one_edge 1 0 = Ok b ∧
     edge_count (add_edge_result one_edge 1 3%Z 0)
     = if b : bool then edge_count one_edge
       else uint32 (edge_count one_edge + 1)) ∧
  (∀ x' y', (x', y') ≠ (1, 0) →
     elem (add_edge_result one_edge 1 3%Z 0) x' y' = elem one_edge x' y' ∧
     edge_val (add_edge_result one_edge 1 3%Z 0) x' y'
     = edge_val one_edge x' y') ∧
  is_free (add_edge_result one_edge 1 3%Z 0) = is_free one_edge ∧
  free_id (add_edge_result one_edge 1 3%Z 0) = free_id one_edge.
Proof.
  apply (set_edge_effect one_edge 1 3%Z 0). vm_compute. reflexivity.
Defined.

Lemma update_edge_effect_witness :
  (∀ x' y', (x', y') ≠ (0, 1) →
     elem (overwrite_result one_edge 0 3%Z 1) x' y' = elem one_edge x' y' ∧
     edge_val (overwrite_result one_edge 0 3%Z 1) x' y'
     = edge_val one_edge x' y') ∧
  (elem one_edge 0 1 = Ok true →
   elem (overwrite_result one_edge 0 3%Z 1) 0 1 = Ok true) ∧
  is_free (overwrite_result one_edge 0 3%Z 1) = is_free one_edge ∧
  free_id (overwrite_result one_edge 0 3%Z 1) = free_id one_edge ∧
  (default_is_absorbing min_op = true →
     (∀ x' y', elem (overwrite_result one_edge 0 3%Z 1) x' y'
               = elem one_edge x' y') ∧
     edge_count (overwrite_result one_edge 0 3%Z 1) = edge_count one_edge).
Proof.
  apply (update_edge_effect one_edge 0 3%Z 1 min_op). vm_compute. reflexivity.
Defined.

(** ** Emptiness, clearing and the two views *)

Section clearing.
Context {Wt : Type}.
Implicit Types (g : @PtGraph Wt) (x y v s d : vert_id) (w : Wt).

Lemma sum_list_with_0 {A} (f : A → nat) (l : list A) :
  sum_list_with f l = 0 ↔ ∀ a, a ∈ l → f a = 0.
Proof.
  induction l as [|a l IH]; simpl.
  - split; [|done]. intros _ a Ha. by apply not_elem_of_nil in Ha.
  - split.
    + intros Hs b [->|Hb]%elem_of_cons; [lia|]. apply IH; [lia|done].
    + intros Hall. rewrite (Hall a) by left.
      simpl. apply IH. intros b Hb. apply Hall. by right.
Qed.

Lemma no_edge_iff g :
  succ_sum g = 0 ↔ ∀ x y, elem g x y ≠ Ok true.
Proof.
  unfold succ_sum. rewrite sum_list_with_0. split.
  - intros Hall x y. rewrite elem_eq. case_decide as Hx; [|done].
    pose proof (succ_of_lookup g x Hx) as Hm.
    apply list_elem_of_lookup_2, Hall, map_size_empty_iff in Hm.
    rewrite Hm, dom_empty_L. rewrite bool_decide_eq_false_2; [done|].
    apply not_elem_of_empty.
  - intros Hno m [x Hm]%list_elem_of_lookup_1.
    apply map_size_empty_iff, map_empty. intros y.
    destruct (m !! y) as [w|] eqn:Hy; [|done]. exfalso.
    apply (Hno x y). rewrite elem_eq, decide_True by eauto using lookup_lt_Some.
    unfold succ_of. rewrite Hm; simpl.
    rewrite bool_decide_eq_true_2; [done|]. apply elem_of_dom. eauto.
Qed.

(** X13.  When the calls respect the preconditions and the graph holds
    fewer than [2 ^ 32] edges, [is_empty()] says whether there is an
    edge: it is true exactly when [elem(x, y)] holds for no [x], [y]. *)
Theorem is_empty_iff_no_edge (ops : list (@op Wt)) g :
  respects_pre ops PtGraph_new = true →
  run ops PtGraph_new = Ok g →
  (Z.of_nat (live_succ_sum g) < 2 ^ 32)%Z →
  is_empty g = true ↔ ∀ x y, elem g x y ≠ Ok true.
Proof.
  intros Hpre Hrun Hlt.
  destruct (counted_run ops _ g counted_new Hpre Hrun) as [Hwf Hfree Hcnt _].
  rewrite live_succ_sum_eq in Hlt by done.
  rewrite <- no_edge_iff. unfold is_empty.
  rewrite bool_decide_eq_true, Hcnt, uint32_small by lia. lia.
Qed.

(** The loop of [clear_edges] over the vertices [vs]. *)
Lemma for_each_clear vs g :
  (∀ v, v ∈ vs → v < length (_succs g) ∧ v < length (_preds g)) →
  for_each vs (λ v g, g ← succs_clear g v; preds_clear g v) g
  = Ok {| edge_count := edge_count g;
          _succs := alter_all (λ _, ∅) vs (_succs g);
          _preds := alter_all (λ _, ∅) vs (_preds g);
          is_free := is_free g;
          free_id := free_id g |}.
Proof.
  revert g; induction vs as [|v vs IH]; intros g Hr; simpl.
  - by destruct g.
  - destruct (Hr v) as [Hs Hp]; [left|].
    rewrite succs_clear_eq, decide_True by done; simpl.
    rewrite preds_clear_eq; simpl. rewrite decide_True by done; simpl.
    rewrite IH; [done|]. intros u Hu; simpl. rewrite !length_alter.
    apply Hr. by right.
Qed.

(** The state [clear_edges] leaves, and its two views. *)
Definition clear_edges_result g : PtGraph :=
  {| edge_count := 0;
     _succs := alter_all (λ _, ∅) (walked_verts g) (_succs g);
     _preds := alter_all (λ _, ∅) (walked_verts g) (_preds g);
     is_free := is_free g;
     free_id := free_id g |}.

Lemma clear_edges_eq g :
  length (_succs g) = length (is_free g) →
  length (_preds g) = length (is_free g) →
  clear_edges g = Ok (clear_edges_result g) ∧
  ∀ v, succ_of (clear_edges_result g) v
       = (if decide (v ∈ walked_verts g) then ∅ else succ_of g v) ∧
       pred_of (clear_edges_result g) v
       = (if decide (v ∈ walked_verts g) then ∅ else pred_of g v).
Proof.
  intros Hls Hlp.
  assert (Hr : ∀ v, v ∈ walked_verts g →
                    v < length (_succs g) ∧ v < length (_preds g)).
  { intros v [Hv _]%elem_of_walked_verts. apply lookup_lt_Some in Hv. lia. }
  split.
  - unfold clear_edges. rewrite verts_walked; simpl.
    by rewrite for_each_clear.
  - intros v. unfold succ_of, pred_of; simpl.
    rewrite !slot_alter_all by
      (apply NoDup_walked_verts || (intros u Hu; by apply Hr)).
    done.
Qed.

(** X14.  In a state reached from [PtGraph()], [clear_edges()] returns
    with [edge_count] at 0; in a graph of fewer than [2 ^ 32] slots
    every live vertex is left without successors and predecessors; the
    marks, the free-list and [size()] are as before.  The containers of
    the free slots are not touched. *)
Theorem clear_edges_clears_live_vertices (ops : list (@op Wt)) g :
  run ops PtGraph_new = Ok g →
  ∃ g', clear_edges g = Ok g' ∧
    is_empty g' = true ∧
    is_free g' = is_free g ∧ free_id g' = free_id g ∧ size_ g' = size_ g ∧
    ((Z.of_nat (length (is_free g)) < 2 ^ 32)%Z →
     ∀ v, live g v → succs g' v = Ok [] ∧ preds g' v = Ok []) ∧
    (∀ v, ¬ live g v →
       succ_of g' v = succ_of g v ∧ pred_of g' v = pred_of g v).
Proof.
  intros Hrun. pose proof (wf_run ops _ g wf_new Hrun) as Hwf.
  pose proof (wf_succs g Hwf) as Hls. pose proof (wf_preds g Hwf) as Hlp.
  destruct (clear_edges_eq g Hls Hlp) as [Heq Hviews].
  exists (clear_edges_result g). split; [done|].
  repeat (split; [done|]). split.
  - intros Hlt v Hv. destruct (Hviews v) as [Hs Hp].
    assert (Hvl : v < length (is_free g)) by eauto using lookup_lt_Some.
    assert (Hw : v ∈ walked_verts g).
    { apply elem_of_walked_verts. by rewrite vert_range_end_small. }
    rewrite decide_True in Hs by done. rewrite decide_True in Hp by done.
    rewrite succs_eq, preds_eq
      by (simpl; rewrite length_alter_all; lia).
    by rewrite Hs, Hp, dom_empty_L, ascending_empty.
  - intros v Hv. destruct (Hviews v) as [Hs Hp].
    assert (Hw : v ∉ walked_verts g).
    { by intros [? _]%elem_of_walked_verts. }
    rewrite decide_False in Hs by done. by rewrite decide_False in Hp by done.
Qed.

(** X15.  When the calls made so far respect the preconditions, in a
    graph of fewer than [2 ^ 32] slots [clear_edges()] leaves no edge at
    all, in either view. *)
Theorem clear_edges_leaves_no_edge (ops : list (@op Wt)) g :
  respects_pre ops PtGraph_new = true →
  run ops PtGraph_new = Ok g →
  (Z.of_nat (length (is_free g)) < 2 ^ 32)%Z →
  ∃ g', clear_edges g = Ok g' ∧
    (∀ x y, elem g' x y ≠ Ok true) ∧
    (∀ x y, preds_mem g' y x ≠ Ok true) ∧
    edge_count g' = 0%Z.
Proof.
  intros Hpre Hrun Hlt.
  destruct (counted_run ops _ g counted_new Hpre Hrun) as [Hwf Hfree _ _].
  pose proof (wf_succs g Hwf) as Hls. pose proof (wf_preds g Hwf) as Hlp.
  destruct (clear_edges_eq g Hls Hlp) as [Heq Hviews].
  exists (clear_edges_result g). split; [done|].
  assert (Hnone : ∀ v, succ_of (clear_edges_result g) v = ∅ ∧
                       pred_of (clear_edges_result g) v = ∅).
  { intros v. destruct (Hviews v) as [-> ->].
    case_decide as Hv; [done|].
    destruct (is_free g !! v) as [[]|] eqn:Hb.
    - by apply Hfree.
    - exfalso. apply Hv, elem_of_walked_verts.
      rewrite vert_range_end_small by done.
      split; [done|]. by apply lookup_lt_Some in Hb.
    - apply lookup_ge_None_1 in Hb. unfold succ_of, pred_of.
      rewrite !lookup_ge_None_2 by lia. done. }
  split; [|split; [|done]].
  - intros x y. rewrite elem_eq. case_decide; [|done].
    destruct (Hnone x) as [-> _]. rewrite dom_empty_L.
    rewrite bool_decide_eq_false_2; [done|]. apply not_elem_of_empty.
  - intros x y. rewrite preds_mem_eq. case_decide; [|done].
    destruct (Hnone y) as [_ ->].
    rewrite bool_decide_eq_false_2; [done|]. apply not_elem_of_empty.
Qed.

(** X16.  In a state reached from [PtGraph()] by calls of [new_vertex],
    [growTo], [forget], [add_edge], [set_edge] and [update_edge], the two
    views of an allocated slot [v] say what [elem] says: [succs(v)]
    lists, each once, the [y] with [elem(v, y)], and [preds(v)] lists,
    each once, the [x] with [elem(x, v)]; their [size()]s are the
    lengths of the lists. *)
Theorem views_agree_with_elem (ops : list (@op Wt)) g v :
  run ops PtGraph_new = Ok g → v < length (is_free g) →
  ∃ ss ps, succs g v = Ok ss ∧ preds g v = Ok ps ∧
    NoDup ss ∧ NoDup ps ∧
    (∀ y, y ∈ ss ↔ elem g v y = Ok true) ∧
    (∀ x, x ∈ ps ↔ elem g x v = Ok true) ∧
    succs_size g v = Ok (Z.of_nat (length ss)) ∧
    preds_size g v = Ok (Z.of_nat (length ps)).
Proof.
  intros Hrun Hv. pose proof (wf_run ops _ g wf_new Hrun) as Hwf.
  pose proof (wf_succs g Hwf) as Hls. pose proof (wf_preds g Hwf) as Hlp.
  exists (ascending (dom (succ_of g v))), (ascending (pred_of g v)).
  rewrite succs_eq, preds_eq, succs_size_eq, preds_size_eq by lia.
  split; [done|]. split; [done|].
  split; [apply NoDup_ascending|]. split; [apply NoDup_ascending|].
  split; [|split; [|split]].
  - intros y. rewrite elem_of_ascending, elem_eq, decide_True by lia.
    split; [intros Hy; by rewrite bool_decide_eq_true_2|].
    by intros [= Hy%bool_decide_eq_true].
  - intros x. rewrite elem_of_ascending, <- (wf_edge g x v Hwf), elem_eq.
    split.
    + intros Hx. rewrite decide_True, bool_decide_eq_true_2; [done..|].
      rewrite Hls. apply (wf_pred_range g x v Hwf).
      by apply (wf_edge g x v Hwf).
    + case_decide; [|done]. by intros [= Hx%bool_decide_eq_true].
  - by rewrite length_ascending, size_dom.
  - by rewrite length_ascending.
Qed.

End clearing.

Lemma is_empty_iff_no_edge_witness :
  is_empty one_edge = true ↔ ∀ x y, elem one_edge x y ≠ Ok true.
Proof.
  apply (is_empty_iff_no_edge [NewVertex; NewVertex; AddEdge 0 5%Z 1]);
    vm_compute; reflexivity.
Defined.

Lemma clear_edges_clears_live_vertices_witness :
  ∃ g', clear_edges one_edge = Ok g' ∧
    is_empty g' = true ∧
    is_free g' = is_free one_edge ∧ free_id g' = free_id one_edge ∧
    size_ g' = size_ one_edge ∧
    ((Z.of_nat (length (is_free one_edge)) < 2 ^ 32)%Z →
     ∀ v, live one_edge v → succs g' v = Ok [] ∧ preds g' v = Ok []) ∧
    (∀ v, ¬ live one_edge v →
       succ_of g' v = succ_of one_edge v ∧ pred_of g' v = pred_of one_edge v).
Proof.
  apply (clear_edges_clears_live_vertices
           [NewVertex; NewVertex; AddEdge 0 5%Z 1]).
  vm_compute. reflexivity.
Defined.

Lemma clear_edges_leaves_no_edge_witness :
  ∃ g', clear_edges one_edge = Ok g' ∧
    (∀ x y, elem g' x y ≠ Ok true) ∧
    (∀ x y, preds_mem g' y x ≠ Ok true) ∧
    edge_count g' = 0%Z.
Proof.
  apply (clear_edges_leaves_no_edge [NewVertex; NewVertex; AddEdge 0 5%Z 1]);
    vm_compute; reflexivity.
Defined.

Lemma views_agree_with_elem_witness :
  ∃ ss ps, succs one_edge 1 = Ok ss ∧ preds one_edge 1 = Ok ps ∧
    NoDup ss ∧ NoDup ps ∧
    (∀ y, y ∈ ss ↔ elem one_edge 1 y = Ok true) ∧
    (∀ x, x ∈ ps ↔ elem one_edge x 1 = Ok true) ∧
    succs_size one_edge 1 = Ok (Z.of_nat (length ss)) ∧
    preds_size one_edge 1 = Ok (Z.of_nat (length ps)).
Proof.
  apply (views_agree_with_elem [NewVertex; NewVertex; AddEdge 0 5%Z 1]).
  - vm_compute. reflexivity.
  - vm_compute. lia.
Defined.

(** ** Growing and copying *)

Section growing.
Context {Wt : Type}.
Implicit Types (g ret : @PtGraph Wt) (x y v s d : vert_id) (w : Wt).

(** A graph of [n] live slots without edges. *)
Definition fresh_slots (n : nat) : @PtGraph Wt :=
  {| edge_count := 0; _succs := replicate n ∅; _preds := replicate n ∅;
     is_free := replicate n false; free_id := [] |}.

Lemma iter_push_slot_new n : Nat.iter n push_slot PtGraph_new = fresh_slots n.
Proof. by rewrite iter_push_slot. Qed.

Lemma growTo_new n : growTo PtGraph_new n = Ok (fresh_slots n).
Proof.
  unfold growTo; simpl. by rewrite Nat.sub_0_r, iter_push_slot_new.
Qed.

Lemma filter_all {A} (P : A → Prop) `{∀ a, Decision (P a)} (l : list A) :
  (∀ a, a ∈ l → P a) → filter P l = l.
Proof.
  induction l as [|a l IH]; intros Hall; [done|].
  rewrite filter_cons_True by (apply Hall; left).
  rewrite IH; [done|]. intros b Hb. apply Hall. by right.
Qed.

Lemma live_verts_fresh_slots n : live_verts (fresh_slots n) = seq 0 n.
Proof.
  unfold live_verts; simpl. rewrite length_replicate.
  apply filter_all. intros v Hv%elem_of_seq.
  apply lookup_replicate_2. lia.
Qed.

(** X17.  [growTo(n)] on a graph fresh from [PtGraph()] is [n] calls of
    [new_vertex()]: both leave the same state, with the vertices
    [0], ..., [n - 1] live ([n] is an [unsigned int], below [2 ^ 32]) and
    no edge. *)
Theorem growTo_is_repeated_new_vertex (n : nat) :
  run (replicate n NewVertex) (@PtGraph_new Wt) = growTo PtGraph_new n ∧
  ∃ g, growTo PtGraph_new n = Ok g ∧
       ((Z.of_nat n < 2 ^ 32)%Z → verts g = Ok (seq 0 n)) ∧
       is_empty g = true ∧ ∀ x y, elem g x y ≠ Ok true.
Proof.
  rewrite growTo_new. split.
  - induction n as [|n IH]; [done|].
    rewrite replicate_S_end, run_app, IH; simpl.
    unfold run; simpl. unfold fresh_slots, set_is_free; simpl.
    by rewrite <- !replicate_S_end.
  - exists (fresh_slots n). split; [done|]. split.
    { intros Hlt. rewrite verts_eq by (simpl; by rewrite length_replicate).
      by rewrite live_verts_fresh_slots. }
    split; [done|].
    intros x y. rewrite elem_eq. case_decide; [|done].
    unfold succ_of; simpl.
    destruct (replicate n ∅ !! x) as [m|] eqn:Hm; simpl.
    + apply lookup_replicate in Hm as [-> _]. rewrite dom_empty_L.
      rewrite bool_decide_eq_false_2; [done|]. apply not_elem_of_empty.
    + rewrite dom_empty_L.
      rewrite bool_decide_eq_false_2; [done|]. apply not_elem_of_empty.
Qed.

End growing.

Section copy_more.
Context {Wt : Type}.
Implicit Types (g ret : @PtGraph Wt) (x y v s d : vert_id) (w : Wt).

Lemma counted_fresh_slots n : counted (@fresh_slots Wt n).
Proof. apply (counted_growTo PtGraph_new n); [apply counted_new|apply growTo_new]. Qed.

(** The inner loop of [copy] keeps the count, on distinct successors
    that [ret] does not have yet. *)
Lemma copy_inner_counted g s ds ret ret' :
  NoDup ds → counted ret → live ret s →
  (∀ d, d ∈ ds →
     d ∈ dom (succ_of g s) ∧ live ret d ∧ succ_of ret s !! d = None) →
  s < length (_succs g) →
  for_each ds (λ d ret, w ← edge_val g s d; add_edge ret s w d) ret = Ok ret' →
  counted ret' ∧ free_id ret' = free_id ret.
Proof.
  intros Hnd. revert ret; induction Hnd as [|d ds Hd Hnd IH];
    intros ret Hc Hs Hds Hsg; simpl.
  - by intros [= <-].
  - destruct (Hds d) as ([w Hw]%elem_of_dom & Hdl & Hnone); [left|].
    rewrite edge_val_eq, decide_True, Hw by done; simpl.
    pose proof (cnt_wf ret Hc) as Hwf.
    pose proof (wf_succs ret Hwf) as Hls. pose proof (wf_preds ret Hwf) as Hlp.
    assert (Hsl : s < length (is_free ret)) by eauto using lookup_lt_Some.
    assert (Hdl' : d < length (is_free ret)) by eauto using lookup_lt_Some.
    rewrite add_edge_eq, !decide_True by lia; simpl.
    intros Hrun. apply IH in Hrun as [Hc' Hf']; [done| | | |done].
    + apply counted_add_edge; [done..|]. by apply not_elem_of_dom.
    + done.
    + intros d' Hd'. destruct (Hds d') as (? & ? & Hn'); [by right|].
      split; [done|]. split; [done|].
      rewrite succ_of_add_edge, decide_True by (lia || done).
      rewrite lookup_insert_ne; [done|]. intros ->. done.
Qed.

Lemma copy_outer_counted g vs ret ret' :
  wf g → NoDup vs → counted ret →
  length (is_free ret) = length (is_free g) →
  (∀ u, u < length (is_free g) → live ret u) →
  (∀ s, s ∈ vs → s < length (is_free g) ∧ succ_of ret s = ∅) →
  for_each vs (λ s ret,
    ds ← succs g s;
    for_each ds (λ d ret, w ← edge_val g s d; add_edge ret s w d) ret) ret
  = Ok ret' →
  counted ret' ∧ free_id ret' = free_id ret.
Proof.
  intros Hwf Hnd. pose proof (wf_succs g Hwf) as Hls.
  revert ret; induction Hnd as [|s vs Hs Hnd IH];
    intros ret Hc Hlen Hlive Hvs; simpl.
  - by intros [= <-].
  - destruct (Hvs s) as [Hsl Hse]; [left|].
    pose proof (cnt_wf ret Hc) as Hwfr.
    pose proof (wf_succs ret Hwfr) as Hlsr.
    pose proof (wf_preds ret Hwfr) as Hlpr.
    rewrite succs_eq by lia; simpl.
    destruct (copy_inner g s (ascending (dom (succ_of g s))) ret)
      as (ret1 & Hrun1 & Hl1 & Hl2 & Hfr1 & Hlk1); [lia..| |].
    { intros d Hd%elem_of_ascending. split; [done|].
      rewrite Hlpr, Hlen. by eapply wf_range. }
    rewrite Hrun1; simpl.
    destruct (copy_inner_counted g s (ascending (dom (succ_of g s))) ret ret1)
      as [Hc1 Hf1]; [apply NoDup_ascending|done|by apply Hlive| |lia|done|].
    { intros d Hd%elem_of_ascending. split; [done|]. split.
      - apply Hlive. by eapply wf_range.
      - by rewrite Hse. }
    intros Hrun. apply IH in Hrun as [Hc' Hf']; [split; congruence|done| | |].
    + by rewrite Hfr1.
    + intros u Hu. unfold live. rewrite Hfr1. by apply Hlive.
    + intros s' Hs'. destruct (Hvs s') as [Hsl' Hse']; [by right|].
      split; [done|]. apply map_eq; intros y.
      rewrite Hlk1, decide_False, Hse'; [done|]. intros [-> _]. done.
Qed.

(** X18.  For a source [g] built by the member functions, of fewer than
    [2 ^ 32] slots, the graph that [copy(g)] returns has every slot live
    and an empty free-list, whatever slots are free in [g]: [verts()]
    yields [0], ..., [size() - 1], and the next [new_vertex()] appends a
    slot.  Its two views agree, and its [edge_count] is the number of its
    edges (modulo [2 ^ 32]). *)
Theorem copy_makes_every_slot_live g :
  wf g → (Z.of_nat (length (is_free g)) < 2 ^ 32)%Z →
  ∃ r, copy g = Ok r ∧
    verts r = Ok (seq 0 (length (is_free g))) ∧
    free_id r = [] ∧
    (∃ r', new_vertex r = Ok (length (is_free g), r')) ∧
    I1 r ∧
    edge_count r = uint32 (Z.of_nat (live_succ_sum r)) ∧
    live_succ_sum r = live_pred_sum r.
Proof.
  intros Hwf Hlt. pose proof (wf_succs g Hwf) as Hls.
  set (n := length (is_free g)).
  assert (Hn : Z.to_nat (uint32 (size_ g)) = n).
  { unfold size_. rewrite uint32_int32, uint32_small by (fold n; lia).
    apply Nat2Z.id. }
  unfold copy; simpl. rewrite Hn, growTo_new; simpl.
  rewrite verts_eq by done; simpl.
  assert (Hempty : ∀ x, succ_of (@fresh_slots Wt n) x = ∅).
  { intros x. unfold succ_of; simpl.
    destruct (replicate n ∅ !! x) as [m|] eqn:Hm; [|done].
    by apply lookup_replicate in Hm as [-> _]. }
  assert (Hvs : ∀ s, s ∈ live_verts g →
                     s < length (is_free g) ∧
                     succ_of (@fresh_slots Wt n) s = ∅).
  { intros s [_ Hs%elem_of_seq]%list_elem_of_filter. split; [lia|done]. }
  destruct (copy_outer g (live_verts g) (fresh_slots n) Hwf)
    as (r & Hrun & Hl & Hfr & Hlk);
    [apply NoDup_filter, NoDup_seq | simpl; apply length_replicate..
    | done |].
  destruct (copy_outer_counted g (live_verts g) (fresh_slots n) r Hwf)
    as [[Hwfr Hfree Hcnt Hsym] Hfid];
    [apply NoDup_filter, NoDup_seq | apply counted_fresh_slots
    | simpl; apply length_replicate | | done | done |].
  { intros u Hu. unfold live; simpl. by apply lookup_replicate_2. }
  exists r. split; [done|]. simpl in Hfr, Hfid.
  assert (Hlv : live_verts r = seq 0 n).
  { unfold live_verts. rewrite Hfr.
    apply (live_verts_fresh_slots (Wt := Wt) n). }
  split.
  { rewrite verts_eq by (rewrite Hfr, length_replicate; fold n; lia).
    by rewrite Hlv. }
  split; [done|]. split.
  - eexists. rewrite new_vertex_push by done.
    rewrite Hfr, length_replicate, uint32_small, Nat2Z.id by (fold n; lia).
    done.
  - split; [by apply wf_sym|].
    rewrite live_succ_sum_eq, live_pred_sum_eq by done. done.
Qed.

End copy_more.

Lemma copy_makes_every_slot_live_witness :
  ∃ r, copy two_freed = Ok r ∧
    verts r = Ok (seq 0 (length (is_free two_freed))) ∧
    free_id r = [] ∧
    (∃ r', new_vertex r = Ok (length (is_free two_freed), r')) ∧
    I1 r ∧
    edge_count r = uint32 (Z.of_nat (live_succ_sum r)) ∧
    live_succ_sum r = live_pred_sum r.
Proof.
  apply (copy_makes_every_slot_live two_freed).
  - apply (wf_run [NewVertex; NewVertex; Forget 0; Forget 1] PtGraph_new);
      [apply wf_new | vm_compute; reflexivity].
  - vm_compute. reflexivity.
Defined.

(** ** Calls made one after the other *)

Section compositions.
Context {Wt : Type}.
Implicit Types (g : @PtGraph Wt) (x y v s d : vert_id) (w : Wt).

Lemma overwrite_same g s w d :
  succ_of g s !! d = Some w → overwrite_result g s w d = g.
Proof.
  intros Hw. unfold overwrite_result.
  assert (Hl : alter (<[d:=w]>) s (_succs g) = _succs g).
  { apply list_eq; intros i. destruct (decide (i = s)) as [->|Hi].
    - rewrite list_lookup_alter_eq. unfold succ_of in Hw.
      destruct (_succs g !! s) as [m|]; [|done]. simpl in *.
      by rewrite insert_id.
    - by rewrite list_lookup_alter_ne. }
  rewrite Hl. by destruct g.
Qed.

(** X19.  [set_edge] with the weight the edge has changes nothing: after
    a [set_edge(x, w, y)] that returned, a second [set_edge(x, w, y)]
    returns the very same state. *)
Theorem set_edge_twice_same_weight g x w y g' :
  set_edge g x w y = Ok g' → set_edge g' x w y = Ok g'.
Proof.
  intros Hset.
  destruct (set_edge_frame g x w y g' Hset) as (He & Hv & _).
  rewrite elem_eq in He. case_decide as Hx; [|done].
  injection He as Hin%bool_decide_eq_true.
  rewrite edge_val_eq, decide_True in Hv by done.
  destruct (succ_of g' x !! y) as [w'|] eqn:Hw; [|done]. injection Hv as ->.
  rewrite set_edge_eq, !decide_True by done.
  by rewrite overwrite_same.
Qed.

(** X20.  In a state reached from [PtGraph()], [forget(v)] of a live
    vertex followed by [new_vertex()] gives [v] back with the marks and
    the free-list as they were before the two calls: what is gone are
    the edges that touched [v], and nothing else. *)
Theorem forget_then_new_vertex_isolates (ops : list (@op Wt)) g v :
  run ops PtGraph_new = Ok g → live g v →
  ∃ g1 g2, forget g v = Ok g1 ∧ new_vertex g1 = Ok (v, g2) ∧
    is_free g2 = is_free g ∧ free_id g2 = free_id g ∧
    succs g2 v = Ok [] ∧ preds g2 v = Ok [] ∧
    (∀ x y, x ≠ v → y ≠ v →
       elem g2 x y = elem g x y ∧ edge_val g2 x y = edge_val g x y).
Proof.
  intros Hrun Hlive. pose proof (wf_run ops _ g wf_new Hrun) as Hwf.
  pose proof (wf_succs g Hwf) as Hls. pose proof (wf_preds g Hwf) as Hlp.
  assert (Hv : v < length (is_free g)) by eauto using lookup_lt_Some.
  exists (forget_result g v). eexists.
  rewrite forget_live by done. split; [done|].
  rewrite (new_vertex_pop (forget_result g v) v (free_id g)); simpl;
    [|done|rewrite length_alter_all, length_alter; lia
     |by rewrite length_insert].
  split; [done|]. simpl.
  set (g2 := set_is_free (set_free_id (forget_result g v) (free_id g))
               (<[v:=false]> (<[v:=true]> (is_free g)))).
  assert (Hs2 : ∀ x, succ_of g2 x = succ_of (forget_result g v) x) by done.
  assert (Hp2 : ∀ x, pred_of g2 x = pred_of (forget_result g v) x) by done.
  assert (Hl2 : length (_succs g2) = length (_succs g)).
  { simpl. by rewrite length_alter_all, length_alter. }
  assert (Hlp2 : length (_preds g2) = length (_preds g)).
  { simpl. by rewrite length_alter, length_alter_all. }
  split; [|split; [done|split; [|split]]].
  - rewrite list_insert_insert_eq. apply list_insert_id. exact Hlive.
  - rewrite succs_eq by lia.
    rewrite Hs2, succ_of_forget, decide_True by done.
    by rewrite dom_empty_L, ascending_empty.
  - rewrite preds_eq by lia.
    rewrite Hp2, pred_of_forget, decide_True by done.
    by rewrite ascending_empty.
  - intros x y Hx Hy. apply same_binding_same_answers; [done|].
    rewrite Hs2, succ_of_forget, decide_False by done.
    by rewrite lookup_delete_ne.
Qed.

End compositions.

Lemma set_edge_twice_same_weight_witness :
  set_edge (overwrite_result one_edge 0 3%Z 1) 0 3%Z 1
  = Ok (overwrite_result one_edge 0 3%Z 1).
Proof.
  apply (set_edge_twice_same_weight one_edge 0 3%Z 1).
  vm_compute. reflexivity.
Defined.

Lemma forget_then_new_vertex_isolates_witness :
  ∃ g1 g2, forget one_edge 1 = Ok g1 ∧ new_vertex g1 = Ok (1, g2) ∧
    is_free g2 = is_free one_edge ∧ free_id g2 = free_id one_edge ∧
    succs g2 1 = Ok [] ∧ preds g2 1 = Ok [] ∧
    (∀ x y, x ≠ 1 → y ≠ 1 →
       elem g2 x y = elem one_edge x y ∧
       edge_val g2 x y = edge_val one_edge x y).
Proof.
  apply (forget_then_new_vertex_isolates
           [NewVertex; NewVertex; AddEdge 0 5%Z 1]);
    vm_compute; reflexivity.
Defined.

(** ** The textual form *)

From stdpp Require Import strings pretty.

Section write.
Context {Wt : Type}.

(** [o << w] for a weight [w]: the [operator<<] of [Wt], which the
    template takes from its argument. *)
Context (show_wt : Wt → string).
Implicit Types (g : @PtGraph Wt) (x y v s d : vert_id) (w : Wt) (o : string).

(** [o << "(" << edge_val(v, d) << ":" << d << ")"], after what [o]
    holds; a [vert_id] is written in decimal. *)
Definition write_edge g v d o : outcome string :=
  w ← edge_val g v d;
  Ok (o +:+ "(" +:+ show_wt w +:+ ":" +:+ pretty d +:+ ")").

(** One round of the loop of [write] over the slots: [first] and the
    text written so far are threaded. *)
Definition write_slot g v (st : bool * string) : outcome (bool * string) :=
  ds ← succs g v;
  match ds with
  | [] => Ok st
  | d :: ds' =>
      let o := if st.1 then st.2 else st.2 +:+ ", " in
      let o := o +:+ "[v" +:+ pretty v +:+ " -> " in
      o ← write_edge g v d o;
      o ← for_each ds' (λ d o, write_edge g v d (o +:+ ", ")) o;
      Ok (false, o +:+ "]")
  end.

(** The loop [for(vert_id v = 0; v < _succs.size(); v++)] of [write].
    The counter [v] is an [unsigned int]: [v++] wraps at [2 ^ 32], and
    with [2 ^ 32] slots or more [v < _succs.size()] holds whatever [v]
    is, so that the loop does not end.  The loop is run for at most
    [fuel] rounds, the last of which finds [v < _succs.size()] false;
    [None] says that the rounds were used up before that. *)
Fixpoint write_loop (fuel : nat) g v (st : bool * string)
  : option (outcome (bool * string)) :=
  match fuel with
  | O => None
  | S fuel' =>
      if decide (v < length (_succs g)) then
        match write_slot g v st with
        | Ok st' =>
            write_loop fuel' g (Z.to_nat (uint32 (Z.of_nat v + 1))) st'
        | AssertFail => Some AssertFail
        | Undefined => Some Undefined
        end
      else Some (Ok st)
  end.

(** [void write(std::ostream& o)]: what is written to [o], if the loop
    ends within [fuel] rounds. *)
Definition write (fuel : nat) g : option (outcome string) :=
  match write_loop fuel g 0 (true, "[|") with
  | Some r => Some (st ← r; Ok (st.2 +:+ "|]"))
  | None => None
  end.

(** What is written when the loop makes one round for each slot, from
    slot 0 on. *)
Definition write_text g : outcome string :=
  st ← for_each (seq 0 (length (_succs g))) (write_slot g) (true, "[|");
  Ok (st.2 +:+ "|]").

Lemma for_each_app {A S} (l1 l2 : list A) (body : A → S → outcome S) (t : S) :
  for_each (l1 ++ l2) body t = (t' ← for_each l1 body t; for_each l2 body t').
Proof.
  revert t; induction l1 as [|a l1 IH]; intros t; simpl; [done|].
  destruct (body a t); simpl; auto.
Qed.

Lemma for_each_ext_in {A S} (l : list A) (body1 body2 : A → S → outcome S)
    (t : S) :
  (∀ a t', a ∈ l → body1 a t' = body2 a t') →
  for_each l body1 t = for_each l body2 t.
Proof.
  revert t; induction l as [|a l IH]; intros t Hext; simpl; [done|].
  rewrite Hext by left. destruct (body2 a t); simpl; [|done..].
  apply IH. intros b t' Hb. apply Hext. by right.
Qed.

Lemma for_each_returns {A S} (l : list A) (body : A → S → outcome S) (t : S) :
  (∀ a t', a ∈ l → ∃ t'', body a t' = Ok t'') →
  ∃ t', for_each l body t = Ok t'.
Proof.
  revert t; induction l as [|a l IH]; intros t Hret; simpl; [eauto|].
  destruct (Hret a t) as [t1 ->]; [left|]. simpl.
  apply IH. intros b t' Hb. apply Hret. by right.
Qed.

(** Below [2 ^ 32] slots the counter does not wrap: with fuel for one
    round more than there are slots left, the loop ends after a round
    for each of them. *)
Lemma write_loop_ends fuel g v st :
  (Z.of_nat (length (_succs g)) < 2 ^ 32)%Z →
  v ≤ length (_succs g) → length (_succs g) - v < fuel →
  write_loop fuel g v st
  = Some (for_each (seq v (length (_succs g) - v)) (write_slot g) st).
Proof.
  intros Hlt. revert v st; induction fuel as [|fuel IH]; intros v st Hv Hf;
    [lia|].
  simpl. case_decide as Hvl.
  - replace (length (_succs g) - v) with (S (length (_succs g) - S v)) by lia.
    simpl. destruct (write_slot g v st) as [st'| |]; simpl; [|done..].
    rewrite uint32_small by lia.
    replace (Z.to_nat (Z.of_nat v + 1)) with (S v) by lia.
    apply IH; lia.
  - replace (length (_succs g) - v) with 0 by lia. done.
Qed.

Lemma write_ends fuel g :
  (Z.of_nat (length (_succs g)) < 2 ^ 32)%Z → length (_succs g) < fuel →
  write fuel g = Some (write_text g).
Proof.
  intros Hlt Hf. unfold write, write_text.
  rewrite write_loop_ends by lia. by rewrite Nat.sub_0_r.
Qed.

(** A round of the loop at an allocated slot returns. *)
Lemma write_slot_returns g v st :
  v < length (_succs g) → ∃ st', write_slot g v st = Ok st'.
Proof.
  intros Hv. unfold write_slot.
  assert (Hs : succs g v = Ok (ascending (dom (succ_of g v)))).
  { unfold succs. by rewrite (vec_at_lookup _ _ _ (succ_of_lookup g v Hv)). }
  rewrite Hs; simpl.
  assert (He : ∀ d o, d ∈ ascending (dom (succ_of g v)) →
                      ∃ o', write_edge g v d o = Ok o').
  { intros d o [w Hw]%elem_of_ascending%elem_of_dom. unfold write_edge.
    rewrite edge_val_eq, decide_True, Hw by done. simpl. eauto. }
  destruct (ascending (dom (succ_of g v))) as [|d ds']; [eauto|].
  destruct (He d ((if st.1 then st.2 else st.2 +:+ ", ")
                  +:+ "[v" +:+ pretty v +:+ " -> ")) as [o1 Ho1]; [left|].
  rewrite Ho1; simpl.
  destruct (for_each_returns ds' (λ d o, write_edge g v d (o +:+ ", ")) o1)
    as [o2 Ho2].
  { intros a t' Ha. apply He. by right. }
  rewrite Ho2; simpl. eauto.
Qed.

(** From [2 ^ 32] slots on the loop does not end, whatever the fuel. *)
Lemma write_loop_goes_on fuel g v st :
  (2 ^ 32 ≤ Z.of_nat (length (_succs g)))%Z → (Z.of_nat v < 2 ^ 32)%Z →
  write_loop fuel g v st = None.
Proof.
  intros Hge. revert v st; induction fuel as [|fuel IH]; intros v st Hv;
    [done|].
  simpl. rewrite decide_True by lia.
  destruct (write_slot_returns g v st) as [st' ->]; [lia|].
  apply IH. unfold uint32.
  pose proof (Z.mod_pos_bound (Z.of_nat v + 1) (2 ^ 32)). lia.
Qed.

(** Below [2 ^ 32] slots [write] returns a text. *)
Lemma write_text_returns g : ∃ t, write_text g = Ok t.
Proof.
  unfold write_text.
  destruct (for_each_returns (seq 0 (length (_succs g))) (write_slot g)
              (true, "[|")) as [st ->]; [|simpl; eauto].
  intros v st Hv%elem_of_seq. apply write_slot_returns. lia.
Qed.

Lemma write_slot_same_succs g g' v st :
  _succs g' !! v = _succs g !! v → write_slot g' v st = write_slot g v st.
Proof.
  intros Hv. unfold write_slot, write_edge, succs, edge_val, succs_value, vec_at.
  by rewrite Hv.
Qed.

Lemma write_same_succs g g' : _succs g' = _succs g → write_text g' = write_text g.
Proof.
  intros Hs. unfold write_text. rewrite Hs. f_equal.
  apply for_each_ext_in. intros v t _. apply write_slot_same_succs.
  by rewrite Hs.
Qed.

Lemma write_slot_empty g v st :
  _succs g !! v = Some ∅ → write_slot g v st = Ok st.
Proof.
  intros Hv. unfold write_slot, succs. rewrite (vec_at_lookup _ _ _ Hv); simpl.
  by rewrite dom_empty_L, ascending_empty.
Qed.

Lemma write_push_slot g : write_text (push_slot g) = write_text g.
Proof.
  unfold write_text; simpl. rewrite length_app; simpl.
  rewrite Nat.add_1_r, seq_S, for_each_app; simpl.
  assert (Hpre : for_each (seq 0 (length (_succs g)))
                   (write_slot (push_slot g)) (true, "[|")
                 = for_each (seq 0 (length (_succs g)))
                     (write_slot g) (true, "[|")).
  { apply for_each_ext_in. intros v t Hv%elem_of_seq.
    apply write_slot_same_succs; simpl. apply lookup_app_l. lia. }
  rewrite Hpre.
  destruct (for_each _ (write_slot g) _) as [st| |]; simpl; [|done..].
  rewrite write_slot_empty; [done|]. simpl.
  by rewrite lookup_app_r, Nat.sub_diag by lia.
Qed.

Lemma write_text_without_edges g :
  (∀ v, v < length (_succs g) → succ_of g v = ∅) → write_text g = Ok "[||]".
Proof.
  intros Hnone. unfold write_text.
  assert (Hloop : ∀ l st, (∀ v, v ∈ l → v < length (_succs g)) →
            for_each l (write_slot g) st = Ok st).
  { induction l as [|v l IH]; intros st Hl; simpl; [done|].
    rewrite write_slot_empty; simpl.
    - apply IH. intros u Hu. apply Hl. by right.
    - rewrite succ_of_lookup by (apply Hl; left).
      by rewrite Hnone by (apply Hl; left). }
  rewrite Hloop; [done|]. intros v Hv%elem_of_seq. lia.
Qed.

Lemma write_text_new_vertex g v g' :
  new_vertex g = Ok (v, g') →
  write_text g' = write_text g ∧ length (_succs g) ≤ length (_succs g').
Proof.
  unfold new_vertex. destruct (free_id g) as [|u rest].
  - intros [= _ <-]. split; [apply write_push_slot|].
    simpl. rewrite length_app. lia.
  - intros (_ & _ & (f & _ & [= _ <-])%bind_Ok)%bind_Ok.
    split; [by apply write_same_succs|done].
Qed.

Lemma write_text_growTo g n g' :
  growTo g n = Ok g' →
  write_text g' = write_text g ∧ length (_succs g) ≤ length (_succs g').
Proof.
  unfold growTo. intros (_ & _ & [= <-])%bind_Ok.
  induction (n - length (is_free g)) as [|k [IH1 IH2]]; [done|].
  simpl. rewrite write_push_slot. split; [done|].
  simpl. rewrite length_app. lia.
Qed.

(** X21.  A graph of fewer than [2 ^ 32] slots none of which has a
    successor is written as [[||]], however many slots it has below
    that: [write] returns, once the loop is given a round for each slot
    and one more. *)
Theorem write_without_edges g :
  (∀ v, v < length (_succs g) → succ_of g v = ∅) →
  (Z.of_nat (length (_succs g)) < 2 ^ 32)%Z →
  ∀ fuel, length (_succs g) < fuel → write fuel g = Some (Ok "[||]").
Proof.
  intros Hnone Hlt fuel Hf. rewrite write_ends by done.
  by rewrite write_text_without_edges.
Qed.

(** X22.  Allocating vertices does not change what is written: while
    the graph has fewer than [2 ^ 32] slots after a [new_vertex()] or a
    [growTo(n)] that returned, [write] returns before and after the
    call, and with the same text. *)
Theorem write_unchanged_by_allocation g :
  (∀ v g', new_vertex g = Ok (v, g') →
     (Z.of_nat (length (_succs g')) < 2 ^ 32)%Z →
     ∀ fuel, length (_succs g') < fuel →
       ∃ t, write fuel g = Some (Ok t) ∧ write fuel g' = Some (Ok t)) ∧
  (∀ n g', growTo g n = Ok g' →
     (Z.of_nat (length (_succs g')) < 2 ^ 32)%Z →
     ∀ fuel, length (_succs g') < fuel →
       ∃ t, write fuel g = Some (Ok t) ∧ write fuel g' = Some (Ok t)).
Proof.
  destruct (write_text_returns g) as [t Hg]. split.
  - intros v g' [Ht Hl]%write_text_new_vertex Hlt fuel Hf.
    exists t. rewrite !write_ends by lia. by rewrite Ht, Hg.
  - intros n g' [Ht Hl]%write_text_growTo Hlt fuel Hf.
    exists t. rewrite !write_ends by lia. by rewrite Ht, Hg.
Qed.

(** X23.  On a graph of [2 ^ 32] slots or more [write] does not return:
    its counter is an [unsigned int], which stays below the number of
    slots, and every round of the loop returns. *)
Theorem write_does_not_return g :
  (2 ^ 32 ≤ Z.of_nat (length (_succs g)))%Z → ∀ fuel, write fuel g = None.
Proof.
  intros Hge fuel. unfold write. by rewrite write_loop_goes_on.
Qed.

End write.

Lemma write_without_edges_witness :
  write (λ w : Z, pretty w) 3 two_freed = Some (Ok "[||]").
Proof.
  apply write_without_edges.
  - intros [|[|v]]; vm_compute; (reflexivity || lia).
  - vm_compute. reflexivity.
  - vm_compute. lia.
Defined.

(** A graph of [2 ^ 32] slots, all of them live and without edges. *)
Definition slots_2_32 : @PtGraph Z :=
  {| edge_count := 0;
     _succs := replicate (Z.to_nat (2 ^ 32)) ∅;
     _preds := replicate (Z.to_nat (2 ^ 32)) ∅;
     is_free := replicate (Z.to_nat (2 ^ 32)) false;
     free_id := [] |}.

Lemma write_does_not_return_witness :
  write (λ w : Z, pretty w) 5 slots_2_32 = None.
Proof.
  apply write_does_not_return.
  unfold slots_2_32. cbn [_succs]. rewrite length_replicate. lia.
Defined.

Lemma write_unchanged_by_allocation_witness :
  (∀ v g', new_vertex one_edge = Ok (v, g') →
     (Z.of_nat (length (_succs g')) < 2 ^ 32)%Z →
     ∀ fuel, length (_succs g') < fuel →
       ∃ t, write (λ w : Z, pretty w) fuel one_edge = Some (Ok t) ∧
            write (λ w : Z, pretty w) fuel g' = Some (Ok t)) ∧
  (∀ n g', growTo one_edge n = Ok g' →
     (Z.of_nat (length (_succs g')) < 2 ^ 32)%Z →
     ∀ fuel, length (_succs g') < fuel →
       ∃ t, write (λ w : Z, pretty w) fuel one_edge = Some (Ok t) ∧
            write (λ w : Z, pretty w) fuel g' = Some (Ok t)).
Proof. apply (write_unchanged_by_allocation (λ w : Z, pretty w) one_edge). Defined.

(** The worked example, written: four rounds of the loop, one for each
    of the three slots and one that ends it. *)
Lemma write_example :
  write (λ w : Z, pretty w) 4
    (state_after [NewVertex; NewVertex; NewVertex;
                  AddEdge 0 5%Z 1; AddEdge 1 3%Z 2])
  = Some (Ok "[|[v0 -> (5:1)], [v1 -> (3:2)]|]").
Proof. vm_compute. reflexivity. Qed.

(** Two edges from one vertex are written in the order in which
    [succs(v)] is iterated, [ascending]. *)
Lemma write_example_two_successors :
  write (λ w : Z, pretty w) 4
    (state_after [NewVertex; NewVertex; NewVertex;
                  AddEdge 0 5%Z 2; AddEdge 0 3%Z 1])
  = Some (Ok "[|[v0 -> (3:1), (5:2)]|]").
Proof. vm_compute. reflexivity. Qed.
